(** * Order-picking report generator (energy-spectrum/Test1)

    A shallow embedding of the variants of [cmd/main.go] kept in the
    repository, with the properties its specification states about them:

    - [Main]     : [src/cmd/main.go], batch loading, racks keyed by name;
    - [ByRackID] : [src/unnamed/part_000], batch loading, racks keyed by ID;
    - [PerItem]  : [src/unnamed/part_001], one store lookup per line item.

    ([src/unnamed/part_002] is [PerItem] with every step written inside
    [solve]; no property below is about it.)

    Go's runtime and library functions the program calls ([strings.Split],
    [strconv.ParseInt], [sort.Strings], [fmt.Printf] verbs, string slicing,
    [range] over a map) are modelled in [Go]. *)

From Stdlib Require Import ZArith String Ascii List Lia DecimalString.
From stdpp Require Import base option list gmap strings sorting.

Open Scope string_scope.
Open Scope Z_scope.

(** ** The part of Go the program relies on *)

Module Go.

(** Go's [error] values are only ever printed by the program. *)
Definition error := string.

(** A call returning [(T, error)]. *)
Inductive result (A : Type) : Type :=
| Ok (a : A)
| Err (e : error).
Arguments Ok {A} a.
Arguments Err {A} e.

(** [strings.Split(s, sep)] for a one-byte separator: the pieces of [s]
    between the separators; never empty, [Split "" sep = [""]]. *)
Fixpoint Split (s : string) (sep : ascii) : list string :=
  match s with
  | EmptyString => [EmptyString]
  | String c rest =>
      if Ascii.eqb c sep then EmptyString :: Split rest sep
      else match Split rest sep with
           | tok :: toks => String c tok :: toks
           | [] => [String c EmptyString]
           end
  end.

(** [strconv.NumError.Err]: the two failures of a base-10 parse. *)
Inductive NumError : Type := ErrSyntax | ErrRange.

Definition maxUint64 : Z := 18446744073709551615.
Definition uint64 (z : Z) : Z := z mod 2 ^ 64.

Definition byte_of (c : ascii) : Z := Z.of_N (N_of_ascii c).

(** [lower(c)] of strconv: [c | ('x' - 'X')]. *)
Definition lower (c : Z) : Z := Z.lor c 32.

(** The digit switch of [ParseUint]'s loop ([base != 0], so an underscore
    falls to the default case). [None] is the [default:] branch. *)
Definition digit_val (c : ascii) : option Z :=
  let b := byte_of c in
  if (48 <=? b) && (b <=? 57) then Some (b - 48)
  else if (97 <=? lower b) && (lower b <=? 122) then Some (lower b - 97 + 10)
  else None.

(** The loop of [strconv.ParseUint(s, 10, 64)] over the bytes of [s], with
    [n] the value accumulated so far; [cutoff = maxUint64/10 + 1]. *)
Fixpoint ParseUint_loop (s : string) (n : Z) : Z * option NumError :=
  match s with
  | EmptyString => (n, None)
  | String c rest =>
      match digit_val c with
      | None => (0, Some ErrSyntax)
      | Some d =>
          if 10 <=? d then (0, Some ErrSyntax)
          else if maxUint64 / 10 + 1 <=? n then (maxUint64, Some ErrRange)
          else
            let n10 := uint64 (n * 10) in
            let n1 := uint64 (n10 + d) in
            if (n1 <? n10) || (maxUint64 <? n1) then (maxUint64, Some ErrRange)
            else ParseUint_loop rest n1
      end
  end.

Definition ParseUint (s : string) : Z * option NumError :=
  match s with
  | EmptyString => (0, Some ErrSyntax)
  | _ => ParseUint_loop s 0
  end.

(** [strconv.ParseInt(s, 10, 64)]: sign, then [ParseUint], then the range
    check against [cutoff = 1 << 63]. *)
Definition ParseInt (s : string) : Z * option NumError :=
  match s with
  | EmptyString => (0, Some ErrSyntax)
  | String c rest =>
      let neg := Ascii.eqb c "-" in
      let body := if Ascii.eqb c "+" || neg then rest else s in
      match ParseUint body with
      | (_, Some ErrSyntax) => (0, Some ErrSyntax)
      | (un, _) =>
          let cutoff := 2 ^ 63 in
          if negb neg && (cutoff <=? un) then (cutoff - 1, Some ErrRange)
          else if neg && (cutoff <? un) then (- cutoff, Some ErrRange)
          else (if neg then - un else un, None)
      end
  end.

(** The tokens that spell a decimal integer: an optional sign followed by
    at least one digit, and nothing else. *)
Definition is_digit (c : ascii) : bool :=
  (48 <=? byte_of c) && (byte_of c <=? 57).

Fixpoint all_digits (s : string) : bool :=
  match s with
  | EmptyString => true
  | String c rest => is_digit c && all_digits rest
  end.

Definition digits (s : string) : bool :=
  match s with
  | EmptyString => false
  | _ => all_digits s
  end.

Definition numeric (tok : string) : bool :=
  match tok with
  | EmptyString => false
  | String c rest =>
      if Ascii.eqb c "+" || Ascii.eqb c "-" then digits rest else digits tok
  end.

(** The number spelled by the digits a string starts with, continuing
    from [n], and what follows these digits. *)
Fixpoint dec_value (s : string) (n : Z) : Z :=
  match s with
  | EmptyString => n
  | String c rest =>
      if is_digit c then dec_value rest (n * 10 + (byte_of c - 48)) else n
  end.

Fixpoint after_digits (s : string) : string :=
  match s with
  | EmptyString => EmptyString
  | String c rest => if is_digit c then after_digits rest else s
  end.

(** A token without its sign, and whether the sign is a minus. *)
Definition unsigned_part (tok : string) : string :=
  match tok with
  | EmptyString => EmptyString
  | String c rest => if Ascii.eqb c "+" || Ascii.eqb c "-" then rest else tok
  end.

Definition is_negative (tok : string) : bool :=
  match tok with
  | EmptyString => false
  | String c _ => Ascii.eqb c "-"
  end.

(** The fast path of [strconv.Atoi] on a 64-bit platform, then the slow
    path through [ParseInt(s, 10, 0)]. *)
Fixpoint Atoi_fast (s : string) (n : Z) : option Z :=
  match s with
  | EmptyString => Some n
  | String c rest =>
      let ch := (byte_of c - 48) mod 256 in
      if 9 <? ch then None else Atoi_fast rest (n * 10 + ch)
  end.

Definition Atoi (s : string) : Z * option NumError :=
  let sLen := String.length s in
  if (0 <? sLen)%nat && (sLen <? 19)%nat then
    match s with
    | EmptyString => (0, Some ErrSyntax)
    | String c rest =>
        let signed := Ascii.eqb c "-" || Ascii.eqb c "+" in
        let body := if signed then rest else s in
        if signed && (String.length body <? 1)%nat then (0, Some ErrSyntax)
        else match Atoi_fast body 0 with
             | None => (0, Some ErrSyntax)
             | Some n => (if Ascii.eqb c "-" then - n else n, None)
             end
    end
  else ParseInt s.

(** [*strconv.NumError] with its three fields; the type [NumError] above
    is its field [Err]. *)
Record strconv_NumError : Type := {
  NumError_Func : string; NumError_Num : string; NumError_Err : NumError
}.

(** The error [strconv.ParseInt(s, 10, 64)] returns: whatever the failure,
    [Func] is the name of the function and [Num] is the whole input. *)
Definition ParseInt_error (s : string) : option strconv_NumError :=
  (fun err => {| NumError_Func := "ParseInt"; NumError_Num := s; NumError_Err := err |})
    <$> snd (ParseInt s).

(** [strconv.Atoi] parses into an [int], whose size [strconv.IntSize] is 32
    or 64 with the platform the program is built for. Its slow path calls
    [ParseInt(s, 10, 0)], where the bit size 0 stands for [IntSize].
    [maxVal = uint64(1)<<uint(bitSize) - 1] of [ParseUint], in the
    arithmetic of [uint64]. *)
Definition maxVal (bitSize : Z) : Z := uint64 (uint64 (Z.shiftl 1 bitSize) - 1).

(** The loop of [strconv.ParseUint(s, 10, 0)]. *)
Fixpoint ParseUint_loop_int (IntSize : Z) (s : string) (n : Z)
    : Z * option NumError :=
  match s with
  | EmptyString => (n, None)
  | String c rest =>
      match digit_val c with
      | None => (0, Some ErrSyntax)
      | Some d =>
          if 10 <=? d then (0, Some ErrSyntax)
          else if maxUint64 / 10 + 1 <=? n then (maxVal IntSize, Some ErrRange)
          else
            let n10 := uint64 (n * 10) in
            let n1 := uint64 (n10 + d) in
            if (n1 <? n10) || (maxVal IntSize <? n1)
            then (maxVal IntSize, Some ErrRange)
            else ParseUint_loop_int IntSize rest n1
      end
  end.

Definition ParseUint_int (IntSize : Z) (s : string) : Z * option NumError :=
  match s with
  | EmptyString => (0, Some ErrSyntax)
  | _ => ParseUint_loop_int IntSize s 0
  end.

(** [strconv.ParseInt(s, 10, 0)]: the range check is against
    [cutoff = 1 << (IntSize-1)]. *)
Definition ParseInt_int (IntSize : Z) (s : string) : Z * option strconv_NumError :=
  let numError err :=
    {| NumError_Func := "ParseInt"; NumError_Num := s; NumError_Err := err |} in
  match s with
  | EmptyString => (0, Some (numError ErrSyntax))
  | String c rest =>
      let neg := Ascii.eqb c "-" in
      let body := if Ascii.eqb c "+" || neg then rest else s in
      match ParseUint_int IntSize body with
      | (_, Some ErrSyntax) => (0, Some (numError ErrSyntax))
      | (un, _) =>
          let cutoff := Z.shiftl 1 (IntSize - 1) in
          if negb neg && (cutoff <=? un) then (cutoff - 1, Some (numError ErrRange))
          else if neg && (cutoff <? un) then (- cutoff, Some (numError ErrRange))
          else (if neg then - un else un, None)
      end
  end.

(** [strconv.Atoi] for either size of [int], with the error it returns.
    The fast path reads at most 9 (18) digits, which fit the [int]; the
    slow path renames [Func] in the error of [ParseInt], and its [int(i64)]
    changes nothing, [ParseInt(s, 10, 0)] returning a value of the size of
    [int]. [Atoi] above is the value and the failure for [IntSize = 64]. *)
Definition Atoi_int (IntSize : Z) (s : string) : Z * option strconv_NumError :=
  let syntaxError :=
    {| NumError_Func := "Atoi"; NumError_Num := s; NumError_Err := ErrSyntax |} in
  let sLen := String.length s in
  if (IntSize =? 32) && ((0 <? sLen)%nat && (sLen <? 10)%nat)
     || (IntSize =? 64) && ((0 <? sLen)%nat && (sLen <? 19)%nat) then
    match s with
    | EmptyString => (0, Some syntaxError)
    | String c rest =>
        let signed := Ascii.eqb c "-" || Ascii.eqb c "+" in
        let body := if signed then rest else s in
        if signed && (String.length body <? 1)%nat then (0, Some syntaxError)
        else match Atoi_fast body 0 with
             | None => (0, Some syntaxError)
             | Some n => (if Ascii.eqb c "-" then - n else n, None)
             end
    end
  else
    match ParseInt_int IntSize s with
    | (i64, Some nerr) =>
        (i64, Some {| NumError_Func := "Atoi"; NumError_Num := NumError_Num nerr;
                      NumError_Err := NumError_Err nerr |})
    | (i64, None) => (i64, None)
    end.

(** [sort.Strings]: the slice in increasing order. Go compares strings
    byte by byte, as [String.le] does. *)
Definition sort_Strings (l : list string) : list string :=
  merge_sort String.le l.

(** The [%d] verb of [fmt]. *)
Definition fmt_d (z : Z) : string := NilZero.string_of_int (Z.to_int z).

(** The slice expression [s[:hi]] on a string: a run-time panic when [hi]
    is negative or beyond [len(s)]. *)
Definition slice_to (s : string) (hi : Z) : option string :=
  if (0 <=? hi) && (hi <=? Z.of_nat (String.length s))
  then Some (String.substring 0 (Z.to_nat hi) s)
  else None.

(** [range] over a map visits the entries in an order Go leaves
    unspecified. A [RangeOrder] is the order one run of the program
    happens to get. *)
Record RangeOrder : Type := {
  range : forall (K : Type) (EqK : EqDecision K) (CK : Countable K) (V : Type),
    gmap K V -> list (K * V)
}.
Arguments range _ {K EqK CK V} _.

(** What the language guarantees of it: every entry once. *)
Definition range_ok (ro : RangeOrder) : Prop :=
  forall (K : Type) (EqK : EqDecision K) (CK : Countable K) (V : Type)
         (m : gmap K V),
    range ro m ≡ₚ map_to_list m.

(** Two orders a run can get: some enumeration of the entries, and the
    same enumeration backwards. *)
Definition range_fwd : RangeOrder :=
  {| range := fun K _ _ V m => map_to_list m |}.
Definition range_bwd : RangeOrder :=
  {| range := fun K _ _ V m => reverse (map_to_list m) |}.

(** [m[k]] on a Go map: the zero value of the element type when absent. *)
Definition map_index {K : Type} `{Countable K} {V : Type} (zero : V)
    (m : gmap K V) (k : K) : V :=
  default zero (m !! k).

(** What [database/sql] hands back: [QueryContext] fails ([Err]), or gives
    rows each of which [Scan] reads or rejects, followed by [rows.Err()]. *)
Inductive Scan (T : Type) : Type :=
| Scanned (v : T)
| ScanErr (e : error).
Arguments Scanned {T} v.
Arguments ScanErr {T} e.

Record Rows (T : Type) : Type := { rows_Next : list (Scan T); rows_Err : option error }.
Arguments rows_Next {T} _.
Arguments rows_Err {T} _.

(** The rows a result set delivers when every [Scan] succeeds. *)
Definition scanned {T : Type} (rows : list (Scan T)) : list T :=
  omap (fun s => match s with Scanned v => Some v | ScanErr _ => None end) rows.

(** Standard output and the ways a run stops early: [logrus.Fatalf]
    (message logged to stderr, exit status 1) and a run-time panic. *)
Inductive Stop : Type :=
| Fatal (msg : string)
| Panic.

(** A computation that prints: the text written to standard output, and
    either its value or the reason the process stopped. *)
Definition Out (A : Type) : Type := string * (A + Stop).

Definition ret {A : Type} (a : A) : Out A := ("", inl a).
Definition halt {A : Type} (s : Stop) : Out A := ("", inr s).
Definition bind {A B : Type} (m : Out A) (f : A -> Out B) : Out B :=
  match m with
  | (o, inl a) => let (o', r) := f a in (o ++ o', r)
  | (o, inr s) => (o, inr s)
  end.

Definition nl : string := String (ascii_of_nat 10) EmptyString.
Definition fmt_Print (s : string) : Out unit := (s, inl tt).
Definition fmt_Println (s : string) : Out unit := (s ++ nl, inl tt).
Definition Fatalf {A : Type} (msg : string) : Out A := halt (Fatal msg).

(** Printing for each element of a slice, in order. *)
Fixpoint for_each {A : Type} (f : A -> Out unit) (l : list A) : Out unit :=
  match l with
  | [] => ret tt
  | x :: rest => bind (f x) (fun _ => for_each f rest)
  end.

(** The text made of the given lines, each ended by a newline. *)
Definition lines (l : list string) : string :=
  String.concat "" ((fun s => s ++ nl) <$> l).

Definition stdout {A : Type} (m : Out A) : string := fst m.
Definition outcome {A : Type} (m : Out A) : A + Stop := snd m.

End Go.

Notation "m ;;; k" := (Go.bind m (fun _ => k))
  (at level 90, right associativity).

(** ** [src/cmd/main.go]: batch loading, racks keyed by name *)

Module Main.
Import Go.

(** [type Product struct] and [type PartOrder struct]. The program only
    builds a [*PartOrder] and its [*Product] once per row and never writes
    through them afterwards, so they are values here. *)
Record Product : Type := { ID : Z; Name : string }.
Record PartOrder : Type := { OrderID : Z; Prod : Product; Quantity : Z }.

(** The package-level maps [mainRacks] and [secondaryRacks]. *)
Record Globals : Type := {
  mainRacks : gmap Z string;
  secondaryRacks : gmap Z (list string)
}.

(** A row of [getOrdersQuery]: [o.id, o.product_id, o.quantity, p.name]. *)
Record OrdersRow : Type := {
  o_id : Z; o_product_id : Z; o_quantity : Z; p_name : string
}.

(** A row of [getRacksQuery]: [product_id, name, is_main]. *)
Record RacksRow : Type := { product_id : Z; name : string; is_main : bool }.

(** The database as the program sees it: the answer to each of its two
    queries for a given [$1]. *)
Record DB : Type := {
  QueryOrders : list Z -> result (Rows OrdersRow);
  QueryRacks : list Z -> result (Rows RacksRow)
}.

Definition parseOrderIDs (orderIDsStr : string) : list Z :=
  foldl (fun orderIDs orderIDStr => (orderIDs ++ [fst (ParseInt orderIDStr)])%list)
        [] (Split orderIDsStr ",").

(** The [for rows.Next()] loop of [getOrders]. *)
Fixpoint getOrders_rows (rows : list (Scan OrdersRow))
    (orders : gmap Z (list PartOrder)) (g : Globals)
    : result (gmap Z (list PartOrder)) * Globals :=
  match rows with
  | [] => (Ok orders, g)
  | ScanErr e :: _ => (Err ("failed to scan order row: " ++ e), g)
  | Scanned r :: rest =>
      let partOrder :=
        {| OrderID := o_id r;
           Prod := {| ID := o_product_id r; Name := p_name r |};
           Quantity := o_quantity r |} in
      getOrders_rows rest
        (<[OrderID partOrder := (map_index [] orders (OrderID partOrder) ++ [partOrder])%list]> orders)
        {| mainRacks := <[ID (Prod partOrder) := ""]> (mainRacks g);
           secondaryRacks := secondaryRacks g |}
  end.

Definition getOrders (db : DB) (orderIDs : list Z) (g : Globals)
    : result (gmap Z (list PartOrder)) * Globals :=
  match QueryOrders db orderIDs with
  | Err e => (Err ("failed to query orders: " ++ e), g)
  | Ok rows =>
      match getOrders_rows (rows_Next rows) ∅ g with
      | (Err e, g') => (Err e, g')
      | (Ok orders, g') =>
          match rows_Err rows with
          | Some e => (Err ("failed to iterate order rows: " ++ e), g')
          | None => (Ok orders, g')
          end
      end
  end.

(** The [for rows.Next()] loop of [initRacks]. *)
Fixpoint initRacks_rows (rows : list (Scan RacksRow)) (g : Globals)
    : option error * Globals :=
  match rows with
  | [] => (None, g)
  | ScanErr e :: _ => (Some e, g)
  | Scanned r :: rest =>
      if is_main r then
        initRacks_rows rest
          {| mainRacks := <[product_id r := name r]> (mainRacks g);
             secondaryRacks := secondaryRacks g |}
      else
        initRacks_rows rest
          {| mainRacks := mainRacks g;
             secondaryRacks :=
               <[product_id r := (map_index [] (secondaryRacks g) (product_id r) ++ [name r])%list]>
                 (secondaryRacks g) |}
  end.

Definition initRacks (ro : RangeOrder) (db : DB) (g : Globals)
    : option error * Globals :=
  let productIDs := (range ro (mainRacks g)).*1 in
  match QueryRacks db productIDs with
  | Err e => (Some e, g)
  | Ok rows =>
      match initRacks_rows (rows_Next rows) g with
      | (Some e, g') => (Some e, g')
      | (None, g') => (rows_Err rows, g')
      end
  end.

(** The secondary racks the repository returned for a product: the names
    on the rows of [getRacksQuery] that carry its ID and are not main, in
    the order of the rows. *)
Definition secondaryNames (rows : list RacksRow) (productID : Z) : list string :=
  name <$> filter (fun r => product_id r = productID /\ is_main r = false) rows.

(** The rows of [getRacksQuery] that name a product's main rack. *)
Definition mainRows (rows : list RacksRow) (productID : Z) : list RacksRow :=
  filter (fun r => product_id r = productID /\ is_main r = true) rows.

(** [rackName := mainRacks[partOrder.Product.ID]]. *)
Definition rackName (g : Globals) (partOrder : PartOrder) : string :=
  map_index "" (mainRacks g) (ID (Prod partOrder)).

(** The inner loop of [groupOrdersByRack]: one order's line items. *)
Definition groupParts (g : Globals) (racks : gmap string (list PartOrder))
    (listPartsOrder : list PartOrder) : gmap string (list PartOrder) :=
  foldl (fun racks partOrder =>
           <[rackName g partOrder :=
               (map_index [] racks (rackName g partOrder) ++ [partOrder])%list]> racks)
        racks listPartsOrder.

Definition groupOrdersByRack (ro : RangeOrder) (g : Globals)
    (orders : gmap Z (list PartOrder))
    : gmap string (list PartOrder) * option error :=
  (foldl (fun racks entry => groupParts g racks entry.2) ∅ (range ro orders),
   None).

Definition getSortedRacksNames (ro : RangeOrder)
    (racks : gmap string (list PartOrder)) : list string :=
  sort_Strings (range ro racks).*1.

(** [listAdditionalRacksStr] after the loop over the secondary racks. *)
Definition joinRacks (names : list string) : string :=
  foldl (fun listAdditionalRacksStr secondaryRack =>
           listAdditionalRacksStr ++ secondaryRack ++ ",") "" names.

(** The [if len(secondaryRacks[product.ID]) > 0] block. *)
Definition printSecondary (names : list string) : Out unit :=
  if (0 <? length names)%nat then
    fmt_Print "доп стеллаж: " ;;;
    let listAdditionalRacksStr := joinRacks names in
    match slice_to listAdditionalRacksStr
            (Z.of_nat (String.length listAdditionalRacksStr) - 1) with
    | Some s => fmt_Println s
    | None => halt Panic
    end
  else ret tt.

(** The body of the loop over one rack's line items. *)
Definition printPartOrder (g : Globals) (partOrder : PartOrder) : Out unit :=
  let orderID := OrderID partOrder in
  let product := Prod partOrder in
  fmt_Print (Name product ++ " (id=" ++ fmt_d (ID product) ++ ")" ++ nl) ;;;
  fmt_Print ("заказ " ++ fmt_d orderID ++ ", " ++ fmt_d (Quantity partOrder) ++ " шт" ++ nl) ;;;
  printSecondary (map_index [] (secondaryRacks g) (ID product)) ;;;
  fmt_Println "".

(** The body of the loop over the rack names. *)
Definition printRack (g : Globals) (racks : gmap string (list PartOrder))
    (rackName : string) : Out unit :=
  fmt_Print ("===Стеллаж " ++ rackName ++ nl) ;;;
  for_each (printPartOrder g) (map_index [] racks rackName).

Definition printRacksAndOrders (ro : RangeOrder) (g : Globals)
    (racks : gmap string (list PartOrder)) : Out unit :=
  fmt_Println "=+=+=+=" ;;;
  let racksNames := getSortedRacksNames ro racks in
  for_each (printRack g racks) racksNames.

(** [solve], with [arg] standing for [os.Args[1]]. What [logrus.Fatalf]
    logs goes to standard error; [Fatal] keeps the error it was given. *)
Definition solve (ro : RangeOrder) (db : DB) (arg : string) : Out unit :=
  let orderIDs := parseOrderIDs arg in
  let g := {| mainRacks := ∅; secondaryRacks := ∅ |} in
  match getOrders db orderIDs g with
  | (Err e, _) => Fatalf e
  | (Ok orders, g) =>
      match initRacks ro db g with
      | (Some e, _) => Fatalf e
      | (None, g) =>
          match groupOrdersByRack ro g orders with
          | (_, Some e) => Fatalf e
          | (racks, None) => printRacksAndOrders ro g racks
          end
      end
  end.

(** [solve] as [main] calls it. The argument is read inside [solve], by
    the index expression [os.Args[1]], the first thing [solve] evaluates:
    when the program was started without an argument, [os.Args] has one
    element and the expression panics (index out of range). *)
Definition solve_os_Args (ro : RangeOrder) (db : DB) (os_Args : list string)
    : Out unit :=
  match os_Args !! 1%nat with
  | Some arg => solve ro db arg
  | None => halt Panic
  end.

End Main.

(** ** [src/unnamed/part_000]: batch loading, racks keyed by ID *)

Module ByRackID.
Import Go.

Record PartOrder : Type := { OrderID : Z; ProductID : Z; Quantity : Z }.

(** The package-level maps. *)
Record Globals : Type := {
  productsNames : gmap Z string;
  racksNames : gmap Z string;
  mainRacks : gmap Z Z;
  secondaryRacks : gmap Z (list Z)
}.

Definition set_productsNames (f : gmap Z string -> gmap Z string) (g : Globals) :=
  {| productsNames := f (productsNames g); racksNames := racksNames g;
     mainRacks := mainRacks g; secondaryRacks := secondaryRacks g |}.
Definition set_racksNames (f : gmap Z string -> gmap Z string) (g : Globals) :=
  {| productsNames := productsNames g; racksNames := f (racksNames g);
     mainRacks := mainRacks g; secondaryRacks := secondaryRacks g |}.
Definition set_mainRacks (f : gmap Z Z -> gmap Z Z) (g : Globals) :=
  {| productsNames := productsNames g; racksNames := racksNames g;
     mainRacks := f (mainRacks g); secondaryRacks := secondaryRacks g |}.
Definition set_secondaryRacks (f : gmap Z (list Z) -> gmap Z (list Z)) (g : Globals) :=
  {| productsNames := productsNames g; racksNames := racksNames g;
     mainRacks := mainRacks g; secondaryRacks := f (secondaryRacks g) |}.

(** Rows of the four queries, over the tables of
    [db/migration/000001_init_schema.up.sql]. *)
Record OrderProductRow : Type := { order_id : Z; op_product_id : Z; quantity : Z }.
Record ProductRow : Type := { product_id : Z; product_name : string }.
Record ProductRackRow : Type := { pr_product_id : Z; pr_rack_id : Z; is_main : bool }.
Record RackRow : Type := { rack_id : Z; rack_name : string }.

Record DB : Type := {
  QueryOrders : list Z -> result (Rows OrderProductRow);
  QueryProducts : list Z -> result (Rows ProductRow);
  QueryProductRacks : list Z -> result (Rows ProductRackRow);
  QueryRacks : list Z -> result (Rows RackRow)
}.

Definition parseOrderIDs (orderIDsStr : string) : list Z :=
  foldl (fun orderIDs orderIDStr => (orderIDs ++ [fst (Atoi orderIDStr)])%list)
        [] (Split orderIDsStr ",").

Fixpoint getOrders_rows (rows : list (Scan OrderProductRow))
    (orders : gmap Z (list PartOrder)) (g : Globals)
    : result (gmap Z (list PartOrder)) * Globals :=
  match rows with
  | [] => (Ok orders, g)
  | ScanErr e :: _ => (Err ("failed to scan order row: " ++ e), g)
  | Scanned r :: rest =>
      let partOrder :=
        {| OrderID := order_id r; ProductID := op_product_id r;
           Quantity := quantity r |} in
      getOrders_rows rest
        (<[OrderID partOrder := (map_index [] orders (OrderID partOrder) ++ [partOrder])%list]> orders)
        (set_productsNames (insert (ProductID partOrder) "") g)
  end.

Definition getOrders (db : DB) (orderIDs : list Z) (g : Globals)
    : result (gmap Z (list PartOrder)) * Globals :=
  match QueryOrders db orderIDs with
  | Err e => (Err ("failed to query orders: " ++ e), g)
  | Ok rows =>
      match getOrders_rows (rows_Next rows) ∅ g with
      | (Err e, g') => (Err e, g')
      | (Ok orders, g') =>
          match rows_Err rows with
          | Some e => (Err ("failed to iterate order rows: " ++ e), g')
          | None => (Ok orders, g')
          end
      end
  end.

Fixpoint initProductsNames_rows (rows : list (Scan ProductRow)) (g : Globals)
    : option error * Globals :=
  match rows with
  | [] => (None, g)
  | ScanErr e :: _ => (Some e, g)
  | Scanned r :: rest =>
      initProductsNames_rows rest
        (set_productsNames (insert (product_id r) (product_name r)) g)
  end.

Definition initProductsNames (db : DB) (productIDs : list Z) (g : Globals)
    : option error * Globals :=
  match QueryProducts db productIDs with
  | Err e => (Some e, g)
  | Ok rows =>
      match initProductsNames_rows (rows_Next rows) g with
      | (Some e, g') => (Some e, g')
      | (None, g') => (rows_Err rows, g')
      end
  end.

Fixpoint initRacksNames_rows (rows : list (Scan RackRow)) (g : Globals)
    : option error * Globals :=
  match rows with
  | [] => (None, g)
  | ScanErr e :: _ => (Some e, g)
  | Scanned r :: rest =>
      initRacksNames_rows rest
        (set_racksNames (insert (rack_id r) (rack_name r)) g)
  end.

Definition initRacksNames (db : DB) (rackIDs : list Z) (g : Globals)
    : option error * Globals :=
  match QueryRacks db rackIDs with
  | Err e => (Some e, g)
  | Ok rows =>
      match initRacksNames_rows (rows_Next rows) (set_racksNames (fun _ => ∅) g) with
      | (Some e, g') => (Some e, g')
      | (None, g') => (rows_Err rows, g')
      end
  end.

(** The [for rows.Next()] loop of [initRacks]; [rackIDs] collects the rack
    of every row. *)
Fixpoint initRacks_rows (rows : list (Scan ProductRackRow)) (rackIDs : list Z)
    (g : Globals) : option error * list Z * Globals :=
  match rows with
  | [] => (None, rackIDs, g)
  | ScanErr e :: _ => (Some e, rackIDs, g)
  | Scanned r :: rest =>
      let g' :=
        if is_main r then set_mainRacks (insert (pr_product_id r) (pr_rack_id r)) g
        else set_secondaryRacks
               (fun m => <[pr_product_id r :=
                             (map_index [] m (pr_product_id r) ++ [pr_rack_id r])%list]> m) g in
      initRacks_rows rest (rackIDs ++ [pr_rack_id r])%list g'
  end.

(** [initRacks]; the error of [initRacksNames] is dropped by the source. *)
Definition initRacks (db : DB) (productIDs : list Z) (g : Globals)
    : option error * Globals :=
  match QueryProductRacks db productIDs with
  | Err e => (Some e, g)
  | Ok rows =>
      match initRacks_rows (rows_Next rows) [] g with
      | (Some e, _, g') => (Some e, g')
      | (None, rackIDs, g') =>
          match rows_Err rows with
          | Some e => (Some e, g')
          | None => (None, snd (initRacksNames db rackIDs g'))
          end
      end
  end.

(** [rackID := mainRacks[partOrder.ProductID]] and
    [rackName := racksNames[rackID]]. *)
Definition rackName (g : Globals) (partOrder : PartOrder) : string :=
  let rackID := map_index 0 (mainRacks g) (ProductID partOrder) in
  map_index "" (racksNames g) rackID.

Definition groupParts (g : Globals) (racks : gmap string (list PartOrder))
    (partOrderList : list PartOrder) : gmap string (list PartOrder) :=
  foldl (fun racks partOrder =>
           <[rackName g partOrder :=
               (map_index [] racks (rackName g partOrder) ++ [partOrder])%list]> racks)
        racks partOrderList.

Definition groupOrdersByRack (ro : RangeOrder) (g : Globals)
    (orders : gmap Z (list PartOrder))
    : gmap string (list PartOrder) * option error :=
  (foldl (fun racks entry => groupParts g racks entry.2) ∅ (range ro orders),
   None).

Definition getSortedRacksNames (ro : RangeOrder)
    (racks : gmap string (list PartOrder)) : list string :=
  sort_Strings (range ro racks).*1.

(** [listAdditionalRacksStr] after the loop over the secondary rack IDs. *)
Definition joinRacks (g : Globals) (ids : list Z) : string :=
  foldl (fun listAdditionalRacksStr secondaryRackID =>
           listAdditionalRacksStr ++ map_index "" (racksNames g) secondaryRackID ++ ",")
        "" ids.

Definition printSecondary (g : Globals) (ids : list Z) : Out unit :=
  if (0 <? length ids)%nat then
    fmt_Print "доп стеллаж: " ;;;
    let listAdditionalRacksStr := joinRacks g ids in
    match slice_to listAdditionalRacksStr
            (Z.of_nat (String.length listAdditionalRacksStr) - 1) with
    | Some s => fmt_Println s
    | None => halt Panic
    end
  else ret tt.

Definition printPartOrder (g : Globals) (partOrder : PartOrder) : Out unit :=
  let productID := ProductID partOrder in
  let productName := map_index "" (productsNames g) productID in
  fmt_Print (productName ++ " (id=" ++ fmt_d productID ++ ")" ++ nl) ;;;
  fmt_Print ("заказ " ++ fmt_d (OrderID partOrder) ++ ", "
           ++ fmt_d (Quantity partOrder) ++ " шт" ++ nl) ;;;
  printSecondary g (map_index [] (secondaryRacks g) productID) ;;;
  fmt_Println "".

Definition printRack (g : Globals) (racks : gmap string (list PartOrder))
    (rackName : string) : Out unit :=
  fmt_Print ("===Стеллаж " ++ rackName ++ nl) ;;;
  for_each (printPartOrder g) (map_index [] racks rackName).

Definition printRacksAndOrders (ro : RangeOrder) (g : Globals)
    (racks : gmap string (list PartOrder)) : Out unit :=
  fmt_Println "=+=+=+=" ;;;
  let sortedRacksNames := getSortedRacksNames ro racks in
  for_each (printRack g racks) sortedRacksNames.

Definition solve (ro : RangeOrder) (db : DB) (arg : string) : Out unit :=
  let g := {| productsNames := ∅; racksNames := ∅; mainRacks := ∅;
              secondaryRacks := ∅ |} in
  let orderIDs := parseOrderIDs arg in
  match getOrders db orderIDs g with
  | (Err e, _) => Fatalf ("failed to get orders: " ++ e)
  | (Ok orders, g) =>
      let productIDs := (range ro (productsNames g)).*1 in
      match initProductsNames db productIDs g with
      | (Some e, _) => Fatalf ("failed to init products names: " ++ e)
      | (None, g) =>
          match initRacks db productIDs g with
          | (Some e, _) => Fatalf ("failed to init racks: " ++ e)
          | (None, g) =>
              match groupOrdersByRack ro g orders with
              | (_, Some e) => Fatalf ("failed to group orders by rack: " ++ e)
              | (racks, None) => printRacksAndOrders ro g racks
              end
          end
      end
  end.

(** [solve] as [main] calls it. [os.Args[1]] is read after the four maps
    are made and before anything else; it panics (index out of range) when
    the program was started without an argument. *)
Definition solve_os_Args (ro : RangeOrder) (db : DB) (os_Args : list string)
    : Out unit :=
  match os_Args !! 1%nat with
  | Some arg => solve ro db arg
  | None => halt Panic
  end.

(** [parseOrderIDs] on a platform whose [int] has [IntSize] bits;
    [parseOrderIDs] above is the case of 64 bits. *)
Definition parseOrderIDs_int (IntSize : Z) (orderIDsStr : string) : list Z :=
  foldl (fun orderIDs orderIDStr =>
           (orderIDs ++ [fst (Atoi_int IntSize orderIDStr)])%list)
        [] (Split orderIDsStr ",").

End ByRackID.

(** ** [src/unnamed/part_001]: one store lookup per line item *)

Module PerItem.
Import Go.

Record Product : Type := {
  ID : Z; Name : string; Quantity : Z; SecondaryRacks : list string
}.

(** A [*Product] is an address in the heap of products allocated so far:
    [groupOrdersByRack] writes [product.SecondaryRacks] through the pointer
    after it has stored the same pointer in a [PartOrder]. *)
Abbreviation ptr := nat (only parsing).
Abbreviation Heap := (list Product) (only parsing).

Record PartOrder : Type := { PO_ID : Z; PO_Product : ptr }.

(** [&Product{...}]: a fresh address. *)
Definition alloc (h : Heap) (p : Product) : ptr * Heap :=
  (length h, (h ++ [p])%list).

(** [*p]; the program never holds an address it did not allocate, the
    zero [Product] stands for that case. *)
Definition deref (h : Heap) (p : ptr) : Product :=
  default {| ID := 0; Name := ""; Quantity := 0; SecondaryRacks := [] |} (h !! p).

(** The models of package [sqlc], as far as the program reads them. *)
Record sqlcOrder : Type := { Order_ProductID : Z; Order_Quantity : Z }.
Record sqlcProduct : Type := { Product_ID : Z; Product_Name : string }.
Record sqlcRack : Type := {
  Rack_Name : string; Rack_ProductID : Z; Rack_IsMain : bool
}.

(** The interface [sqlc_db.Store], with fixed responses. *)
Record Store : Type := {
  GetOrder : Z -> result (list sqlcOrder);
  GetProduct : Z -> result sqlcProduct;
  GetMainRack : Z -> result sqlcRack;
  GetSecondaryRacks : Z -> result (list sqlcRack)
}.

(** Modelled from the spec: the method [GetMainRack] that sqlc generates
    from [db/query/racks.sql] ([:one], [WHERE product_id = $1 AND is_main =
    true LIMIT 1]) is not in the sources; by section 4.2 it fails when the
    product has no rack marked main. *)
Definition racks_GetMainRack (racks : list sqlcRack) (productID : Z)
    : result sqlcRack :=
  match List.find (fun r => (Rack_ProductID r =? productID) && Rack_IsMain r) racks with
  | Some r => Ok r
  | None => Err "sql: no rows in result set"
  end.

(** Modelled from the spec: the method [GetSecondaryRacks] that sqlc
    generates from [db/query/racks.sql] ([:many], [is_main = false]) is not
    in the sources; by section 4.2 it may return an empty sequence. *)
Definition racks_GetSecondaryRacks (racks : list sqlcRack) (productID : Z)
    : result (list sqlcRack) :=
  Ok (List.filter (fun r => (Rack_ProductID r =? productID) && negb (Rack_IsMain r)) racks).

(** A store whose rack methods answer from the table [racks]. *)
Definition racksStore (getOrder : Z -> result (list sqlcOrder))
    (getProduct : Z -> result sqlcProduct) (racks : list sqlcRack) : Store :=
  {| GetOrder := getOrder; GetProduct := getProduct;
     GetMainRack := racks_GetMainRack racks;
     GetSecondaryRacks := racks_GetSecondaryRacks racks |}.

(** The heap and the package-level cache [productsName]. *)
Record State : Type := { heap : Heap; productsName : gmap Z string }.

Definition parseOrderIDs (orderIDsStr : string) : list Z :=
  foldl (fun orderIDs orderIDStr => (orderIDs ++ [fst (ParseInt orderIDStr)])%list)
        [] (Split orderIDsStr ",").

Definition getProductName (store : Store) (id : Z) (st : State)
    : result string * State :=
  match productsName st !! id with
  | Some name => (Ok name, st)
  | None =>
      match GetProduct store id with
      | Err e => (Err ("failed to get product " ++ fmt_d id ++ ": " ++ e), st)
      | Ok productSQLC =>
          let cache := <[id := Product_Name productSQLC]> (productsName st) in
          (Ok (map_index "" cache id), {| heap := heap st; productsName := cache |})
      end
  end.

(** The loop of [getOrders] over the rows of one order. *)
Fixpoint getOrders_products (store : Store) (ordersSQLC : list sqlcOrder)
    (products : list ptr) (st : State) : result (list ptr) * State :=
  match ordersSQLC with
  | [] => (Ok products, st)
  | sqlcOrder :: rest =>
      match getProductName store (Order_ProductID sqlcOrder) st with
      | (Err e, st') => (Err e, st')
      | (Ok productName, st') =>
          let (p, h) := alloc (heap st')
                          {| ID := Order_ProductID sqlcOrder; Name := productName;
                             Quantity := Order_Quantity sqlcOrder;
                             SecondaryRacks := [] |} in
          getOrders_products store rest (products ++ [p])%list
            {| heap := h; productsName := productsName st' |}
      end
  end.

(** The loop of [getOrders] over the order IDs. *)
Fixpoint getOrders_ids (store : Store) (orderIDs : list Z)
    (orders : gmap Z (list ptr)) (st : State)
    : result (gmap Z (list ptr)) * State :=
  match orderIDs with
  | [] => (Ok orders, st)
  | orderID :: rest =>
      match GetOrder store orderID with
      | Err e =>
          (Err ("failed to get order with ID " ++ fmt_d orderID ++ ": " ++ e), st)
      | Ok ordersSQLC =>
          match getOrders_products store ordersSQLC [] st with
          | (Err e, st') => (Err e, st')
          | (Ok products, st') =>
              getOrders_ids store rest (<[orderID := products]> orders) st'
          end
      end
  end.

Definition getOrders (store : Store) (orderIDs : list Z) (st : State)
    : result (gmap Z (list ptr)) * State :=
  getOrders_ids store orderIDs ∅ st.

(** What [getOrders] leaves in the heap for one order: one allocated
    product per row of the order, carrying the row's product ID. *)
Definition holds_rows (h : Heap) (ps : list ptr) (rows : list sqlcOrder) : Prop :=
  Forall2 (fun p row => exists prod, h !! p = Some prod
                                     /\ ID prod = Order_ProductID row) ps rows.

(** The product [getOrders] allocates for a row of an order: the row's
    product ID and quantity, the name the store has for the product, and no
    secondary rack yet. *)
Definition row_product (store : Store) (prod : Product) (row : sqlcOrder) : Prop :=
  ID prod = Order_ProductID row
  /\ Quantity prod = Order_Quantity row
  /\ SecondaryRacks prod = []
  /\ exists sp, GetProduct store (Order_ProductID row) = Ok sp
                /\ Name prod = Product_Name sp.

(** Every name in the cache [productsName] is the store's. *)
Definition cache_ok (store : Store) (cache : gmap Z string) : Prop :=
  forall id name, cache !! id = Some name ->
    exists sp, GetProduct store id = Ok sp /\ Product_Name sp = name.

(** The map of orders [getOrders] builds over a heap: each order holds one
    allocated product per row of the order, and no address occurs twice,
    within an order or in two orders. *)
Definition orders_loaded (store : Store) (orders : gmap Z (list ptr)) (h : Heap)
    : Prop :=
  (forall oid ps, orders !! oid = Some ps ->
     NoDup ps
     /\ exists rows, GetOrder store oid = Ok rows
          /\ Forall2 (fun p row => exists prod, h !! p = Some prod
                                                /\ row_product store prod row) ps rows)
  /\ (forall oid1 oid2 ps1 ps2 p,
        oid1 <> oid2 -> orders !! oid1 = Some ps1 -> orders !! oid2 = Some ps2 ->
        p ∈ ps1 -> p ∉ ps2).

(** [product.SecondaryRacks = append(product.SecondaryRacks, name)]. *)
Definition appendSecondary (h : Heap) (product : ptr) (name : string) : Heap :=
  let p := deref h product in
  <[product := {| ID := ID p; Name := Name p; Quantity := Quantity p;
                  SecondaryRacks := (SecondaryRacks p ++ [name])%list |}]> h.

(** The inner loop of [groupOrdersByRack]: the products of one order. *)
Fixpoint groupProducts (store : Store) (orderID : Z) (products : list ptr)
    (racks : gmap string (list PartOrder)) (h : Heap)
    : result (gmap string (list PartOrder)) * Heap :=
  match products with
  | [] => (Ok racks, h)
  | product :: rest =>
      match GetMainRack store (ID (deref h product)) with
      | Err e =>
          (Err ("failed to get main rack for product "
                  ++ fmt_d (ID (deref h product)) ++ ": " ++ e), h)
      | Ok rack =>
          let racks' :=
            <[Rack_Name rack :=
                (map_index [] racks (Rack_Name rack)
                   ++ [{| PO_ID := orderID; PO_Product := product |}])%list]> racks in
          match GetSecondaryRacks store (ID (deref h product)) with
          | Err e =>
              (Err ("failed to get secondary racks for product "
                      ++ fmt_d (ID (deref h product)) ++ ": " ++ e), h)
          | Ok secondaryRacks =>
              let h' := foldl (fun h secondaryRack =>
                                 appendSecondary h product (Rack_Name secondaryRack))
                              h secondaryRacks in
              groupProducts store orderID rest racks' h'
          end
      end
  end.

(** The line items the loops of [groupOrdersByRack] build, and the rack
    name each is filed under: [rack.Name] of its product's main rack. *)
Definition partOrders (entries : list (Z * list ptr)) : list PartOrder :=
  mjoin ((fun entry => (fun product => {| PO_ID := entry.1; PO_Product := product |})
                         <$> entry.2) <$> entries).

Definition rackName (store : Store) (h : Heap) (partOrder : PartOrder) : string :=
  match GetMainRack store (ID (deref h (PO_Product partOrder))) with
  | Ok rack => Rack_Name rack
  | Err _ => ""
  end.

(** The two lookups [groupOrdersByRack] makes for a product both answer. *)
Definition resolvable (store : Store) (h : Heap) (p : ptr) : Prop :=
  (exists rack, GetMainRack store (ID (deref h p)) = Ok rack)
  /\ (exists rs, GetSecondaryRacks store (ID (deref h p)) = Ok rs).

(** The outer loop, over the entries of [orders] in the order [range]
    visits them. *)
Fixpoint groupOrders (store : Store) (entries : list (Z * list ptr))
    (racks : gmap string (list PartOrder)) (h : Heap)
    : result (gmap string (list PartOrder)) * Heap :=
  match entries with
  | [] => (Ok racks, h)
  | (orderID, products) :: rest =>
      match groupProducts store orderID products racks h with
      | (Err e, h') => (Err e, h')
      | (Ok racks', h') => groupOrders store rest racks' h'
      end
  end.

Definition groupOrdersByRack (ro : RangeOrder) (store : Store)
    (orders : gmap Z (list ptr)) (h : Heap)
    : result (gmap string (list PartOrder)) * Heap :=
  groupOrders store (range ro orders) ∅ h.

Definition joinRacks (names : list string) : string :=
  foldl (fun listAdditionalRacksStr secondaryRack =>
           listAdditionalRacksStr ++ secondaryRack ++ ",") "" names.

Definition printSecondary (names : list string) : Out unit :=
  if (0 <? length names)%nat then
    fmt_Print "доп стеллаж: " ;;;
    let listAdditionalRacksStr := joinRacks names in
    match slice_to listAdditionalRacksStr
            (Z.of_nat (String.length listAdditionalRacksStr) - 1) with
    | Some s => fmt_Println s
    | None => halt Panic
    end
  else ret tt.

Definition printPartOrder (h : Heap) (partOrder : PartOrder) : Out unit :=
  let orderID := PO_ID partOrder in
  let product := deref h (PO_Product partOrder) in
  fmt_Print (Name product ++ " (id=" ++ fmt_d (ID product) ++ ")" ++ nl) ;;;
  fmt_Print ("заказ " ++ fmt_d orderID ++ ", " ++ fmt_d (Quantity product) ++ " шт" ++ nl) ;;;
  printSecondary (SecondaryRacks product) ;;;
  fmt_Println "".

(** The body of [for rackName, listPartOrder := range racks]. *)
Definition printRack (h : Heap) (entry : string * list PartOrder) : Out unit :=
  fmt_Print ("===Стеллаж " ++ entry.1 ++ nl) ;;;
  for_each (printPartOrder h) entry.2.

(** [printRacksAndOrders]; its second parameter [orders] is unused. *)
Definition printRacksAndOrders (ro : RangeOrder) (h : Heap)
    (racks : gmap string (list PartOrder)) : Out unit :=
  fmt_Println "=+=+=+=" ;;;
  for_each (printRack h) (range ro racks).

Definition solve (ro : RangeOrder) (store : Store) (arg : string) : Out unit :=
  let orderIDs := parseOrderIDs arg in
  match getOrders store orderIDs {| heap := []; productsName := ∅ |} with
  | (Err e, _) => Fatalf e
  | (Ok orders, st) =>
      match groupOrdersByRack ro store orders (heap st) with
      | (Err e, _) => Fatalf e
      | (Ok racks, h) => printRacksAndOrders ro h racks
      end
  end.

(** [solve] as [main] calls it. [os.Args[1]] is the first thing [solve]
    evaluates; it panics (index out of range) when the program was started
    without an argument. *)
Definition solve_os_Args (ro : RangeOrder) (store : Store) (os_Args : list string)
    : Out unit :=
  match os_Args !! 1%nat with
  | Some arg => solve ro store arg
  | None => halt Panic
  end.

End PerItem.

(** ** Concrete repositories *)

Module Examples.
Import Go.

(** A database for [cmd/main.go] that answers its two queries from the
    rows of its tables ([WHERE ... = ANY($1)]) and never fails. *)
Definition mainDB (orders : list Main.OrdersRow) (racks : list Main.RacksRow)
    : Main.DB :=
  {| Main.QueryOrders := fun ids =>
       Ok {| rows_Next := Scanned <$> filter (fun r => Main.o_id r ∈ ids) orders;
             rows_Err := None |};
     Main.QueryRacks := fun ids =>
       Ok {| rows_Next := Scanned <$> filter (fun r => Main.product_id r ∈ ids) racks;
             rows_Err := None |} |}.

Definition pen_and_ink : list Main.OrdersRow :=
  [ {| Main.o_id := 1; Main.o_product_id := 10; Main.o_quantity := 3;
       Main.p_name := "pen" |};
    {| Main.o_id := 2; Main.o_product_id := 20; Main.o_quantity := 1;
       Main.p_name := "ink" |} ].

(** Orders 1 and 2 pick from the same main rack. *)
Definition one_rack : Main.DB :=
  mainDB pen_and_ink
    [ {| Main.product_id := 10; Main.name := "A"; Main.is_main := true |};
      {| Main.product_id := 20; Main.name := "A"; Main.is_main := true |};
      {| Main.product_id := 20; Main.name := "C"; Main.is_main := false |} ].

(** Product 10 has a secondary rack and no main rack. *)
Definition no_main_rack : Main.DB :=
  mainDB pen_and_ink
    [ {| Main.product_id := 10; Main.name := "C"; Main.is_main := false |};
      {| Main.product_id := 20; Main.name := "B"; Main.is_main := true |} ].

(** The same for the variant keyed by rack ID; [racks] is the table
    [rack], [product_racks] the table [product_rack]. *)
Definition byRackIDDB (orders : list ByRackID.OrderProductRow)
    (products : list ByRackID.ProductRow)
    (product_racks : list ByRackID.ProductRackRow)
    (racks : list ByRackID.RackRow) : ByRackID.DB :=
  {| ByRackID.QueryOrders := fun ids =>
       Ok {| rows_Next := Scanned <$> filter (fun r => ByRackID.order_id r ∈ ids) orders;
             rows_Err := None |};
     ByRackID.QueryProducts := fun ids =>
       Ok {| rows_Next := Scanned <$> filter (fun r => ByRackID.product_id r ∈ ids) products;
             rows_Err := None |};
     ByRackID.QueryProductRacks := fun ids =>
       Ok {| rows_Next :=
               Scanned <$> filter (fun r => ByRackID.pr_product_id r ∈ ids) product_racks;
             rows_Err := None |};
     ByRackID.QueryRacks := fun ids =>
       Ok {| rows_Next := Scanned <$> filter (fun r => ByRackID.rack_id r ∈ ids) racks;
             rows_Err := None |} |}.

(** Product 10 has no main rack; its one secondary rack has ID 0. *)
Definition rack_zero : ByRackID.DB :=
  byRackIDDB
    [ {| ByRackID.order_id := 1; ByRackID.op_product_id := 10; ByRackID.quantity := 3 |} ]
    [ {| ByRackID.product_id := 10; ByRackID.product_name := "pen" |} ]
    [ {| ByRackID.pr_product_id := 10; ByRackID.pr_rack_id := 0;
         ByRackID.is_main := false |} ]
    [ {| ByRackID.rack_id := 0; ByRackID.rack_name := "Z" |} ].

(** The package-level maps of that variant once [solve] has loaded
    order 1 from [rack_zero]. *)
Definition rack_zero_loaded : ByRackID.Globals :=
  let g0 := {| ByRackID.productsNames := ∅; ByRackID.racksNames := ∅;
               ByRackID.mainRacks := ∅; ByRackID.secondaryRacks := ∅ |} in
  let g1 := (ByRackID.getOrders rack_zero [1] g0).2 in
  let g2 := (ByRackID.initProductsNames rack_zero [10] g1).2 in
  (ByRackID.initRacks rack_zero [10] g2).2.

(** A store for the per-item variant answering from tables. *)
Definition tableStore (orders : list (Z * PerItem.sqlcOrder))
    (products : list PerItem.sqlcProduct) (racks : list PerItem.sqlcRack)
    : PerItem.Store :=
  PerItem.racksStore
    (fun orderID => Ok (snd <$> filter (fun r => r.1 = orderID) orders))
    (fun id =>
       match List.find (fun p => PerItem.Product_ID p =? id) products with
       | Some p => Ok p
       | None => Err "sql: no rows in result set"
       end)
    racks.

Definition pen_and_ink_orders : list (Z * PerItem.sqlcOrder) :=
  [ (1, {| PerItem.Order_ProductID := 10; PerItem.Order_Quantity := 3 |});
    (2, {| PerItem.Order_ProductID := 20; PerItem.Order_Quantity := 1 |}) ].

Definition pen_and_ink_products : list PerItem.sqlcProduct :=
  [ {| PerItem.Product_ID := 10; PerItem.Product_Name := "pen" |};
    {| PerItem.Product_ID := 20; PerItem.Product_Name := "ink" |} ].

(** Section 8, scenario 6 of the specification: product 10 on rack A,
    product 20 on rack B with secondary rack C. *)
Definition two_racks : PerItem.Store :=
  tableStore pen_and_ink_orders pen_and_ink_products
    [ {| PerItem.Rack_Name := "A"; PerItem.Rack_ProductID := 10;
         PerItem.Rack_IsMain := true |};
      {| PerItem.Rack_Name := "B"; PerItem.Rack_ProductID := 20;
         PerItem.Rack_IsMain := true |};
      {| PerItem.Rack_Name := "C"; PerItem.Rack_ProductID := 20;
         PerItem.Rack_IsMain := false |} ].

(** The same with the main rack of product 20 removed. *)
Definition ink_without_main_rack : list PerItem.sqlcRack :=
  [ {| PerItem.Rack_Name := "A"; PerItem.Rack_ProductID := 10;
       PerItem.Rack_IsMain := true |};
    {| PerItem.Rack_Name := "C"; PerItem.Rack_ProductID := 20;
       PerItem.Rack_IsMain := false |} ].

End Examples.

(** ** Facts about the Go model *)

Module GoFacts.
Import Go.

(** [sort.Strings] returns its argument in increasing order. *)
Lemma sort_Strings_sorted (l : list string) :
  StronglySorted String.le (sort_Strings l).
Proof. apply StronglySorted_merge_sort; apply _. Qed.

Lemma sort_Strings_perm (l : list string) : sort_Strings l ≡ₚ l.
Proof. apply merge_sort_Permutation. Qed.

(** Two increasing lists with the same elements are the same list. *)
Lemma sorted_perm_eq (l1 l2 : list string) :
  StronglySorted String.le l1 -> StronglySorted String.le l2 ->
  l1 ≡ₚ l2 -> l1 = l2.
Proof.
  intros H1. revert l2. induction H1 as [|a l1 Hs IH Ha]; intros l2 H2 Hp.
  - symmetry. by apply Permutation_nil.
  - destruct H2 as [|b l2 Hs2 Hb].
    + symmetry in Hp. by apply Permutation_nil in Hp.
    + assert (a = b) as ->.
      { apply (anti_symm String.le).
        - assert (Hin : b ∈ a :: l1) by (rewrite Hp; left).
          apply elem_of_cons in Hin as [Hin|Hin]; [by subst|].
          rewrite Forall_forall in Ha. by apply Ha.
        - assert (Hin : a ∈ b :: l2) by (rewrite <- Hp; left).
          apply elem_of_cons in Hin as [Hin|Hin]; [by subst|].
          rewrite Forall_forall in Hb. by apply Hb. }
      f_equal. apply IH; [done|]. by apply (inj (cons b)).
Qed.

(** The order in which [range] visits a map does not show after sorting. *)
Lemma sort_Strings_range (ro1 ro2 : RangeOrder) {V : Type} (m : gmap string V) :
  range_ok ro1 -> range_ok ro2 ->
  sort_Strings (range ro1 m).*1 = sort_Strings (range ro2 m).*1.
Proof.
  intros H1 H2. apply sorted_perm_eq; try apply sort_Strings_sorted.
  rewrite !sort_Strings_perm. by rewrite (H1 _ _ _ _ m), (H2 _ _ _ _ m).
Qed.

Lemma range_fwd_ok : range_ok range_fwd.
Proof. by intros K ? ? V m. Qed.

Lemma range_bwd_ok : range_ok range_bwd.
Proof. intros K ? ? V m. simpl. apply reverse_Permutation. Qed.

Lemma string_length_app (s t : string) :
  String.length (s ++ t) = (String.length s + String.length t)%nat.
Proof. induction s as [|c s IH]; simpl; [done|]. by rewrite IH. Qed.

Lemma string_app_assoc (s t u : string) : (s ++ t) ++ u = s ++ t ++ u.
Proof.
  induction s as [|c s IH]; [done|].
  change ((String c s ++ t) ++ u) with (String c ((s ++ t) ++ u)).
  change (String c s ++ t ++ u) with (String c (s ++ t ++ u)). by rewrite IH.
Qed.

Lemma string_app_nil_r (s : string) : s ++ "" = s.
Proof.
  induction s as [|c s IH]; [done|].
  change (String c s ++ "") with (String c (s ++ "")). by rewrite IH.
Qed.

Lemma substring_app_l (s t : string) :
  String.substring 0 (String.length s) (s ++ t) = s.
Proof.
  induction s as [|c s IH].
  - by destruct t.
  - change (String c s ++ t) with (String c (s ++ t)). simpl. by rewrite IH.
Qed.

(** [s[:len(s)-1]] drops the comma that ends [s]. *)
Lemma slice_to_drop_comma (s : string) :
  slice_to (s ++ ",") (Z.of_nat (String.length (s ++ ",")) - 1) = Some s.
Proof.
  unfold slice_to. rewrite string_length_app. simpl String.length.
  replace (Z.of_nat (String.length s + 1) - 1) with (Z.of_nat (String.length s)) by lia.
  rewrite Nat2Z.id, substring_app_l.
  rewrite (proj2 (Z.leb_le 0 _)) by lia.
  by rewrite (proj2 (Z.leb_le _ _)) by lia.
Qed.

Lemma string_concat_snoc (sep : string) (l : list string) (x y : string) :
  String.concat sep ((x :: l) ++ [y]) = String.concat sep (x :: l) ++ sep ++ y.
Proof.
  revert x. induction l as [|z l IH]; intros x; [done|].
  change (String.concat sep ((x :: z :: l) ++ [y]))
    with (x ++ sep ++ String.concat sep ((z :: l) ++ [y])).
  rewrite IH. change (String.concat sep (x :: z :: l))
    with (x ++ sep ++ String.concat sep (z :: l)).
  by rewrite !string_app_assoc.
Qed.

(** The loop that appends [name + ","] for each rack builds the names
    joined by commas, with one more comma at the end. *)
Lemma join_loop {A : Type} (f : A -> string) (l : list A) :
  l <> [] ->
  foldl (fun acc x => acc ++ f x ++ ",") "" l = String.concat "," (f <$> l) ++ ",".
Proof.
  induction l as [|x l IH] using rev_ind; [done|]. intros _.
  rewrite foldl_snoc, fmap_app. destruct l as [|z l].
  - simpl. done.
  - rewrite IH by done. rewrite fmap_cons. simpl (f <$> [x]).
    rewrite string_concat_snoc. by rewrite !string_app_assoc.
Qed.

Lemma join_loop_slice {A : Type} (f : A -> string) (l : list A) :
  l <> [] ->
  let s := foldl (fun acc x => acc ++ f x ++ ",") "" l in
  slice_to s (Z.of_nat (String.length s) - 1) = Some (String.concat "," (f <$> l)).
Proof. intros Hl. simpl. rewrite join_loop by done. apply slice_to_drop_comma. Qed.

Lemma bind_ret_l {A B : Type} (a : A) (f : A -> Out B) (o : string) :
  bind (o, inl a) f = (o ++ (f a).1, (f a).2).
Proof. unfold bind. by destruct (f a). Qed.

Lemma scanned_all {T : Type} (rs : list T) : scanned (Scanned <$> rs) = rs.
Proof.
  induction rs as [|r rs IH]; [done|].
  change (scanned (Scanned <$> r :: rs)) with (r :: scanned (Scanned <$> rs)).
  by rewrite IH.
Qed.

Lemma map_index_insert {K : Type} `{Countable K} {V : Type} (zero : V)
    (m : gmap K V) (i j : K) (v : V) :
  map_index zero (<[i := v]> m) j = if decide (i = j) then v else map_index zero m j.
Proof. unfold map_index. rewrite lookup_insert. by case_decide. Qed.

Lemma range_keys (ro : RangeOrder) {V : Type} (m : gmap string V) :
  range_ok ro -> (range ro m).*1 ≡ₚ (map_to_list m).*1.
Proof. intros Hro. by rewrite (Hro _ _ _ _ m). Qed.

(** Sorting the keys [range] yields gives the increasing enumeration of
    the keys of the map, whatever order [range] visits them in. *)
Lemma sorted_keys (ro : RangeOrder) {V : Type} (m : gmap string V) :
  range_ok ro ->
  StronglySorted String.le (sort_Strings (range ro m).*1)
  /\ NoDup (sort_Strings (range ro m).*1)
  /\ forall k, k ∈ sort_Strings (range ro m).*1 <-> is_Some (m !! k).
Proof.
  intros Hro. split; [apply sort_Strings_sorted|]. split.
  - rewrite sort_Strings_perm, range_keys by done. apply NoDup_fst_map_to_list.
  - intros k. rewrite sort_Strings_perm, range_keys by done.
    rewrite list_elem_of_fmap. split.
    + intros ([k' v] & -> & Hin). apply elem_of_map_to_list in Hin. eauto.
    + intros [v Hv]. exists (k, v). split; [done|]. by apply elem_of_map_to_list.
Qed.

(** The line items [range] visits are the line items of the orders. *)
Lemma range_items (ro : RangeOrder) {A : Type} (orders : gmap Z (list A)) :
  range_ok ro -> mjoin (range ro orders).*2 ≡ₚ mjoin (map_to_list orders).*2.
Proof. intros Hro. by rewrite (Hro _ _ _ _ orders). Qed.

Lemma elem_of_items {A : Type} (orders : gmap Z (list A)) (p : A) :
  p ∈ mjoin (map_to_list orders).*2 <->
  exists oid l, orders !! oid = Some l /\ p ∈ l.
Proof.
  rewrite list_elem_of_join. split.
  - intros (l & Hp & Hl). apply list_elem_of_fmap in Hl as ([oid l'] & -> & Hl).
    apply elem_of_map_to_list in Hl. eauto.
  - intros (oid & l & Hl & Hp). exists l. split; [done|].
    apply list_elem_of_fmap. exists (oid, l). split; [done|].
    by apply elem_of_map_to_list.
Qed.
End GoFacts.

(** ** Facts about [cmd/main.go] *)

Module MainFacts.
Import Go Main GoFacts.

(** After the inner loop, bucket [k] has grown by the line items filed
    under [k], in the order they were visited. *)
Lemma main_groupParts_bucket (g : Globals) (l : list PartOrder) :
  forall (racks : gmap string (list PartOrder)) (k : string),
    map_index [] (groupParts g racks l) k
    = (map_index [] racks k ++ filter (fun p => rackName g p = k) l)%list.
Proof.
  unfold groupParts. induction l as [|p l IH]; intros racks k; simpl.
  - by rewrite app_nil_r.
  - rewrite IH, map_index_insert, filter_cons.
    destruct (decide (rackName g p = k)) as [->|Hne]; [|done].
    by rewrite <- app_assoc.
Qed.

Lemma main_groupOrders_bucket (g : Globals) (entries : list (Z * list PartOrder)) :
  forall (racks : gmap string (list PartOrder)) (k : string),
    map_index [] (foldl (fun racks entry => groupParts g racks entry.2) racks entries) k
    = (map_index [] racks k
         ++ filter (fun p => rackName g p = k) (mjoin entries.*2))%list.
Proof.
  induction entries as [|e entries IH]; intros racks k; simpl.
  - by rewrite app_nil_r.
  - rewrite IH, main_groupParts_bucket, filter_app. by rewrite <- app_assoc.
Qed.

(** Every bucket of [groupOrdersByRack] is the sub-list of the visited line
    items whose rack name is the bucket's key. *)
Lemma main_groupOrdersByRack_bucket (ro : RangeOrder) (g : Globals)
    (orders : gmap Z (list PartOrder)) (k : string) :
  map_index [] (groupOrdersByRack ro g orders).1 k
  = filter (fun p => rackName g p = k) (mjoin (range ro orders).*2).
Proof. unfold groupOrdersByRack. simpl. by rewrite main_groupOrders_bucket. Qed.


(** *** Printing *)

Lemma main_joinRacks_eq (names : list string) :
  names <> [] -> joinRacks names = String.concat "," names ++ ",".
Proof.
  intros Hn. pose proof (join_loop id names Hn) as H.
  rewrite list_fmap_id in H. exact H.
Qed.

Lemma main_joinRacks_slice (names : list string) :
  names <> [] ->
  slice_to (joinRacks names) (Z.of_nat (String.length (joinRacks names)) - 1)
  = Some (String.concat "," names).
Proof.
  intros Hn. pose proof (join_loop_slice id names Hn) as H.
  rewrite list_fmap_id in H. exact H.
Qed.

Lemma main_printSecondary_out (names : list string) :
  printSecondary names
  = match names with
    | [] => ret tt
    | _ => ("доп стеллаж: " ++ String.concat "," names ++ nl, inl tt)
    end.
Proof.
  destruct names as [|n names]; [done|].
  unfold printSecondary.
  change (0 <? length (n :: names))%nat with true. cbv iota.
  rewrite main_joinRacks_slice by done. unfold fmt_Print, fmt_Println.
  by rewrite bind_ret_l.
Qed.

(** *** Loading *)

Lemma main_getOrders_rows_secondaryRacks (rows : list (Scan OrdersRow)) :
  forall orders g r g',
    getOrders_rows rows orders g = (r, g') -> secondaryRacks g' = secondaryRacks g.
Proof.
  induction rows as [|[row|e] rows IH]; intros orders g r g' Hg; simpl in Hg.
  - by inversion Hg.
  - by apply IH in Hg.
  - by inversion Hg.
Qed.

(** [getOrders] only ever stores the empty name in [mainRacks]. *)
Lemma main_getOrders_rows_mainRacks (rows : list (Scan OrdersRow)) :
  forall orders g r g',
    getOrders_rows rows orders g = (r, g') ->
    (forall pid, map_index "" (mainRacks g) pid = "") ->
    forall pid, map_index "" (mainRacks g') pid = "".
Proof.
  induction rows as [|[row|e] rows IH]; intros orders g r g' Hg Hm pid; simpl in Hg.
  - inversion Hg; subst. apply Hm.
  - eapply IH; [exact Hg|]. intros pid'. simpl. rewrite map_index_insert.
    by case_decide.
  - inversion Hg; subst. apply Hm.
Qed.

(** When every row scans, the loop of [getOrders] ends without error, and
    an order ID that no row carries keeps its entry untouched. *)
Lemma main_getOrders_rows_ok (rs : list OrdersRow) :
  forall orders g,
    exists m g', getOrders_rows (Scanned <$> rs) orders g = (Ok m, g')
      /\ forall id, (forall r, r ∈ rs -> o_id r <> id) -> m !! id = orders !! id.
Proof.
  induction rs as [|r rs IH]; intros orders g.
  - exists orders, g. by split.
  - rewrite fmap_cons. simpl.
    match goal with |- context [getOrders_rows _ ?o ?g0] =>
      destruct (IH o g0) as (m & g' & Hg & Hm) end.
    exists m, g'. split; [exact Hg|]. intros id Hid.
    rewrite Hm by (intros r' Hr'; apply Hid; by right).
    apply lookup_insert_ne. apply Hid. by left.
Qed.

(** The loop of [initRacks] overwrites [mainRacks] only on main rows. *)
Lemma main_initRacks_rows_mainRacks (rows : list (Scan RacksRow)) (pid : Z) :
  forall g g',
    (initRacks_rows rows g).2 = g' ->
    mainRows (scanned rows) pid = [] ->
    mainRacks g' !! pid = mainRacks g !! pid.
Proof.
  induction rows as [|[row|e] rows IH]; intros g g' Hg Hno; simpl in Hg.
  - by subst.
  - change (scanned (Scanned row :: rows)) with (row :: scanned rows) in Hno.
    unfold mainRows in Hno. rewrite filter_cons in Hno.
    destruct (decide (product_id row = pid /\ is_main row = true)) as [Hd|Hd];
      [done|].
    destruct (is_main row) eqn:Em.
    + rewrite (IH _ _ Hg Hno). simpl. apply lookup_insert_ne. naive_solver.
    + by rewrite (IH _ _ Hg Hno).
  - by subst.
Qed.

(** When the loop of [initRacks] ends without error, [secondaryRacks] has
    grown, for each product, by the names on its non-main rows. *)
Lemma main_initRacks_rows_secondaryRacks (rows : list (Scan RacksRow)) (pid : Z) :
  forall g g',
    initRacks_rows rows g = (None, g') ->
    map_index [] (secondaryRacks g') pid
    = (map_index [] (secondaryRacks g) pid ++ secondaryNames (scanned rows) pid)%list.
Proof.
  induction rows as [|[row|e] rows IH]; intros g g' Hg; simpl in Hg.
  - inversion Hg; subst. unfold secondaryNames. simpl. by rewrite app_nil_r.
  - change (scanned (Scanned row :: rows)) with (row :: scanned rows).
    unfold secondaryNames. rewrite filter_cons.
    destruct (is_main row) eqn:Em.
    + rewrite (IH _ _ Hg). simpl.
      destruct (decide (product_id row = pid /\ true = false)) as [[_ ?]|_]; done.
    + rewrite (IH _ _ Hg). simpl. rewrite map_index_insert.
      destruct (decide (product_id row = pid)) as [->|Hne].
      * rewrite decide_True by done. rewrite fmap_cons.
        by rewrite <- app_assoc.
      * by rewrite decide_False by (intros [? _]; done).
  - by inversion Hg.
Qed.

Lemma main_initRacks_inv (ro : RangeOrder) (db : DB) (g g' : Globals) :
  initRacks ro db g = (None, g') ->
  exists rows, QueryRacks db (range ro (mainRacks g)).*1 = Ok rows
               /\ initRacks_rows (rows_Next rows) g = (None, g').
Proof.
  unfold initRacks. destruct (QueryRacks db _) as [rows|e]; [|intros ?; discriminate].
  destruct (initRacks_rows (rows_Next rows) g) as [[e|] g1] eqn:E; [intros ?; discriminate|].
  intros Hg. injection Hg as _ <-. by exists rows.
Qed.

Lemma main_getOrders_inv (db : DB) (ids : list Z) (g : Globals) orders g' :
  getOrders db ids g = (Ok orders, g') ->
  exists rows, QueryOrders db ids = Ok rows
               /\ getOrders_rows (rows_Next rows) ∅ g = (Ok orders, g').
Proof.
  unfold getOrders. destruct (QueryOrders db ids) as [rows|e]; [|intros ?; discriminate].
  destruct (getOrders_rows (rows_Next rows) ∅ g) as [[m|e] g1] eqn:E;
    [|intros ?; discriminate].
  destruct (rows_Err rows); [intros ?; discriminate|].
  intros Hg. injection Hg as <- <-. by exists rows.
Qed.


(** *** The report *)

(** [printRacksAndOrders] prints one section per key of [racks], each
    opened by its header, the keys in increasing order. *)
Lemma main_headers_ascending (ro : RangeOrder) (g : Globals)
    (racks : gmap string (list PartOrder)) :
  range_ok ro ->
  exists names,
    StronglySorted String.le names /\ NoDup names
    /\ (forall k, k ∈ names <-> is_Some (racks !! k))
    /\ printRacksAndOrders ro g racks
       = (fmt_Println "=+=+=+=" ;;;
          for_each (fun rackName =>
                      fmt_Print ("===Стеллаж " ++ rackName ++ nl) ;;;
                      for_each (printPartOrder g) (map_index [] racks rackName))
                   names).
Proof.
  intros Hro. exists (getSortedRacksNames ro racks).
  destruct (sorted_keys ro racks Hro) as (Hs & Hn & Hk).
  split; [exact Hs|]. split; [exact Hn|]. split; [exact Hk|]. reflexivity.
Qed.

(** A product with no main row is filed under the empty rack name. *)
Lemma main_no_main_rack_empty_key (ro : RangeOrder) (db : DB) (ids : list Z)
    (orders : gmap Z (list PartOrder)) (g1 g : Globals) (rows : Rows RacksRow)
    (partOrder : PartOrder) :
  getOrders db ids {| mainRacks := ∅; secondaryRacks := ∅ |} = (Ok orders, g1) ->
  QueryRacks db (range ro (mainRacks g1)).*1 = Ok rows ->
  (initRacks ro db g1).2 = g ->
  mainRows (scanned (rows_Next rows)) (ID (Prod partOrder)) = [] ->
  rackName g partOrder = "".
Proof.
  intros Hg Hq Hi Hno. apply main_getOrders_inv in Hg as (orows & _ & Hg).
  unfold rackName, map_index.
  assert (Hm : mainRacks g !! ID (Prod partOrder)
               = mainRacks g1 !! ID (Prod partOrder)).
  { apply (main_initRacks_rows_mainRacks (rows_Next rows)); [|done].
    unfold initRacks in Hi. rewrite Hq in Hi.
    by destruct (initRacks_rows (rows_Next rows) g1) as [[e|] g2]. }
  rewrite Hm. by apply (main_getOrders_rows_mainRacks _ _ _ _ _ Hg).
Qed.
End MainFacts.

(** ** Facts about the per-item variant *)

Module PerItemFacts.
Import Go PerItem GoFacts.

(** Writing [SecondaryRacks] through a pointer changes no product's [ID]. *)
Lemma ID_appendSecondary (h : Heap) (q : ptr) (n : string) (p : ptr) :
  ID (deref (appendSecondary h q n) p) = ID (deref h p).
Proof.
  unfold appendSecondary, deref. rewrite list_lookup_insert.
  case_decide as Hd; [|done]. destruct Hd as [-> Hlt].
  destruct (lookup_lt_is_Some_2 h p Hlt) as [x Hx]. by rewrite Hx.
Qed.

Lemma ID_appendSecondary_all (q : ptr) (rs : list sqlcRack) :
  forall (h : Heap) (p : ptr),
    ID (deref (foldl (fun h secondaryRack =>
                        appendSecondary h q (Rack_Name secondaryRack)) h rs) p)
    = ID (deref h p).
Proof.
  induction rs as [|r rs IH]; intros h p; simpl; [done|].
  by rewrite IH, ID_appendSecondary.
Qed.

Lemma item_groupProducts_ID (store : Store) (oid : Z) (products : list ptr) :
  forall racks h r h',
    groupProducts store oid products racks h = (r, h') ->
    forall p, ID (deref h' p) = ID (deref h p).
Proof.
  induction products as [|q products IH]; intros racks h r h' Hg p; simpl in Hg.
  - by inversion Hg.
  - destruct (GetMainRack store (ID (deref h q))); [|by inversion Hg].
    destruct (GetSecondaryRacks store (ID (deref h q))) as [rs|]; [|by inversion Hg].
    apply IH with (p := p) in Hg. by rewrite Hg, ID_appendSecondary_all.
Qed.

Lemma item_groupOrders_ID (store : Store) (entries : list (Z * list ptr)) :
  forall racks h r h',
    groupOrders store entries racks h = (r, h') ->
    forall p, ID (deref h' p) = ID (deref h p).
Proof.
  induction entries as [|[oid products] entries IH]; intros racks h r h' Hg p;
    simpl in Hg.
  - by inversion Hg.
  - destruct (groupProducts store oid products racks h) as [[racks1|e] h1] eqn:E.
    + apply IH with (p := p) in Hg. rewrite Hg.
      by apply (item_groupProducts_ID _ _ _ _ _ _ _ E).
    + inversion Hg; subst. by apply (item_groupProducts_ID _ _ _ _ _ _ _ E).
Qed.

Lemma rackName_ID (store : Store) (h h' : Heap) (po : PartOrder) :
  (forall p, ID (deref h' p) = ID (deref h p)) ->
  rackName store h' po = rackName store h po.
Proof. intros H. unfold rackName. by rewrite H. Qed.

(** When the inner loop returns no error, bucket [k] has grown by the
    line items of this order whose main rack is named [k]. *)
Lemma item_groupProducts_bucket (store : Store) (oid : Z) (products : list ptr) :
  forall racks h racks' h',
    groupProducts store oid products racks h = (Ok racks', h') ->
    forall k,
      map_index [] racks' k
      = (map_index [] racks k
           ++ filter (fun po => rackName store h po = k)
                ((fun product => {| PO_ID := oid; PO_Product := product |})
                   <$> products))%list.
Proof.
  induction products as [|q products IH]; intros racks h racks' h' Hg k;
    simpl in Hg.
  - inversion Hg; subst. simpl. by rewrite app_nil_r.
  - destruct (GetMainRack store (ID (deref h q))) as [rack|] eqn:Em;
      [|by inversion Hg].
    destruct (GetSecondaryRacks store (ID (deref h q))) as [rs|]; [|by inversion Hg].
    apply IH with (k := k) in Hg. rewrite Hg, map_index_insert.
    rewrite fmap_cons, filter_cons.
    assert (Hq : rackName store h {| PO_ID := oid; PO_Product := q |} = Rack_Name rack).
    { unfold rackName. simpl. by rewrite Em. }
    rewrite Hq.
    assert (Hf : forall l : list PartOrder,
               filter (fun po => rackName store
                  (foldl (fun h secondaryRack =>
                            appendSecondary h q (Rack_Name secondaryRack)) h rs) po = k) l
               = filter (fun po => rackName store h po = k) l).
    { intros l. apply list_filter_iff. intros po.
      rewrite (rackName_ID store h); [done|]. apply ID_appendSecondary_all. }
    rewrite Hf.
    destruct (decide (Rack_Name rack = k)) as [->|Hne]; [|done].
    by rewrite <- app_assoc.
Qed.

Lemma item_groupOrders_bucket (store : Store) (entries : list (Z * list ptr)) :
  forall racks h racks' h',
    groupOrders store entries racks h = (Ok racks', h') ->
    forall k,
      map_index [] racks' k
      = (map_index [] racks k
           ++ filter (fun po => rackName store h po = k) (partOrders entries))%list.
Proof.
  induction entries as [|[oid products] entries IH]; intros racks h racks' h' Hg k;
    simpl in Hg.
  - inversion Hg; subst. unfold partOrders. simpl. by rewrite app_nil_r.
  - destruct (groupProducts store oid products racks h) as [[racks1|e] h1] eqn:E;
      [|by inversion Hg].
    apply IH with (k := k) in Hg. rewrite Hg.
    rewrite (item_groupProducts_bucket _ _ _ _ _ _ _ E).
    unfold partOrders. rewrite fmap_cons. simpl. rewrite filter_app.
    rewrite <- app_assoc. do 2 f_equal.
    apply list_filter_iff. intros po.
    rewrite (rackName_ID store h); [done|].
    apply (item_groupProducts_ID _ _ _ _ _ _ _ E).
Qed.

(** A line item enters a bucket only once its main rack was resolved. *)
Lemma item_groupProducts_resolved (store : Store) (oid : Z) (products : list ptr) :
  forall racks h racks' h',
    groupProducts store oid products racks h = (Ok racks', h') ->
    forall p, p ∈ products ->
      exists rack, GetMainRack store (ID (deref h p)) = Ok rack.
Proof.
  induction products as [|q products IH]; intros racks h racks' h' Hg p Hp;
    simpl in Hg.
  - by apply elem_of_nil in Hp.
  - destruct (GetMainRack store (ID (deref h q))) as [rack|] eqn:Em;
      [|by inversion Hg].
    destruct (GetSecondaryRacks store (ID (deref h q))) as [rs|]; [|by inversion Hg].
    apply elem_of_cons in Hp as [->|Hp]; [eauto|].
    destruct (IH _ _ _ _ Hg p Hp) as [rack' Hr]. exists rack'.
    by rewrite ID_appendSecondary_all in Hr.
Qed.

Lemma item_groupOrders_resolved (store : Store) (entries : list (Z * list ptr)) :
  forall racks h racks' h',
    groupOrders store entries racks h = (Ok racks', h') ->
    forall oid products p, (oid, products) ∈ entries -> p ∈ products ->
      exists rack, GetMainRack store (ID (deref h p)) = Ok rack.
Proof.
  induction entries as [|[oid0 products0] entries IH];
    intros racks h racks' h' Hg oid products p He Hp; simpl in Hg.
  - by apply elem_of_nil in He.
  - destruct (groupProducts store oid0 products0 racks h) as [[racks1|e] h1] eqn:E;
      [|by inversion Hg].
    apply elem_of_cons in He as [Heq|He].
    + inversion Heq; subst. by apply (item_groupProducts_resolved _ _ _ _ _ _ _ E).
    + destruct (IH _ _ _ _ Hg _ _ _ He Hp) as [rack Hr]. exists rack.
      by rewrite (item_groupProducts_ID _ _ _ _ _ _ _ E) in Hr.
Qed.

Lemma item_groupProducts_ok (store : Store) (oid : Z) (products : list ptr) :
  forall racks h,
    (forall p, p ∈ products -> resolvable store h p) ->
    exists racks' h', groupProducts store oid products racks h = (Ok racks', h').
Proof.
  induction products as [|q products IH]; intros racks h Hres; simpl; [eauto|].
  destruct (Hres q) as [[rack Hm] [rs Hs]]; [left|]. rewrite Hm, Hs.
  apply IH. intros p Hp. destruct (Hres p) as [[rack' Hm'] [rs' Hs']]; [by right|].
  split; rewrite ID_appendSecondary_all; eauto.
Qed.

Lemma item_groupOrders_ok (store : Store) (entries : list (Z * list ptr)) :
  forall racks h,
    (forall oid products p, (oid, products) ∈ entries -> p ∈ products ->
                            resolvable store h p) ->
    exists racks' h', groupOrders store entries racks h = (Ok racks', h').
Proof.
  induction entries as [|[oid0 products0] entries IH]; intros racks h Hres; simpl;
    [eauto|].
  destruct (item_groupProducts_ok store oid0 products0 racks h) as (racks1 & h1 & E).
  { intros p Hp. apply (Hres oid0 products0); [left|done]. }
  rewrite E. apply IH. intros oid products p He Hp.
  destruct (Hres oid products p) as [[rack' Hm'] [rs' Hs']]; [by right|done|].
  split; rewrite (item_groupProducts_ID _ _ _ _ _ _ _ E); eauto.
Qed.

(** One product without a main rack makes the whole grouping fail. *)
Lemma item_groupProducts_err (store : Store) (oid : Z) (products : list ptr) :
  forall racks h p e,
    p ∈ products -> GetMainRack store (ID (deref h p)) = Err e ->
    exists e' h', groupProducts store oid products racks h = (Err e', h').
Proof.
  induction products as [|q products IH]; intros racks h p e Hp Hm; simpl.
  - by apply elem_of_nil in Hp.
  - destruct (GetMainRack store (ID (deref h q))) as [rack|] eqn:Em; [|eauto].
    destruct (GetSecondaryRacks store (ID (deref h q))) as [rs|]; [|eauto].
    apply elem_of_cons in Hp as [->|Hp]; [congruence|].
    apply (IH _ _ p e); [done|]. by rewrite ID_appendSecondary_all.
Qed.

Lemma item_groupOrders_err (store : Store) (entries : list (Z * list ptr)) :
  forall racks h oid products p e,
    (oid, products) ∈ entries -> p ∈ products ->
    GetMainRack store (ID (deref h p)) = Err e ->
    exists e' h', groupOrders store entries racks h = (Err e', h').
Proof.
  induction entries as [|[oid0 products0] entries IH];
    intros racks h oid products p e He Hp Hm; simpl.
  - by apply elem_of_nil in He.
  - destruct (groupProducts store oid0 products0 racks h) as [[racks1|e1] h1] eqn:E;
      [|eauto].
    apply elem_of_cons in He as [Heq|He].
    + inversion Heq; subst.
      destruct (item_groupProducts_err store oid0 products0 racks h p e Hp Hm)
        as (e' & h' & E'). congruence.
    + apply (IH _ _ oid products p e); [done..|].
      by rewrite (item_groupProducts_ID _ _ _ _ _ _ _ E).
Qed.

Lemma holds_rows_prefix (h h' : Heap) ps rows :
  h `prefix_of` h' -> holds_rows h ps rows -> holds_rows h' ps rows.
Proof.
  intros Hpre Hrows. eapply Forall2_impl; [exact Hrows|].
  intros p row (prod & Hp & Hid).
  exists prod. split; [|done]. by eapply prefix_lookup_Some.
Qed.

Lemma item_getProductName_heap (store : Store) (id : Z) (st : State) :
  heap (getProductName store id st).2 = heap st.
Proof.
  unfold getProductName. destruct (productsName st !! id); [done|].
  by destruct (GetProduct store id).
Qed.

Lemma item_getOrders_products_spec (store : Store) (rows : list sqlcOrder) :
  forall products st ps st',
    getOrders_products store rows products st = (Ok ps, st') ->
    heap st `prefix_of` heap st'
    /\ exists new, ps = (products ++ new)%list /\ holds_rows (heap st') new rows.
Proof.
  induction rows as [|row rows IH]; intros products st ps st' Hg; simpl in Hg.
  - inversion Hg; subst. split; [done|]. exists []. rewrite app_nil_r.
    split; [done|constructor].
  - pose proof (item_getProductName_heap store (Order_ProductID row) st) as Hh.
    destruct (getProductName store (Order_ProductID row) st) as [[name|e] st1];
      [|by inversion Hg].
    simpl in Hh, Hg. apply IH in Hg as (Hpre & new & -> & Hnew). simpl in Hpre.
    rewrite Hh in Hpre. split.
    { etrans; [|exact Hpre]. by apply prefix_app_r. }
    exists (length (heap st) :: new). rewrite <- app_assoc. split; [by rewrite Hh|].
    constructor; [|done].
    exists {| ID := Order_ProductID row; Name := name;
              Quantity := Order_Quantity row; SecondaryRacks := [] |}.
    split; [|done].
    eapply prefix_lookup_Some; [|exact Hpre]. by rewrite list_lookup_middle.
Qed.

Lemma item_getOrders_ids_spec (store : Store) (ids : list Z) :
  forall orders st m st',
    getOrders_ids store ids orders st = (Ok m, st') ->
    heap st `prefix_of` heap st'
    /\ (forall oid, oid ∉ ids -> m !! oid = orders !! oid)
    /\ (forall oid, oid ∈ ids ->
          exists rows ps, GetOrder store oid = Ok rows /\ m !! oid = Some ps
                          /\ holds_rows (heap st') ps rows).
Proof.
  induction ids as [|oid0 ids IH]; intros orders st m st' Hg; simpl in Hg.
  - inversion Hg; subst. split; [done|]. split; [done|].
    intros oid Hin. by apply elem_of_nil in Hin.
  - destruct (GetOrder store oid0) as [rows0|e] eqn:Eo; [|by inversion Hg].
    destruct (getOrders_products store rows0 [] st) as [[ps0|e] st1] eqn:Ep;
      [|by inversion Hg].
    apply item_getOrders_products_spec in Ep as (Hpre1 & new & -> & Hnew).
    apply IH in Hg as (Hpre & Hout & Hin). simpl in *.
    split; [by etrans|]. split.
    + intros oid Hn. apply not_elem_of_cons in Hn as [Hne Hn].
      rewrite (Hout oid Hn). by rewrite lookup_insert_ne.
    + intros oid Ho. destruct (decide (oid ∈ ids)) as [Hi|Hn]; [by apply Hin|].
      apply elem_of_cons in Ho as [->|Ho]; [|done].
      exists rows0, new. split; [done|]. split.
      * rewrite (Hout oid0 Hn). by rewrite lookup_insert_eq.
      * by eapply holds_rows_prefix.
Qed.

(** [racks_GetMainRack] fails exactly when no row of the table is the
    product's main rack. *)
Lemma racks_GetMainRack_Err (racks : list sqlcRack) (productID : Z) :
  (forall r, r ∈ racks -> Rack_ProductID r = productID -> Rack_IsMain r = false) ->
  racks_GetMainRack racks productID = Err "sql: no rows in result set".
Proof.
  intros Hno. unfold racks_GetMainRack.
  destruct (List.find _ racks) as [r|] eqn:Ef; [|done].
  apply List.find_some in Ef as [Hin Hb].
  apply andb_prop in Hb as [Hid Hmain]. apply Z.eqb_eq in Hid.
  apply list_elem_of_In in Hin. rewrite (Hno r Hin Hid) in Hmain. done.
Qed.

(** A fatal stop of [solve] comes before anything is printed. *)
Lemma item_solve_fail_fast (ro : RangeOrder) (store : Store) (arg : string)
    (oid : Z) (rows : list sqlcOrder) (row : sqlcOrder) (e : error) :
  range_ok ro ->
  oid ∈ parseOrderIDs arg -> GetOrder store oid = Ok rows -> row ∈ rows ->
  GetMainRack store (Order_ProductID row) = Err e ->
  exists msg, solve ro store arg = ("", inr (Fatal msg)).
Proof.
  intros Hro Hoid Hrows Hrow Herr. unfold solve.
  destruct (getOrders store (parseOrderIDs arg) _) as [[orders|e1] st] eqn:Eg;
    [|by eexists].
  apply item_getOrders_ids_spec in Eg as (_ & _ & Hin).
  destruct (Hin oid Hoid) as (rows' & ps & Hrows' & Hm & Hps).
  assert (rows' = rows) as -> by congruence.
  apply list_elem_of_lookup in Hrow as [i Hi].
  destruct (Forall2_lookup_r _ _ _ _ _ Hps Hi) as (p & Hp & prod & Hh & Hid).
  destruct (item_groupOrders_err store (range ro orders) ∅ (heap st) oid ps p e)
    as (e' & h' & Egr).
  - rewrite (Hro _ _ _ _ orders). by apply elem_of_map_to_list.
  - by eapply list_elem_of_lookup_2.
  - unfold deref. rewrite Hh. simpl. by rewrite Hid.
  - unfold groupOrdersByRack. rewrite Egr. by eexists.
Qed.

(** [getOrders] fails only when a store lookup fails. *)
Lemma item_getOrders_products_ok (store : Store) (rows : list sqlcOrder) :
  forall products st,
    (forall row, row ∈ rows ->
                 exists p, GetProduct store (Order_ProductID row) = Ok p) ->
    exists ps st', getOrders_products store rows products st = (Ok ps, st').
Proof.
  induction rows as [|row rows IH]; intros products st Hok; simpl; [eauto|].
  destruct (Hok row) as [p Hp]; [left|].
  unfold getProductName. destruct (productsName st !! Order_ProductID row).
  - apply IH. intros row' Hr. apply Hok. by right.
  - rewrite Hp. apply IH. intros row' Hr. apply Hok. by right.
Qed.

Lemma item_getOrders_ids_ok (store : Store) (ids : list Z) :
  forall orders st,
    (forall oid, oid ∈ ids ->
       exists rows, GetOrder store oid = Ok rows
         /\ forall row, row ∈ rows ->
               exists p, GetProduct store (Order_ProductID row) = Ok p) ->
    exists m st', getOrders_ids store ids orders st = (Ok m, st').
Proof.
  induction ids as [|oid ids IH]; intros orders st Hok; simpl; [eauto|].
  destruct (Hok oid) as (rows & -> & Hrows); [left|].
  destruct (item_getOrders_products_ok store rows [] st Hrows) as (ps & st1 & ->).
  apply IH. intros oid' Ho. apply Hok. by right.
Qed.

Lemma elem_of_partOrders (entries : list (Z * list ptr)) (po : PartOrder) :
  po ∈ partOrders entries <->
  exists oid ps, (oid, ps) ∈ entries /\ PO_Product po ∈ ps /\ PO_ID po = oid.
Proof.
  unfold partOrders. rewrite list_elem_of_join. split.
  - intros (l & Hpo & Hl). apply list_elem_of_fmap in Hl as ([oid ps] & -> & He).
    apply list_elem_of_fmap in Hpo as (p & -> & Hp). simpl in *. eauto.
  - intros (oid & ps & He & Hp & Hid). destruct po as [oid' p]. simpl in *. subst.
    eexists. split; [|apply list_elem_of_fmap; exists (oid, ps); split; [done|exact He]].
    apply list_elem_of_fmap. by exists p.
Qed.

Lemma partOrders_range (ro : RangeOrder) (orders : gmap Z (list ptr)) :
  range_ok ro -> partOrders (range ro orders) ≡ₚ partOrders (map_to_list orders).
Proof. intros Hro. unfold partOrders. by rewrite (Hro _ _ _ _ orders). Qed.
End PerItemFacts.

(** ** Facts about [strconv.ParseInt] and [strings.Split] *)

Module ParseFacts.
Import Go.

Lemma digit_val_digit (c : ascii) :
  is_digit c = true ->
  exists d, digit_val c = Some d /\ 0 <= d <= 9.
Proof.
  unfold is_digit, digit_val. intros H. rewrite H.
  apply andb_prop in H as [H1 H2]. apply Z.leb_le in H1, H2.
  eexists. split; [done|]. lia.
Qed.

Lemma digit_val_other (c : ascii) :
  is_digit c = false ->
  digit_val c = None \/ exists d, digit_val c = Some d /\ 10 <= d.
Proof.
  unfold is_digit, digit_val. intros H. rewrite H.
  destruct ((97 <=? lower (byte_of c)) && (lower (byte_of c) <=? 122)) eqn:E;
    [|by left].
  right. apply andb_prop in E as [E1 E2]. apply Z.leb_le in E1, E2.
  eexists. split; [done|]. lia.
Qed.

Lemma pow10_le (k : nat) : (k <= 19)%nat -> 10 ^ Z.of_nat k <= 10 ^ 19.
Proof. intros Hk. apply Z.pow_le_mono_r; lia. Qed.

(** A byte that is not a digit, met before the digits read so far can
    overflow, ends [ParseUint] with a syntax error and the value 0. *)
Lemma ParseUint_loop_syntax (s : string) :
  forall (n : Z) (k : nat),
    all_digits s = false -> 0 <= n < 10 ^ Z.of_nat k ->
    (k + String.length s <= 19)%nat ->
    ParseUint_loop s n = (0, Some ErrSyntax).
Proof.
  induction s as [|c s IH]; intros n k Hs Hn Hk; [done|].
  simpl in Hs, Hk. simpl.
  destruct (is_digit c) eqn:Ec.
  - destruct (digit_val_digit c Ec) as (d & -> & Hd).
    rewrite (proj2 (Z.leb_gt 10 d)) by lia.
    pose proof (pow10_le (S k) ltac:(lia)) as Hp.
    rewrite Nat2Z.inj_succ, Z.pow_succ_r in Hp by lia.
    change (maxUint64 / 10 + 1) with 1844674407370955162.
    change (10 ^ 19) with 10000000000000000000 in Hp.
    rewrite (proj2 (Z.leb_gt _ n)) by lia.
    unfold uint64. change (2 ^ 64) with 18446744073709551616.
    rewrite (Z.mod_small (n * 10)) by lia.
    rewrite (Z.mod_small (n * 10 + d)) by lia.
    rewrite (proj2 (Z.ltb_ge _ _)) by lia.
    unfold maxUint64. rewrite (proj2 (Z.ltb_ge _ _)) by lia. simpl.
    apply (IH _ (S k)); [done| |lia].
    rewrite Nat2Z.inj_succ, Z.pow_succ_r by lia. lia.
  - destruct (digit_val_other c Ec) as [->|(d & -> & Hd)]; [done|].
    by rewrite (proj2 (Z.leb_le 10 d)) by lia.
Qed.

Lemma ParseUint_syntax (s : string) :
  digits s = false -> (String.length s <= 19)%nat ->
  ParseUint s = (0, Some ErrSyntax).
Proof.
  destruct s as [|c s]; [done|]. intros Hd Hl.
  apply (ParseUint_loop_syntax _ 0 0%nat); [done|simpl; lia|simpl in *; lia].
Qed.

(** A token of at most 19 bytes that does not spell a decimal integer is
    parsed to 0. *)
Lemma ParseInt_not_numeric (tok : string) :
  numeric tok = false -> (String.length tok <= 19)%nat ->
  ParseInt tok = (0, Some ErrSyntax).
Proof.
  destruct tok as [|c rest]; [done|]. intros Hn Hl. unfold numeric in Hn.
  unfold ParseInt.
  destruct (Ascii.eqb c "+" || Ascii.eqb c "-") eqn:Es.
  - replace (Ascii.eqb c "+" || Ascii.eqb c "-") with true.
    rewrite ParseUint_syntax; [done|done|simpl in Hl; lia].
  - replace (Ascii.eqb c "+" || Ascii.eqb c "-") with false.
    by rewrite ParseUint_syntax.
Qed.

Lemma foldl_snoc_map {A B : Type} (f : A -> B) (l : list A) (acc : list B) :
  foldl (fun acc x => (acc ++ [f x])%list) acc l = (acc ++ (f <$> l))%list.
Proof.
  revert acc. induction l as [|x l IH]; intros acc; simpl.
  - by rewrite app_nil_r.
  - rewrite IH. by rewrite <- app_assoc.
Qed.

(** [parseOrderIDs] is [ParseInt], error dropped, on every token. *)
Lemma parseOrderIDs_map (s : string) :
  Main.parseOrderIDs s = (fun tok => (ParseInt tok).1) <$> Split s ",".
Proof. unfold Main.parseOrderIDs. by rewrite foldl_snoc_map. Qed.

(** The commas of a string. *)
Lemma Split_length (s : string) :
  length (Split s ",")
  = S (length (filter (fun c => c = ","%char) (list_ascii_of_string s))).
Proof.
  induction s as [|c s IH]; [done|]. simpl Split. simpl list_ascii_of_string.
  rewrite filter_cons. destruct (Ascii.eqb_spec c ",") as [->|Hne].
  - rewrite decide_True by done. simpl. by rewrite IH.
  - rewrite decide_False by done. destruct (Split s ","); [done|]. exact IH.
Qed.

Lemma is_digit_val (c : ascii) :
  is_digit c = true -> 0 <= byte_of c - 48 <= 9.
Proof.
  unfold is_digit. intros H. apply andb_prop in H as [H1 H2].
  apply Z.leb_le in H1, H2. lia.
Qed.

Lemma digit_val_is_digit (c : ascii) :
  is_digit c = true -> digit_val c = Some (byte_of c - 48).
Proof. unfold is_digit, digit_val. by intros ->. Qed.

Lemma dec_value_ge (s : string) : forall n, 0 <= n -> n <= dec_value s n.
Proof.
  induction s as [|c s IH]; intros n Hn; simpl; [lia|].
  destruct (is_digit c) eqn:Ec; [|lia].
  pose proof (is_digit_val c Ec). etrans; [|apply IH]; lia.
Qed.

(** What the loop of [ParseUint] returns: the range error as soon as the
    leading digits exceed [maxUint64], else the syntax error when a byte
    follows them, else their value. *)
Lemma ParseUint_loop_spec (s : string) :
  forall n, 0 <= n <= maxUint64 ->
    ParseUint_loop s n
    = if maxUint64 <? dec_value s n then (maxUint64, Some ErrRange)
      else match after_digits s with
           | EmptyString => (dec_value s n, None)
           | _ => (0, Some ErrSyntax)
           end.
Proof.
  induction s as [|c s IH]; intros n Hn; simpl.
  - by rewrite (proj2 (Z.ltb_ge _ _)) by lia.
  - unfold maxUint64 in *. destruct (is_digit c) eqn:Ec.
    + rewrite (digit_val_is_digit c Ec). pose proof (is_digit_val c Ec) as Hd.
      rewrite (proj2 (Z.leb_gt 10 _)) by lia.
      change (18446744073709551615 / 10 + 1) with 1844674407370955162.
      pose proof (dec_value_ge s (n * 10 + (byte_of c - 48)) ltac:(lia)) as Hge.
      destruct (Z.leb_spec 1844674407370955162 n) as [Hc|Hc].
      { by rewrite (proj2 (Z.ltb_lt _ _)) by lia. }
      unfold uint64. change (2 ^ 64) with 18446744073709551616.
      rewrite (Z.mod_small (n * 10)) by lia.
      destruct (Z.le_gt_cases (n * 10 + (byte_of c - 48)) 18446744073709551615)
        as [Hs|Hb].
      * rewrite (Z.mod_small (n * 10 + _)) by lia.
        rewrite (proj2 (Z.ltb_ge _ (n * 10))) by lia.
        rewrite (proj2 (Z.ltb_ge _ _)) by lia. simpl.
        apply IH. lia.
      * replace ((n * 10 + (byte_of c - 48)) mod 18446744073709551616)
          with (n * 10 + (byte_of c - 48) - 18446744073709551616).
        2:{ apply Z.mod_unique with 1; lia. }
        rewrite (proj2 (Z.ltb_lt _ (n * 10))) by lia. simpl.
        by rewrite (proj2 (Z.ltb_lt _ _)) by lia.
    + rewrite (proj2 (Z.ltb_ge _ _)) by lia.
      destruct (digit_val_other c Ec) as [->|(d & -> & Hd)]; [done|].
      by rewrite (proj2 (Z.leb_le 10 d)) by lia.
Qed.

Lemma all_digits_after (s : string) :
  all_digits s = false -> after_digits s <> "".
Proof.
  induction s as [|c s IH]; [done|]. simpl.
  destruct (is_digit c); [exact IH|done].
Qed.

Lemma numeric_after_digits (tok : string) :
  numeric tok = false ->
  unsigned_part tok = "" \/ after_digits (unsigned_part tok) <> "".
Proof.
  assert (Hd : forall s, digits s = false -> s = "" \/ after_digits s <> "").
  { intros [|c s] Hs; [by left|]. right. by apply all_digits_after. }
  destruct tok as [|c rest]; [by left|]. unfold numeric, unsigned_part.
  destruct (Ascii.eqb c "+" || Ascii.eqb c "-"); apply Hd.
Qed.

(** What a token that does not spell a decimal integer is parsed to. *)
Lemma ParseInt_not_numeric_value (tok : string) :
  numeric tok = false ->
  ParseInt tok
  = if maxUint64 <? dec_value (unsigned_part tok) 0
    then (if is_negative tok then - 2 ^ 63 else 2 ^ 63 - 1, Some ErrRange)
    else (0, Some ErrSyntax).
Proof.
  intros Hn. pose proof (numeric_after_digits tok Hn) as Hb.
  destruct tok as [|c rest]; [done|].
  unfold ParseInt, is_negative. unfold unsigned_part in *.
  destruct (if Ascii.eqb c "+" || Ascii.eqb c "-" then rest else String c rest)
    as [|c' body] eqn:Eb; [done|].
  destruct Hb as [Hb|Hb]; [done|].
  unfold ParseUint. rewrite ParseUint_loop_spec by (unfold maxUint64; lia).
  destruct (maxUint64 <? dec_value (String c' body) 0) eqn:Em.
  - unfold maxUint64. change (2 ^ 63) with 9223372036854775808.
    destruct (Ascii.eqb c "-"); reflexivity.
  - destruct (after_digits (String c' body)); [done|reflexivity].
Qed.
End ParseFacts.

(** ** Facts about the variant keyed by rack ID *)

Module ByRackIDFacts.
Import Go ByRackID GoFacts.

Lemma byid_joinRacks_slice (g : Globals) (ids : list Z) :
  ids <> [] ->
  slice_to (joinRacks g ids) (Z.of_nat (String.length (joinRacks g ids)) - 1)
  = Some (String.concat "," (map_index "" (racksNames g) <$> ids)).
Proof.
  intros Hn. exact (join_loop_slice (map_index "" (racksNames g)) ids Hn).
Qed.

Lemma byid_printSecondary_out (g : Globals) (ids : list Z) :
  printSecondary g ids
  = match ids with
    | [] => ret tt
    | _ => ("доп стеллаж: "
              ++ String.concat "," (map_index "" (racksNames g) <$> ids) ++ nl,
            inl tt)
    end.
Proof.
  destruct ids as [|n ids]; [done|].
  unfold printSecondary.
  change (0 <? length (n :: ids))%nat with true. cbv iota.
  rewrite byid_joinRacks_slice by done. unfold fmt_Print, fmt_Println.
  by rewrite bind_ret_l.
Qed.

(** A product without a main rack is filed under the name on record for
    rack ID 0, which is the empty name only when no such rack was loaded. *)
Lemma byid_rackName_no_main_rack (g : Globals) (partOrder : PartOrder) :
  mainRacks g !! ProductID partOrder = None ->
  rackName g partOrder = map_index "" (racksNames g) 0.
Proof. intros Hm. unfold rackName, map_index at 2. by rewrite Hm. Qed.

Lemma byid_headers_ascending (ro : RangeOrder) (g : Globals)
    (racks : gmap string (list PartOrder)) :
  range_ok ro ->
  exists names,
    StronglySorted String.le names /\ NoDup names
    /\ (forall k, k ∈ names <-> is_Some (racks !! k))
    /\ printRacksAndOrders ro g racks
       = (fmt_Println "=+=+=+=" ;;;
          for_each (fun rackName =>
                      fmt_Print ("===Стеллаж " ++ rackName ++ nl) ;;;
                      for_each (printPartOrder g) (map_index [] racks rackName))
                   names).
Proof.
  intros Hro. exists (getSortedRacksNames ro racks).
  destruct (sorted_keys ro racks Hro) as (Hs & Hn & Hk).
  split; [exact Hs|]. split; [exact Hn|]. split; [exact Hk|]. reflexivity.
Qed.
End ByRackIDFacts.

(** ** Further properties of the report *)

Module ReportFacts.
Import Go GoFacts.

Lemma concat_nil_cons (x : string) (l : list string) :
  String.concat "" (x :: l) = x ++ String.concat "" l.
Proof. destruct l; [by rewrite string_app_nil_r|done]. Qed.

(** A loop whose body never stops the run prints the bodies' texts one
    after the other. *)
Lemma for_each_total {A : Type} (f : A -> Out unit) (l : list A) :
  (forall x, x ∈ l -> outcome (f x) = inl tt) ->
  for_each f l = (String.concat "" ((fun x => stdout (f x)) <$> l), inl tt).
Proof.
  induction l as [|x l IH]; intros Hf; [done|].
  rewrite fmap_cons, concat_nil_cons. simpl.
  pose proof (Hf x ltac:(left)) as Hx. destruct (f x) as [o r]. simpl in Hx.
  subst r. unfold bind. rewrite IH; [done|]. intros y Hy. apply Hf. by right.
Qed.

Lemma main_printPartOrder_total (g : Main.Globals) (p : Main.PartOrder) :
  outcome (Main.printPartOrder g p) = inl tt.
Proof.
  unfold Main.printPartOrder. rewrite MainFacts.main_printSecondary_out.
  by destruct (map_index [] (Main.secondaryRacks g) (Main.ID (Main.Prod p))).
Qed.

Lemma byid_printPartOrder_total (g : ByRackID.Globals) (p : ByRackID.PartOrder) :
  outcome (ByRackID.printPartOrder g p) = inl tt.
Proof.
  unfold ByRackID.printPartOrder. rewrite ByRackIDFacts.byid_printSecondary_out.
  by destruct (map_index [] (ByRackID.secondaryRacks g) (ByRackID.ProductID p)).
Qed.

Lemma item_printSecondary_out (names : list string) :
  PerItem.printSecondary names
  = match names with
    | [] => ret tt
    | _ => ("доп стеллаж: " ++ String.concat "," names ++ nl, inl tt)
    end.
Proof.
  destruct names as [|n names]; [done|].
  unfold PerItem.printSecondary.
  change (0 <? length (n :: names))%nat with true. cbv iota.
  pose proof (join_loop_slice id (n :: names) ltac:(done)) as H.
  rewrite list_fmap_id in H. unfold PerItem.joinRacks.
  match goal with |- context [slice_to ?s ?i] =>
    replace (slice_to s i) with (Some (String.concat "," (n :: names))) end.
  unfold fmt_Print, fmt_Println. by rewrite bind_ret_l.
Qed.

Lemma item_printPartOrder_total (h : list PerItem.Product) (p : PerItem.PartOrder) :
  outcome (PerItem.printPartOrder h p) = inl tt.
Proof.
  unfold PerItem.printPartOrder. rewrite item_printSecondary_out.
  by destruct (PerItem.SecondaryRacks (PerItem.deref h (PerItem.PO_Product p))).
Qed.

Lemma main_printRack_out (g : Main.Globals) racks (k : string) :
  Main.printRack g racks k
  = ("===Стеллаж " ++ k ++ nl
       ++ String.concat "" ((fun p => stdout (Main.printPartOrder g p))
                              <$> map_index [] racks k),
     inl tt).
Proof.
  unfold Main.printRack. rewrite for_each_total.
  { unfold fmt_Print, bind. by rewrite !string_app_assoc. }
  intros p _. apply main_printPartOrder_total.
Qed.

Lemma byid_printRack_out (g : ByRackID.Globals) racks (k : string) :
  ByRackID.printRack g racks k
  = ("===Стеллаж " ++ k ++ nl
       ++ String.concat "" ((fun p => stdout (ByRackID.printPartOrder g p))
                              <$> map_index [] racks k),
     inl tt).
Proof.
  unfold ByRackID.printRack. rewrite for_each_total.
  { unfold fmt_Print, bind. by rewrite !string_app_assoc. }
  intros p _. apply byid_printPartOrder_total.
Qed.

Lemma item_printRack_out (h : list PerItem.Product) (e : string * list PerItem.PartOrder) :
  PerItem.printRack h e
  = ("===Стеллаж " ++ e.1 ++ nl
       ++ String.concat "" ((fun p => stdout (PerItem.printPartOrder h p)) <$> e.2),
     inl tt).
Proof.
  unfold PerItem.printRack. rewrite for_each_total.
  { unfold fmt_Print, bind. by rewrite !string_app_assoc. }
  intros p _. apply item_printPartOrder_total.
Qed.

Lemma main_print_out (ro : RangeOrder) (g : Main.Globals) racks :
  Main.printRacksAndOrders ro g racks
  = ("=+=+=+=" ++ nl
       ++ String.concat ""
            ((fun k => stdout (Main.printRack g racks k))
               <$> Main.getSortedRacksNames ro racks),
     inl tt).
Proof.
  unfold Main.printRacksAndOrders. rewrite for_each_total.
  { unfold fmt_Println, bind. by rewrite !string_app_assoc. }
  intros k _. by rewrite main_printRack_out.
Qed.

Lemma byid_print_out (ro : RangeOrder) (g : ByRackID.Globals) racks :
  ByRackID.printRacksAndOrders ro g racks
  = ("=+=+=+=" ++ nl
       ++ String.concat ""
            ((fun k => stdout (ByRackID.printRack g racks k))
               <$> ByRackID.getSortedRacksNames ro racks),
     inl tt).
Proof.
  unfold ByRackID.printRacksAndOrders. rewrite for_each_total.
  { unfold fmt_Println, bind. by rewrite !string_app_assoc. }
  intros k _. by rewrite byid_printRack_out.
Qed.

Lemma item_print_out (ro : RangeOrder) (h : list PerItem.Product) racks :
  PerItem.printRacksAndOrders ro h racks
  = ("=+=+=+=" ++ nl
       ++ String.concat "" ((fun e => stdout (PerItem.printRack h e)) <$> range ro racks),
     inl tt).
Proof.
  unfold PerItem.printRacksAndOrders. rewrite for_each_total.
  { unfold fmt_Println, bind. by rewrite !string_app_assoc. }
  intros k _. by rewrite item_printRack_out.
Qed.
End ReportFacts.

(** ** Further properties of the grouping *)

Module GroupFacts.
Import Go GoFacts.

Section Grouping.
Context {A : Type} (key : A -> string).

(** The loop both batch variants run over one order's line items. *)
Lemma group_step_lookup (l : list A) :
  forall (racks : gmap string (list A)) (k : string),
    foldl (fun racks x => <[key x := (map_index [] racks (key x) ++ [x])%list]> racks)
          racks l !! k
    = match filter (fun x => key x = k) l with
      | [] => racks !! k
      | new => Some (map_index [] racks k ++ new)%list
      end.
Proof.
  induction l as [|x l IH]; intros racks k; [done|].
  simpl. rewrite IH. rewrite filter_cons. unfold map_index.
  destruct (decide (key x = k)) as [->|Hne].
  - rewrite lookup_insert_eq. simpl.
    destruct (filter _ l); simpl.
    + done.
    + by rewrite <- app_assoc.
  - by rewrite lookup_insert_ne.
Qed.

Lemma group_all_lookup (entries : list (Z * list A)) :
  forall (racks : gmap string (list A)) (k : string),
    foldl (fun racks (entry : Z * list A) =>
             foldl (fun racks x =>
                      <[key x := (map_index [] racks (key x) ++ [x])%list]> racks)
                   racks entry.2)
          racks entries !! k
    = match filter (fun x => key x = k) (mjoin entries.*2) with
      | [] => racks !! k
      | new => Some (map_index [] racks k ++ new)%list
      end.
Proof.
  induction entries as [|e entries IH]; intros racks k; [done|].
  change (mjoin (e :: entries).*2) with (e.2 ++ mjoin entries.*2)%list.
  cbn [foldl]. rewrite IH, filter_app.
  pose proof (group_step_lookup e.2 racks k) as Hs.
  unfold map_index in *. rewrite !Hs.
  destruct (filter (fun x => key x = k) e.2) as [|a l1];
    destruct (filter (fun x => key x = k) (mjoin entries.*2)) as [|b l2]; simpl.
  - done.
  - done.
  - by rewrite app_nil_r.
  - by rewrite <- app_assoc.
Qed.
End Grouping.

Lemma main_groupOrdersByRack_lookup (ro : RangeOrder) (g : Main.Globals)
    (orders : gmap Z (list Main.PartOrder)) (k : string) :
  (Main.groupOrdersByRack ro g orders).1 !! k
  = match filter (fun p => Main.rackName g p = k) (mjoin (range ro orders).*2) with
    | [] => None
    | items => Some items
    end.
Proof.
  unfold Main.groupOrdersByRack, Main.groupParts. simpl.
  rewrite (group_all_lookup (Main.rackName g)).
  by destruct (filter _ _).
Qed.

Lemma byid_groupOrdersByRack_lookup (ro : RangeOrder) (g : ByRackID.Globals)
    (orders : gmap Z (list ByRackID.PartOrder)) (k : string) :
  (ByRackID.groupOrdersByRack ro g orders).1 !! k
  = match filter (fun p => ByRackID.rackName g p = k) (mjoin (range ro orders).*2) with
    | [] => None
    | items => Some items
    end.
Proof.
  unfold ByRackID.groupOrdersByRack, ByRackID.groupParts. simpl.
  rewrite (group_all_lookup (ByRackID.rackName g)).
  by destruct (filter _ _).
Qed.

Lemma filter_nil_iff {A : Type} (P : A -> Prop) `{forall x, Decision (P x)}
    (l : list A) :
  filter P l = [] <-> forall x, x ∈ l -> ~ P x.
Proof.
  split.
  - intros Hf x Hx HP. assert (x ∈ filter P l) by (by apply list_elem_of_filter).
    rewrite Hf in H0. by apply elem_of_nil in H0.
  - intros Hn. destruct (filter P l) as [|x l'] eqn:E; [done|].
    assert (Hx : x ∈ filter P l) by (rewrite E; left).
    apply list_elem_of_filter in Hx as [HP Hx]. by destruct (Hn x Hx).
Qed.
End GroupFacts.

(** ** Further properties of the loading functions *)

Module LoadFacts.
Import Go GoFacts.

Lemma scanned_cons {T : Type} (r : T) (rows : list (Scan T)) :
  scanned (Scanned r :: rows) = r :: scanned rows.
Proof. done. Qed.

(** The loop of [getOrders] reads every row or reports the first row that
    does not scan. *)
Lemma main_getOrders_rows_all_scanned (rows : list (Scan Main.OrdersRow)) :
  forall orders g m g',
    Main.getOrders_rows rows orders g = (Ok m, g') ->
    rows = Scanned <$> scanned rows.
Proof.
  induction rows as [|[r|e] rows IH]; intros orders g m g' Hg; [done| |done].
  simpl in Hg. rewrite scanned_cons. simpl. f_equal. by eapply IH.
Qed.

Lemma main_getOrders_rows_scan_err (rows : list (Scan Main.OrdersRow)) :
  forall orders g,
    (exists e, (Main.getOrders_rows rows orders g).1 = Err e)
    <-> exists e, ScanErr e ∈ rows.
Proof.
  induction rows as [|[r|e] rows IH]; intros orders g; simpl.
  - split; intros [e H]; [done|by apply elem_of_nil in H].
  - rewrite IH. split; intros [e H]; exists e; [by right|].
    by apply elem_of_cons in H as [?|?].
  - split; intros _; eexists; [left|done].
Qed.

Lemma main_getOrders_rows_content (rs : list Main.OrdersRow) :
  forall orders g m g',
    Main.getOrders_rows (Scanned <$> rs) orders g = (Ok m, g') ->
    (forall id,
        m !! id
        = match filter (fun r => Main.o_id r = id) rs with
          | [] => orders !! id
          | new =>
              Some (map_index [] orders id
                      ++ ((fun r => {| Main.OrderID := Main.o_id r;
                                       Main.Prod := {| Main.ID := Main.o_product_id r;
                                                       Main.Name := Main.p_name r |};
                                       Main.Quantity := Main.o_quantity r |})
                            <$> new))%list
          end)
    /\ (forall pid,
           Main.mainRacks g' !! pid
           = if decide (pid ∈ Main.o_product_id <$> rs) then Some ""
             else Main.mainRacks g !! pid)
    /\ Main.secondaryRacks g' = Main.secondaryRacks g.
Proof.
  induction rs as [|r rs IH]; intros orders g m g' Hg.
  - injection Hg as <- <-. split; [done|]. split; [|done]. intros pid.
    rewrite decide_False; [done|]. apply not_elem_of_nil.
  - rewrite fmap_cons in Hg. simpl in Hg. apply IH in Hg as (Hm & Hr & Hs).
    simpl in *. split; [|split; [|done]].
    + intros id. rewrite Hm, filter_cons. unfold map_index.
      destruct (decide (Main.o_id r = id)) as [->|Hne].
      * rewrite lookup_insert_eq. simpl.
        destruct (filter _ rs); simpl; [done|]. by rewrite <- app_assoc.
      * by rewrite lookup_insert_ne.
    + intros pid. rewrite Hr.
      destruct (decide (pid ∈ Main.o_product_id <$> rs)) as [Hin|Hn].
      * rewrite decide_True; [done|by right].
      * destruct (decide (Main.o_product_id r = pid)) as [->|Hne].
        -- rewrite lookup_insert_eq. rewrite decide_True; [done|by left].
        -- rewrite lookup_insert_ne by done. rewrite decide_False; [done|].
           intros [Heq|Hin]%elem_of_cons; [by symmetry in Heq|done].
Qed.

(** The loop of [initRacks]: a later main row of a product replaces an
    earlier one. *)
Lemma main_initRacks_rows_last (rs : list Main.RacksRow) (pid : Z) :
  forall g,
    Main.mainRacks (Main.initRacks_rows (Scanned <$> rs) g).2 !! pid
    = match last (Main.mainRows rs pid) with
      | Some r => Some (Main.name r)
      | None => Main.mainRacks g !! pid
      end.
Proof.
  induction rs as [|r rs IH]; intros g; [done|].
  unfold Main.mainRows. rewrite filter_cons. simpl.
  destruct (Main.is_main r) eqn:Em.
  - rewrite IH. simpl. unfold Main.mainRows.
    destruct (decide (Main.product_id r = pid /\ true = true)) as [[-> _]|Hn].
    + rewrite last_cons. destruct (last _); [done|]. by rewrite lookup_insert_eq.
    + destruct (last _); [done|]. apply lookup_insert_ne. naive_solver.
  - rewrite IH. simpl. unfold Main.mainRows.
    rewrite decide_False by (intros [_ ?]; done). done.
Qed.

Lemma main_initRacks_rows_all_scanned (rows : list (Scan Main.RacksRow)) :
  forall g g',
    Main.initRacks_rows rows g = (None, g') -> rows = Scanned <$> scanned rows.
Proof.
  induction rows as [|[r|e] rows IH]; intros g g' Hg; [done| |done].
  simpl in Hg. rewrite scanned_cons. simpl. f_equal.
  destruct (Main.is_main r); by eapply IH.
Qed.

(** The loop of [initRacks] in the variant keyed by rack ID collects the
    rack of every row. *)
Lemma byid_initRacks_rows_ok (rs : list ByRackID.ProductRackRow) :
  forall rackIDs g,
    exists g',
      ByRackID.initRacks_rows (Scanned <$> rs) rackIDs g
      = (None, (rackIDs ++ (ByRackID.pr_rack_id <$> rs))%list, g')
      /\ ByRackID.racksNames g' = ByRackID.racksNames g
      /\ ByRackID.productsNames g' = ByRackID.productsNames g.
Proof.
  induction rs as [|r rs IH]; intros rackIDs g.
  - exists g. by rewrite app_nil_r.
  - rewrite fmap_cons. simpl.
    match goal with |- context [ByRackID.initRacks_rows _ ?ids ?g0] =>
      destruct (IH ids g0) as (g' & Hg & Hn & Hp) end.
    exists g'. rewrite Hg, <- app_assoc. split; [done|].
    rewrite Hn, Hp. by destruct (ByRackID.is_main r).
Qed.
End LoadFacts.

(** ** Further properties of the parsing of order IDs *)

Module AtoiFacts.
Import Go GoFacts ParseFacts.

Lemma Split_nonempty (s : string) : Split s "," <> [].
Proof.
  destruct s as [|c s]; [done|]. simpl.
  destruct (Ascii.eqb c ","); [done|]. by destruct (Split s ",").
Qed.

Lemma Split_app_comma (s1 s2 : string) :
  Split (s1 ++ "," ++ s2) "," = (Split s1 "," ++ Split s2 ",")%list.
Proof.
  induction s1 as [|c s1 IH]; [done|].
  change (String c s1 ++ "," ++ s2) with (String c (s1 ++ "," ++ s2)).
  simpl Split. rewrite IH. destruct (Ascii.eqb c ","); [done|].
  pose proof (Split_nonempty s1). by destruct (Split s1 ",").
Qed.

Lemma byte_of_bound (c : ascii) : 0 <= byte_of c < 256.
Proof.
  unfold byte_of. pose proof (N_ascii_bounded c). lia.
Qed.

Lemma Atoi_fast_spec (s : string) :
  forall n, Atoi_fast s n = if all_digits s then Some (dec_value s n) else None.
Proof.
  induction s as [|c s IH]; intros n; [done|]. simpl.
  pose proof (byte_of_bound c) as Hb. unfold is_digit.
  destruct (Z.leb_spec 48 (byte_of c)) as [H1|H1];
    destruct (Z.leb_spec (byte_of c) 57) as [H2|H2]; simpl.
  - rewrite (Z.mod_small (byte_of c - 48)) by lia.
    rewrite (proj2 (Z.ltb_ge 9 _)) by lia. apply IH.
  - rewrite (Z.mod_small (byte_of c - 48)) by lia.
    by rewrite (proj2 (Z.ltb_lt 9 _)) by lia.
  - replace ((byte_of c - 48) mod 256) with (byte_of c + 208)
      by (apply Z.mod_unique with (-1); lia).
    by rewrite (proj2 (Z.ltb_lt 9 _)) by lia.
  - lia.
Qed.

Lemma after_digits_all (s : string) :
  all_digits s = true -> after_digits s = "".
Proof.
  induction s as [|c s IH]; [done|]. simpl.
  destruct (is_digit c); [exact IH|done].
Qed.

Lemma dec_value_bound (s : string) :
  forall (n : Z) (k : nat),
    0 <= n < 10 ^ Z.of_nat k ->
    0 <= dec_value s n < 10 ^ Z.of_nat (k + String.length s).
Proof.
  induction s as [|c s IH]; intros n k Hn; simpl.
  - by rewrite Nat.add_0_r.
  - assert (Hpow : 10 ^ Z.of_nat k <= 10 ^ Z.of_nat (k + S (String.length s)))
      by (apply Z.pow_le_mono_r; lia).
    destruct (is_digit c) eqn:Ec; [|lia].
    pose proof (is_digit_val c Ec) as Hd.
    replace (k + S (String.length s))%nat with (S k + String.length s)%nat by lia.
    apply IH. rewrite Nat2Z.inj_succ, Z.pow_succ_r by lia. lia.
Qed.

(** What a token that spells a decimal integer is parsed to: its value,
    or the bound of [int64] on its side when the value does not fit. *)
Lemma ParseInt_numeric_value (tok : string) :
  numeric tok = true ->
  ParseInt tok
  = let v := dec_value (unsigned_part tok) 0 in
    if is_negative tok
    then (if 2 ^ 63 <? v then (- 2 ^ 63, Some ErrRange) else (- v, None))
    else (if 2 ^ 63 <=? v then (2 ^ 63 - 1, Some ErrRange) else (v, None)).
Proof.
  destruct tok as [|c rest]; [done|]. unfold numeric, ParseInt, unsigned_part, is_negative.
  intros Hn.
  destruct (if Ascii.eqb c "+" || Ascii.eqb c "-" then rest else String c rest)
    as [|c' body] eqn:Eb.
  { destruct (Ascii.eqb c "+" || Ascii.eqb c "-"); [subst rest; done|done]. }
  assert (Hd : all_digits (String c' body) = true).
  { destruct (Ascii.eqb c "+" || Ascii.eqb c "-"); rewrite Eb in Hn; exact Hn. }
  unfold ParseUint. rewrite ParseUint_loop_spec by (unfold maxUint64; lia).
  rewrite (after_digits_all _ Hd).
  pose proof (dec_value_ge (String c' body) 0 ltac:(lia)) as Hge.
  cbv zeta. set (v := dec_value (String c' body) 0) in *.
  unfold maxUint64. change (2 ^ 63) with 9223372036854775808.
  destruct (Z.ltb_spec 18446744073709551615 v) as [Hbig|Hsmall].
  - rewrite (proj2 (Z.leb_le 9223372036854775808 18446744073709551615)) by lia.
    rewrite (proj2 (Z.ltb_lt 9223372036854775808 18446744073709551615)) by lia.
    rewrite (proj2 (Z.ltb_lt 9223372036854775808 v)) by lia.
    rewrite (proj2 (Z.leb_le 9223372036854775808 v)) by lia.
    by destruct (Ascii.eqb c "-").
  - destruct (Ascii.eqb c "-"); simpl.
    + by destruct (9223372036854775808 <? v).
    + by destruct (9223372036854775808 <=? v).
Qed.

(** The fast path of [Atoi] agrees with [ParseInt]. *)
Lemma Atoi_ParseInt (s : string) : Atoi s = ParseInt s.
Proof.
  unfold Atoi.
  destruct ((0 <? String.length s)%nat && (String.length s <? 19)%nat) eqn:El; [|done].
  apply andb_prop in El as [_ Hlt]. apply Nat.ltb_lt in Hlt.
  destruct s as [|c rest]; [done|].
  unfold ParseInt.
  assert (Hsign : (Ascii.eqb c "-" || Ascii.eqb c "+")
                  = (Ascii.eqb c "+" || Ascii.eqb c "-"))
    by (by destruct (Ascii.eqb c "-"), (Ascii.eqb c "+")).
  rewrite Hsign.
  set (body := if Ascii.eqb c "+" || Ascii.eqb c "-" then rest else String c rest).
  assert (Hlen : (String.length body <= 18)%nat).
  { unfold body. destruct (Ascii.eqb c "+" || Ascii.eqb c "-"); simpl in *; lia. }
  destruct body as [|c' body'] eqn:Eb.
  { unfold body in Eb. destruct (Ascii.eqb c "+" || Ascii.eqb c "-"); [done|done]. }
  assert (Hnot : (Ascii.eqb c "+" || Ascii.eqb c "-")
                 && (String.length (String c' body') <? 1)%nat = false)
    by (by rewrite andb_false_r).
  rewrite Hnot. rewrite Atoi_fast_spec.
  unfold ParseUint. rewrite ParseUint_loop_spec by (unfold maxUint64; lia).
  pose proof (dec_value_bound (String c' body') 0 0 ltac:(simpl; lia)) as Hv.
  assert (Hp : 10 ^ Z.of_nat (0 + String.length (String c' body')) <= 10 ^ 18)
    by (apply Z.pow_le_mono_r; lia).
  change (10 ^ 18) with 1000000000000000000 in Hp.
  set (v := dec_value (String c' body') 0) in *.
  unfold maxUint64. rewrite (proj2 (Z.ltb_ge 18446744073709551615 v)) by lia.
  destruct (all_digits (String c' body')) eqn:Ed.
  - rewrite (after_digits_all _ Ed). change (2 ^ 63) with 9223372036854775808.
    rewrite (proj2 (Z.leb_gt 9223372036854775808 v)) by lia.
    rewrite (proj2 (Z.ltb_ge 9223372036854775808 v)) by lia.
    by rewrite !andb_false_r.
  - pose proof (all_digits_after _ Ed) as Ha.
    by destruct (after_digits (String c' body')).
Qed.
End AtoiFacts.

(** ** Further properties of the per-item variant *)

Module HeapFacts.
Import Go GoFacts PerItem.

(** The record a product becomes when names are appended to its
    [SecondaryRacks] through a pointer. *)
Lemma appendSecondary_length (h : list Product) (q : nat) (n : string) :
  length (appendSecondary h q n) = length h.
Proof. unfold appendSecondary. by rewrite length_insert. Qed.

Lemma appendSecondary_other (h : list Product) (q p : nat) (n : string) :
  p <> q -> appendSecondary h q n !! p = h !! p.
Proof. intros Hne. unfold appendSecondary. by rewrite list_lookup_insert_ne. Qed.

Lemma appendSecondary_same (h : list Product) (q : nat) (n : string) :
  (q < length h)%nat ->
  deref (appendSecondary h q n) q
  = {| ID := ID (deref h q); Name := Name (deref h q);
       Quantity := Quantity (deref h q);
       SecondaryRacks := (SecondaryRacks (deref h q) ++ [n])%list |}.
Proof.
  intros Hq. unfold appendSecondary. unfold deref at 1.
  by rewrite list_lookup_insert_eq.
Qed.

Lemma appendSecondary_all (q : nat) (rs : list sqlcRack) :
  forall (h : list Product),
    (q < length h)%nat ->
    let h' := foldl (fun h r => appendSecondary h q (Rack_Name r)) h rs in
    length h' = length h
    /\ (forall p, p <> q -> h' !! p = h !! p)
    /\ deref h' q
       = {| ID := ID (deref h q); Name := Name (deref h q);
            Quantity := Quantity (deref h q);
            SecondaryRacks := (SecondaryRacks (deref h q) ++ (Rack_Name <$> rs))%list |}.
Proof.
  induction rs as [|r rs IH]; intros h Hq; simpl.
  - split; [done|]. split; [done|]. rewrite app_nil_r. by destruct (deref h q).
  - destruct (IH (appendSecondary h q (Rack_Name r))) as (Hl & Ho & Hd).
    { by rewrite appendSecondary_length. }
    split; [by rewrite Hl, appendSecondary_length|]. split.
    + intros p Hne. by rewrite Ho, appendSecondary_other.
    + rewrite Hd, !(appendSecondary_same h q (Rack_Name r) Hq). simpl.
      by rewrite <- app_assoc.
Qed.

(** The heap after the loops of [groupOrdersByRack], when each product is
    visited once through a valid pointer. *)
Lemma groupProducts_heap (store : Store) (oid : Z) (products : list nat) :
  forall racks h racks' h',
    NoDup products -> (forall p, p ∈ products -> (p < length h)%nat) ->
    groupProducts store oid products racks h = (Ok racks', h') ->
    length h' = length h
    /\ (forall p, p ∉ products -> h' !! p = h !! p)
    /\ (forall p, p ∈ products ->
          exists rs, GetSecondaryRacks store (ID (deref h p)) = Ok rs
            /\ deref h' p
               = {| ID := ID (deref h p); Name := Name (deref h p);
                    Quantity := Quantity (deref h p);
                    SecondaryRacks :=
                      (SecondaryRacks (deref h p) ++ (Rack_Name <$> rs))%list |}).
Proof.
  induction products as [|q products IH]; intros racks h racks' h' Hnd Hv Hg;
    simpl in Hg.
  - injection Hg as _ <-. split; [done|]. split; [done|].
    intros p Hp. by apply elem_of_nil in Hp.
  - apply NoDup_cons in Hnd as [Hq Hnd].
    destruct (GetMainRack store (ID (deref h q))) as [rack|]; [|done].
    destruct (GetSecondaryRacks store (ID (deref h q))) as [rs|] eqn:Es; [|done].
    destruct (appendSecondary_all q rs h) as (Hl1 & Ho1 & Hd1); [apply Hv; left|].
    apply IH in Hg as (Hl & Ho & Hd); [|done|].
    2:{ intros p Hp. rewrite Hl1. apply Hv. by right. }
    split; [by rewrite Hl, Hl1|]. split.
    + intros p Hp. apply not_elem_of_cons in Hp as [Hne Hp].
      by rewrite (Ho p Hp), Ho1.
    + intros p Hp. apply elem_of_cons in Hp as [->|Hp].
      * exists rs. split; [done|]. unfold deref at 1. rewrite (Ho q Hq).
        exact Hd1.
      * assert (Hne : p <> q) by (intros ->; done).
        assert (Hsame : deref (foldl (fun h r => appendSecondary h q (Rack_Name r)) h rs) p
                        = deref h p) by (unfold deref; by rewrite Ho1).
        destruct (Hd p Hp) as (rs' & Hrs' & Hp'). rewrite Hsame in Hrs', Hp'.
        by exists rs'.
Qed.

Lemma groupOrders_heap (store : Store) (entries : list (Z * list nat)) :
  forall racks h racks' h',
    NoDup (mjoin entries.*2) ->
    (forall p, p ∈ mjoin entries.*2 -> (p < length h)%nat) ->
    groupOrders store entries racks h = (Ok racks', h') ->
    length h' = length h
    /\ (forall p, p ∉ mjoin entries.*2 -> h' !! p = h !! p)
    /\ (forall p, p ∈ mjoin entries.*2 ->
          exists rs, GetSecondaryRacks store (ID (deref h p)) = Ok rs
            /\ deref h' p
               = {| ID := ID (deref h p); Name := Name (deref h p);
                    Quantity := Quantity (deref h p);
                    SecondaryRacks :=
                      (SecondaryRacks (deref h p) ++ (Rack_Name <$> rs))%list |}).
Proof.
  induction entries as [|[oid ps] entries IH]; intros racks h racks' h' Hnd Hv Hg.
  - injection Hg as _ <-. split; [done|]. split; [done|].
    intros p Hp. by apply elem_of_nil in Hp.
  - change (mjoin ((oid, ps) :: entries).*2) with (ps ++ mjoin entries.*2)%list in *.
    apply NoDup_app in Hnd as (Hps & Hdis & Hrest). simpl in Hg.
    destruct (groupProducts store oid ps racks h) as [[racks1|e] h1] eqn:E; [|done].
    apply groupProducts_heap in E as (Hl1 & Ho1 & Hd1); [|done|].
    2:{ intros p Hp. apply Hv. apply elem_of_app. by left. }
    apply IH in Hg as (Hl & Ho & Hd); [|done|].
    2:{ intros p Hp. rewrite Hl1. apply Hv. apply elem_of_app. by right. }
    split; [by rewrite Hl, Hl1|]. split.
    + intros p Hp. apply not_elem_of_app in Hp as [Hp1 Hp2].
      by rewrite (Ho p Hp2), Ho1.
    + intros p Hp. apply elem_of_app in Hp as [Hp|Hp].
      * destruct (Hd1 p Hp) as (rs & Hrs & Hp1). exists rs. split; [done|].
        unfold deref at 1. rewrite (Ho p (Hdis p Hp)). exact Hp1.
      * assert (Hnp : p ∉ ps) by (intros Hin; by apply (Hdis p Hin)).
        assert (Hsame : deref h1 p = deref h p) by (unfold deref; by rewrite Ho1).
        destruct (Hd p Hp) as (rs & Hrs & Hp'). rewrite Hsame in Hrs, Hp'.
        by exists rs.
Qed.

(** What [getOrders] keeps true of the cache, the heap and the map of
    orders. *)
Lemma getProductName_cache (store : Store) (id : Z) (st st' : State) (name : string) :
  cache_ok store (productsName st) ->
  getProductName store id st = (Ok name, st') ->
  cache_ok store (productsName st')
  /\ heap st' = heap st
  /\ exists sp, GetProduct store id = Ok sp /\ Product_Name sp = name.
Proof.
  intros Hc. unfold getProductName.
  destruct (productsName st !! id) as [n|] eqn:Ec.
  - intros [= <- <-]. split; [done|]. split; [done|]. by apply Hc.
  - destruct (GetProduct store id) as [sp|e] eqn:Ep; [|done].
    unfold map_index. rewrite lookup_insert_eq. simpl. intros [= <- <-]. simpl.
    split; [|split; [done|by exists sp]].
    intros i n. rewrite lookup_insert. case_decide as Hi.
    + subst i. intros [= <-]. by exists sp.
    + apply Hc.
Qed.

Lemma getOrders_products_full (store : Store) (rows : list sqlcOrder) :
  forall products st ps st',
    cache_ok store (productsName st) ->
    getOrders_products store rows products st = (Ok ps, st') ->
    cache_ok store (productsName st')
    /\ ps = (products ++ seq (length (heap st)) (length rows))%list
    /\ exists added,
        heap st' = (heap st ++ added)%list
        /\ Forall2 (row_product store) added rows.
Proof.
  induction rows as [|row rows IH]; intros products st ps st' Hc Hg; simpl in Hg.
  - injection Hg as <- <-. split; [done|]. split; [by rewrite app_nil_r|].
    exists []. by rewrite app_nil_r.
  - destruct (getProductName store (Order_ProductID row) st) as [[name|e] st1] eqn:En;
      [|done].
    apply (getProductName_cache _ _ _ _ _ Hc) in En as (Hc1 & Hh1 & sp & Hsp & Hname).
    simpl in Hg. apply IH in Hg as (Hc' & -> & added & Hh & Hadd); [|done].
    simpl in Hh. rewrite Hh1 in Hh. simpl. rewrite length_app, Hh1. simpl.
    split; [done|]. split.
    { rewrite <- app_assoc. simpl. do 3 f_equal. lia. }
    eexists. rewrite <- app_assoc in Hh. split; [exact Hh|].
    constructor; [|done]. unfold row_product. simpl.
    split; [done|]. split; [done|]. split; [done|]. by exists sp.
Qed.

Lemma seq_holds {R : Product -> sqlcOrder -> Prop} (added : list Product)
    (rows : list sqlcOrder) :
  Forall2 R added rows ->
  forall pre : list Product,
    Forall2 (fun p row => exists prod, (pre ++ added)%list !! p = Some prod /\ R prod row)
            (seq (length pre) (length rows)) rows.
Proof.
  induction 1 as [|x r added rows Hx Hrest IH]; intros pre; [constructor|].
  simpl. constructor.
  - exists x. split; [|done]. by rewrite list_lookup_middle.
  - specialize (IH (pre ++ [x])%list). rewrite length_app in IH. simpl in IH.
    rewrite <- app_assoc in IH. simpl in IH.
    by replace (length pre + 1)%nat with (S (length pre)) in IH by lia.
Qed.

Lemma getOrders_ids_full (store : Store) (ids : list Z) :
  forall orders st m st',
    cache_ok store (productsName st) ->
    orders_loaded store orders (heap st) ->
    (forall oid ps p, orders !! oid = Some ps -> p ∈ ps -> (p < length (heap st))%nat) ->
    getOrders_ids store ids orders st = (Ok m, st') ->
    cache_ok store (productsName st')
    /\ orders_loaded store m (heap st')
    /\ (forall oid ps p, m !! oid = Some ps -> p ∈ ps -> (p < length (heap st'))%nat)
    /\ (forall oid, oid ∉ ids -> m !! oid = orders !! oid)
    /\ (forall oid, oid ∈ ids -> is_Some (m !! oid)).
Proof.
  induction ids as [|oid0 ids IH]; intros orders st m st' Hc Hl Hv Hg; simpl in Hg.
  - injection Hg as <- <-. split; [done|]. split; [done|]. split; [done|].
    split; [done|]. intros oid Ho. by apply elem_of_nil in Ho.
  - destruct (GetOrder store oid0) as [rows0|e] eqn:Eo; [|done].
    destruct (getOrders_products store rows0 [] st) as [[ps0|e] st1] eqn:Ep; [|done].
    apply (getOrders_products_full _ _ _ _ _ _ Hc) in Ep
      as (Hc1 & -> & added & Hh1 & Hadd). simpl in Hg.
    pose proof (Forall2_length _ _ _ Hadd) as Hlen.
    apply IH in Hg as (Hc' & Hl' & Hv' & Hout & Hin); [| done | |].
    + split; [done|]. split; [done|]. split; [done|]. split.
      * intros oid Hn. apply not_elem_of_cons in Hn as [Hne Hn].
        rewrite (Hout oid Hn). by rewrite lookup_insert_ne.
      * intros oid Ho. destruct (decide (oid ∈ ids)) as [Hi|Hn]; [by apply Hin|].
        apply elem_of_cons in Ho as [->|Ho]; [|done].
        rewrite (Hout oid0 Hn), lookup_insert_eq. by eexists.
    + destruct Hl as [Hcont Hdis]. split.
      * intros oid ps. rewrite lookup_insert. case_decide as Ho.
        -- subst oid. intros [= <-]. split; [apply NoDup_seq|].
           exists rows0. split; [done|]. rewrite Hh1. by apply seq_holds.
        -- intros Hps. destruct (Hcont oid ps Hps) as (Hnd & rows & Hr & Hf).
           split; [done|]. exists rows. split; [done|].
           eapply Forall2_impl; [exact Hf|]. intros p row (prod & Hp & Hrp).
           exists prod. split; [|done]. rewrite Hh1. by apply lookup_app_l_Some.
      * intros oid1 oid2 ps1 ps2 p Hne. rewrite !lookup_insert.
        case_decide as H1; case_decide as H2; subst.
        -- done.
        -- intros [= <-] Hps2 Hp Hp2. apply elem_of_seq in Hp.
           pose proof (Hv _ _ _ Hps2 Hp2). lia.
        -- intros Hps1 [= <-] Hp Hp2. apply elem_of_seq in Hp2.
           pose proof (Hv _ _ _ Hps1 Hp). lia.
        -- by apply Hdis.
    + intros oid ps p. rewrite lookup_insert. case_decide as Ho.
      * subst oid. intros [= <-] Hp. apply elem_of_seq in Hp.
        rewrite Hh1, length_app. lia.
      * intros Hps Hp. pose proof (Hv _ _ _ Hps Hp). rewrite Hh1, length_app. lia.
Qed.

(** No address occurs twice among the line items of loaded orders. *)
Lemma NoDup_join_entries (l : list (Z * list nat)) :
  NoDup l.*1 ->
  (forall k ps, (k, ps) ∈ l -> NoDup ps) ->
  (forall k1 k2 ps1 ps2 p, k1 <> k2 -> (k1, ps1) ∈ l -> (k2, ps2) ∈ l ->
                           p ∈ ps1 -> p ∉ ps2) ->
  NoDup (mjoin l.*2).
Proof.
  induction l as [|[k ps] l IH]; intros Hk Hnd Hdis; [constructor|].
  change (mjoin ((k, ps) :: l).*2) with (ps ++ mjoin l.*2)%list.
  simpl in Hk. apply NoDup_cons in Hk as [Hk Hks].
  apply NoDup_app. split; [apply (Hnd k); left|]. split.
  - intros p Hp Hin. apply list_elem_of_join in Hin as (ps' & Hp' & Hin).
    apply list_elem_of_fmap in Hin as ([k' ps''] & -> & Hin). simpl in *.
    apply (Hdis k k' ps ps'' p); [|left|by right|done|done].
    intros ->. apply Hk. apply list_elem_of_fmap. by exists (k', ps'').
  - apply IH; [done| |].
    + intros k' ps' Hin. apply (Hnd k'). by right.
    + intros k1 k2 ps1 ps2 p Hne H1 H2. apply (Hdis k1 k2); [done|by right|by right].
Qed.

Lemma orders_loaded_NoDup (store : Store) (orders : gmap Z (list nat))
    (h : list Product) :
  orders_loaded store orders h -> NoDup (mjoin (map_to_list orders).*2).
Proof.
  intros [Hcont Hdis]. apply NoDup_join_entries.
  - apply NoDup_fst_map_to_list.
  - intros k ps Hin. apply elem_of_map_to_list in Hin. by apply (Hcont k ps).
  - intros k1 k2 ps1 ps2 p Hne H1 H2. apply elem_of_map_to_list in H1, H2.
    by apply (Hdis k1 k2).
Qed.

Lemma getOrders_loaded (store : Store) (ids : list Z)
    (orders : gmap Z (list nat)) (st' : State) :
  getOrders store ids {| heap := []; productsName := ∅ |} = (Ok orders, st') ->
  cache_ok store (productsName st')
  /\ orders_loaded store orders (heap st')
  /\ (forall oid ps p, orders !! oid = Some ps -> p ∈ ps -> (p < length (heap st'))%nat)
  /\ (forall oid, oid ∉ ids -> orders !! oid = None)
  /\ (forall oid, oid ∈ ids -> is_Some (orders !! oid)).
Proof.
  intros Hg. unfold getOrders in Hg.
  apply getOrders_ids_full in Hg as (Hc & Hl & Hv & Hout & Hin).
  - split; [done|]. split; [done|]. split; [done|]. split; [|done].
    intros oid Hn. by rewrite (Hout oid Hn), lookup_empty.
  - intros id name Hid. simpl in Hid. by rewrite lookup_empty in Hid.
  - split.
    + intros oid ps Hps. by rewrite lookup_empty in Hps.
    + intros oid1 oid2 ps1 ps2 p _ Hps. by rewrite lookup_empty in Hps.
  - intros oid ps p Hps. by rewrite lookup_empty in Hps.
Qed.
End HeapFacts.

(** ** [strconv.Atoi] and the size of [int] *)

Module SizedFacts.
Import Go GoFacts ParseFacts.

Lemma ParseUint_loop_int_64 (s : string) :
  forall n, ParseUint_loop_int 64 s n = ParseUint_loop s n.
Proof.
  assert (Hm : maxVal 64 = maxUint64) by (vm_compute; reflexivity).
  induction s as [|c s IH]; intros n; [done|].
  cbn [ParseUint_loop_int ParseUint_loop]. rewrite Hm.
  destruct (digit_val c) as [d|]; [|done].
  destruct (10 <=? d); [done|].
  destruct (maxUint64 / 10 + 1 <=? n); [done|].
  cbv zeta. destruct (_ || _); [done|]. apply IH.
Qed.

Lemma ParseUint_int_64 (s : string) : ParseUint_int 64 s = ParseUint s.
Proof. destruct s; [done|]. apply ParseUint_loop_int_64. Qed.

(** On a platform whose [int] has 64 bits, [ParseInt(s, 10, 0)] is
    [ParseInt(s, 10, 64)]. *)
Lemma ParseInt_int_64 (s : string) :
  ParseInt_int 64 s = ((ParseInt s).1, ParseInt_error s).
Proof.
  unfold ParseInt_error, ParseInt_int, ParseInt. destruct s as [|c rest]; [done|].
  cbv zeta. rewrite ParseUint_int_64.
  change (Z.shiftl 1 (64 - 1)) with (2 ^ 63).
  destruct (ParseUint _) as [un [[]|]]; [done| |].
  - destruct (negb _ && _); [done|]. by destruct (_ && _).
  - destruct (negb _ && _); [done|]. by destruct (_ && _).
Qed.

(** [Atoi] is the value and the failure of [Atoi_int 64]. *)
Lemma Atoi_int_64 (s : string) :
  Atoi_int 64 s
  = ((Atoi s).1,
     (fun err => {| NumError_Func := "Atoi"; NumError_Num := s; NumError_Err := err |})
       <$> (Atoi s).2).
Proof.
  unfold Atoi_int, Atoi. cbv zeta.
  change ((64 =? 32) && ((0 <? String.length s)%nat && (String.length s <? 10)%nat)
          || (64 =? 64) && ((0 <? String.length s)%nat && (String.length s <? 19)%nat))
    with ((0 <? String.length s)%nat && (String.length s <? 19)%nat).
  destruct ((0 <? String.length s)%nat && (String.length s <? 19)%nat).
  - destruct s as [|c rest]; [done|].
    destruct (_ && _); [done|]. by destruct (Atoi_fast _ 0).
  - rewrite ParseInt_int_64. unfold ParseInt_error.
    by destruct (ParseInt s) as [v [e|]].
Qed.
End SizedFacts.

(** ** The sections of the report of [cmd/main.go] *)

Module RenderFacts.
Import Go GoFacts.

(** Adding an item to the list that is split into buckets adds it to the
    bucket of its key, when that key is among the names. *)
Lemma buckets_cons {A : Type} (key : A -> string) (x : A) (items : list A)
    (names : list string) :
  NoDup names ->
  mjoin ((fun k => filter (fun y => key y = k) (x :: items)) <$> names)
  ≡ₚ ((if decide (key x ∈ names) then [x] else [])
        ++ mjoin ((fun k => filter (fun y => key y = k) items) <$> names))%list.
Proof.
  induction 1 as [|k names Hk Hnd IH]; [done|].
  rewrite !fmap_cons. simpl mjoin. rewrite IH, filter_cons. clear IH.
  destruct (decide (key x = k)) as [<-|Hne].
  - rewrite (decide_True (P := key x ∈ key x :: names)) by left.
    by rewrite (decide_False (P := key x ∈ names)) by done.
  - destruct (decide (key x ∈ names)) as [Hin|Hnin].
    + rewrite (decide_True (P := key x ∈ k :: names)) by (by right). simpl.
      by rewrite <- Permutation_middle.
    + rewrite (decide_False (P := key x ∈ k :: names)); [done|].
      intros [?|?]%elem_of_cons; done.
Qed.

(** The buckets of the distinct names that cover the keys of the items
    hold every item once. *)
Lemma buckets_partition {A : Type} (key : A -> string) (items : list A)
    (names : list string) :
  NoDup names -> (forall x, x ∈ items -> key x ∈ names) ->
  mjoin ((fun k => filter (fun y => key y = k) items) <$> names) ≡ₚ items.
Proof.
  intros Hnd. induction items as [|x items IH]; intros Hcov.
  - clear. induction names as [|k names IH]; [done|].
    rewrite fmap_cons. exact IH.
  - rewrite (buckets_cons key x items names Hnd).
    rewrite decide_True by (apply Hcov; left). simpl. f_equiv.
    apply IH. intros y Hy. apply Hcov. by right.
Qed.

(** What [solve] of [cmd/main.go] prints once its loaders have returned
    without error: the sections of the sorted rack names, each holding the
    line items filed under the name. *)
Lemma main_solve_sections (ro : RangeOrder) (db : Main.DB) (arg : string)
    (orders : gmap Z (list Main.PartOrder)) (g1 g : Main.Globals) :
  range_ok ro ->
  Main.getOrders db (Main.parseOrderIDs arg)
    {| Main.mainRacks := ∅; Main.secondaryRacks := ∅ |} = (Ok orders, g1) ->
  Main.initRacks ro db g1 = (None, g) ->
  exists sections : list (string * list Main.PartOrder),
    mjoin sections.*2 ≡ₚ mjoin (map_to_list orders).*2
    /\ Main.solve ro db arg
       = ("=+=+=+=" ++ nl
            ++ String.concat ""
                 ((fun s => "===Стеллаж " ++ s.1 ++ nl
                              ++ String.concat ""
                                   ((fun p => stdout (Main.printPartOrder g p)) <$> s.2))
                    <$> sections),
          inl tt).
Proof.
  intros Hro Hg Hi.
  set (racks := (Main.groupOrdersByRack ro g orders).1).
  exists ((fun k => (k, map_index [] racks k)) <$> Main.getSortedRacksNames ro racks).
  split.
  - rewrite <- list_fmap_compose.
    rewrite (list_fmap_ext _ (fun k => filter (fun p => Main.rackName g p = k)
                                         (mjoin (range ro orders).*2))
               (Main.getSortedRacksNames ro racks)).
    2:{ intros i k _. simpl. apply MainFacts.main_groupOrdersByRack_bucket. }
    rewrite <- (range_items ro orders Hro).
    destruct (sorted_keys ro racks Hro) as (_ & Hnd & Hkeys).
    apply buckets_partition; [exact Hnd|].
    intros p Hp. apply Hkeys. unfold racks.
    rewrite GroupFacts.main_groupOrdersByRack_lookup.
    destruct (filter _ _) as [|q l] eqn:Ef; [|by eexists].
    exfalso. eapply (elem_of_nil p). rewrite <- Ef.
    apply list_elem_of_filter. by split.
  - unfold Main.solve. rewrite Hg, Hi. unfold Main.groupOrdersByRack. simpl.
    rewrite ReportFacts.main_print_out, <- list_fmap_compose.
    erewrite list_fmap_ext; [reflexivity|].
    intros i k _. simpl. by rewrite ReportFacts.main_printRack_out.
Qed.
End RenderFacts.

(** ** The properties of the specification *)

Import Go GoFacts.

(** C1. Grouping correctness. Whatever order [range] visits the orders in,
    every bucket [groupOrdersByRack] returns is the list of the line items
    whose main rack has the bucket's key as its name, so a line item with a
    known main rack sits in the bucket of that name and in no other. In
    [cmd/main.go] the known mapping is the entry of [mainRacks]; in the
    per-item variant it is the answer of [GetMainRack], and the grouping
    returns no error when the store answers for every product. *)
Theorem groupOrdersByRack_files_each_item_once :
  (forall (ro : RangeOrder) (g : Main.Globals) (orders : gmap Z (list Main.PartOrder)),
      range_ok ro ->
      exists items,
        items ≡ₚ mjoin (map_to_list orders).*2
        /\ (forall k, map_index [] (Main.groupOrdersByRack ro g orders).1 k
                      = filter (fun p => Main.rackName g p = k) items)
        /\ (forall oid l p name,
               orders !! oid = Some l -> p ∈ l ->
               Main.mainRacks g !! Main.ID (Main.Prod p) = Some name ->
               forall k,
                 p ∈ map_index [] (Main.groupOrdersByRack ro g orders).1 k <-> k = name))
  /\
  (forall (ro : RangeOrder) (store : PerItem.Store) (orders : gmap Z (list nat))
          (h : list PerItem.Product),
      range_ok ro ->
      (forall oid l p, orders !! oid = Some l -> p ∈ l -> PerItem.resolvable store h p) ->
      exists racks h' items,
        PerItem.groupOrdersByRack ro store orders h = (Ok racks, h')
        /\ items ≡ₚ PerItem.partOrders (map_to_list orders)
        /\ (forall k, map_index [] racks k
                      = filter (fun po => PerItem.rackName store h po = k) items)
        /\ (forall oid l p rack,
               orders !! oid = Some l -> p ∈ l ->
               PerItem.GetMainRack store (PerItem.ID (PerItem.deref h p)) = Ok rack ->
               forall k,
                 {| PerItem.PO_ID := oid; PerItem.PO_Product := p |} ∈ map_index [] racks k
                 <-> k = PerItem.Rack_Name rack)).
Proof.
  split.
  - intros ro g orders Hro. exists (mjoin (range ro orders).*2).
    split; [by apply range_items|]. split.
    + intros k. apply MainFacts.main_groupOrdersByRack_bucket.
    + intros oid l p name Hl Hp Hname k.
      rewrite MainFacts.main_groupOrdersByRack_bucket, list_elem_of_filter.
      assert (Hr : Main.rackName g p = name).
      { unfold Main.rackName, map_index. by rewrite Hname. }
      rewrite Hr. split; [by intros [-> _]|]. intros ->. split; [done|].
      rewrite range_items by done. apply elem_of_items. eauto.
  - intros ro store orders h Hro Hres.
    destruct (PerItemFacts.item_groupOrders_ok store (range ro orders) ∅ h)
      as (racks & h' & Hg).
    { intros oid ps p He Hp. apply (Hres oid ps p); [|done].
      apply elem_of_map_to_list. by rewrite <- (Hro _ _ _ _ orders). }
    exists racks, h', (PerItem.partOrders (range ro orders)).
    split; [exact Hg|]. split; [by apply PerItemFacts.partOrders_range|].
    assert (Hb : forall k, map_index [] racks k
                 = filter (fun po => PerItem.rackName store h po = k)
                     (PerItem.partOrders (range ro orders))).
    { intros k. by rewrite (PerItemFacts.item_groupOrders_bucket _ _ _ _ _ _ Hg k). }
    split; [exact Hb|].
    intros oid l p rack Hl Hp Hrack k. rewrite Hb, list_elem_of_filter.
    unfold PerItem.rackName. simpl. rewrite Hrack.
    split; [by intros [-> _]|]. intros ->. split; [done|].
    rewrite PerItemFacts.partOrders_range by done.
    apply PerItemFacts.elem_of_partOrders. exists oid, l. simpl.
    split; [by apply elem_of_map_to_list|done].
Qed.

Lemma groupOrdersByRack_files_each_item_once_witness :
  let pen := {| Main.OrderID := 1; Main.Prod := {| Main.ID := 10; Main.Name := "pen" |};
                Main.Quantity := 3 |} in
  let g := {| Main.mainRacks := {[ 10 := "A" ]}; Main.secondaryRacks := ∅ |} in
  let orders : gmap Z (list Main.PartOrder) := {[ 1 := [pen] ]} in
  let h := [ {| PerItem.ID := 10; PerItem.Name := "pen"; PerItem.Quantity := 3;
                PerItem.SecondaryRacks := [] |} ] in
  let ptrs : gmap Z (list nat) := {[ 1 := [0%nat] ]} in
  (range_ok range_fwd
   /\ orders !! 1 = Some [pen] /\ pen ∈ [pen]
   /\ Main.mainRacks g !! Main.ID (Main.Prod pen) = Some "A"
   /\ forall k, pen ∈ map_index [] (Main.groupOrdersByRack range_fwd g orders).1 k
                <-> k = "A")
  /\ ((forall oid l p, ptrs !! oid = Some l -> p ∈ l ->
                       PerItem.resolvable Examples.two_racks h p)
      /\ exists racks h',
          PerItem.groupOrdersByRack range_fwd Examples.two_racks ptrs h = (Ok racks, h')
          /\ forall k, {| PerItem.PO_ID := 1; PerItem.PO_Product := 0%nat |}
                         ∈ map_index [] racks k <-> k = "A").
Proof.
  intros pen g orders h ptrs.
  destruct groupOrdersByRack_files_each_item_once as [Hmain Hitem].
  assert (Hres : forall oid l p, ptrs !! oid = Some l -> p ∈ l ->
                                 PerItem.resolvable Examples.two_racks h p).
  { intros oid l p Hl Hp. apply lookup_singleton_Some in Hl as [<- <-].
    apply list_elem_of_singleton in Hp as ->.
    split; eexists; vm_compute; reflexivity. }
  split.
  - split; [apply range_fwd_ok|].
    destruct (Hmain range_fwd g orders range_fwd_ok) as (items & _ & _ & Hin).
    split; [reflexivity|]. split; [left|]. split; [reflexivity|].
    apply (Hin 1 [pen] pen "A"); [reflexivity|left|reflexivity].
  - split; [exact Hres|].
    destruct (Hitem range_fwd Examples.two_racks ptrs h range_fwd_ok Hres)
      as (racks & h' & items & Hg & _ & _ & Hin).
    exists racks, h'. split; [exact Hg|].
    apply (Hin 1 [0%nat] 0%nat
             {| PerItem.Rack_Name := "A"; PerItem.Rack_ProductID := 10;
                PerItem.Rack_IsMain := true |}); [reflexivity|left|reflexivity].
Defined.

(** C2, as the code has it. In the per-item variant, when a product of a
    requested order has no row in [racks] marked main, [solve] stops with a
    fatal error and has printed nothing. ([cmd/main.go] resolves no rack per
    item and does not stop.) *)
Theorem per_item_solve_fails_fast :
  forall (ro : RangeOrder) (getOrder : Z -> result (list PerItem.sqlcOrder))
         (getProduct : Z -> result PerItem.sqlcProduct)
         (racks : list PerItem.sqlcRack) (arg : string)
         (oid : Z) (rows : list PerItem.sqlcOrder) (row : PerItem.sqlcOrder),
    range_ok ro ->
    oid ∈ PerItem.parseOrderIDs arg -> getOrder oid = Ok rows -> row ∈ rows ->
    (forall r, r ∈ racks ->
               PerItem.Rack_ProductID r = PerItem.Order_ProductID row ->
               PerItem.Rack_IsMain r = false) ->
    (exists e, PerItem.GetMainRack (PerItem.racksStore getOrder getProduct racks)
                 (PerItem.Order_ProductID row) = Err e)
    /\ exists msg,
        PerItem.solve ro (PerItem.racksStore getOrder getProduct racks) arg
        = ("", inr (Fatal msg)).
Proof.
  intros ro getOrder getProduct racks arg oid rows row Hro Hoid Hrows Hrow Hno.
  pose proof (PerItemFacts.racks_GetMainRack_Err racks _ Hno) as Herr.
  split; [by eexists|].
  exact (PerItemFacts.item_solve_fail_fast ro
           (PerItem.racksStore getOrder getProduct racks) arg oid rows row _
           Hro Hoid Hrows Hrow Herr).
Qed.

Lemma per_item_solve_fails_fast_witness :
  let getOrder := PerItem.GetOrder Examples.two_racks in
  let getProduct := PerItem.GetProduct Examples.two_racks in
  let ink := {| PerItem.Order_ProductID := 20; PerItem.Order_Quantity := 1 |} in
  range_ok range_bwd
  /\ 2 ∈ PerItem.parseOrderIDs "1,2" /\ getOrder 2 = Ok [ink] /\ ink ∈ [ink]
  /\ (forall r, r ∈ Examples.ink_without_main_rack ->
                PerItem.Rack_ProductID r = PerItem.Order_ProductID ink ->
                PerItem.Rack_IsMain r = false)
  /\ exists msg,
      PerItem.solve range_bwd
        (PerItem.racksStore getOrder getProduct Examples.ink_without_main_rack) "1,2"
      = ("", inr (Fatal msg)).
Proof.
  intros getOrder getProduct ink.
  assert (H2 : 2 ∈ PerItem.parseOrderIDs "1,2") by (right; left).
  assert (Hno : forall r, r ∈ Examples.ink_without_main_rack ->
                  PerItem.Rack_ProductID r = PerItem.Order_ProductID ink ->
                  PerItem.Rack_IsMain r = false).
  { intros r Hr Hid. unfold Examples.ink_without_main_rack in Hr.
    apply elem_of_cons in Hr as [->|Hr]; [discriminate Hid|].
    apply list_elem_of_singleton in Hr as ->. reflexivity. }
  split; [apply range_bwd_ok|]. split; [exact H2|]. split; [reflexivity|].
  split; [left|]. split; [exact Hno|].
  apply (per_item_solve_fails_fast range_bwd getOrder getProduct
           Examples.ink_without_main_rack "1,2" 2 [ink] ink range_bwd_ok H2
           eq_refl (list_elem_of_here _ _) Hno).
Defined.

(** C2 as stated fails on [cmd/main.go]: product 10 of order 1 has no rack
    marked main, and the run ends normally with the report printed, the
    line item under the rack with the empty name. *)
Lemma main_go_reports_product_without_main_rack :
  Main.mainRows
    (scanned (match Main.QueryRacks Examples.no_main_rack [10] with
              | Ok rows => rows_Next rows
              | Err _ => []
              end)) 10 = []
  /\ Main.solve range_fwd Examples.no_main_rack "1"
     = (lines [ "=+=+=+="; "===Стеллаж "; "pen (id=10)"; "заказ 1, 3 шт";
                "доп стеллаж: C"; "" ],
        inl tt).
Proof. split; vm_compute; reflexivity. Qed.

(** C3 at a failing input. Orders 1 and 2 each have one line item on rack
    A. Two runs of [cmd/main.go] on the same repository and argument that
    differ only in the order [range] visits the map [orders] print the two
    line items in opposite orders; two such runs of the per-item variant
    also print the racks in opposite orders. *)
Theorem report_depends_on_range_order :
  range_ok range_fwd /\ range_ok range_bwd
  /\ Main.solve range_fwd Examples.one_rack "1,2"
     = (lines [ "=+=+=+="; "===Стеллаж A";
                "ink (id=20)"; "заказ 2, 1 шт"; "доп стеллаж: C"; "";
                "pen (id=10)"; "заказ 1, 3 шт"; "" ],
        inl tt)
  /\ Main.solve range_bwd Examples.one_rack "1,2"
     = (lines [ "=+=+=+="; "===Стеллаж A";
                "pen (id=10)"; "заказ 1, 3 шт"; "";
                "ink (id=20)"; "заказ 2, 1 шт"; "доп стеллаж: C"; "" ],
        inl tt)
  /\ stdout (Main.solve range_fwd Examples.one_rack "1,2")
     <> stdout (Main.solve range_bwd Examples.one_rack "1,2")
  /\ stdout (PerItem.solve range_fwd Examples.two_racks "1,2")
     <> stdout (PerItem.solve range_bwd Examples.two_racks "1,2").
Proof.
  split; [apply range_fwd_ok|]. split; [apply range_bwd_ok|].
  split; [vm_compute; reflexivity|]. split; [vm_compute; reflexivity|].
  split; apply String.eqb_neq; vm_compute; reflexivity.
Qed.

(** C4 at a failing input. The per-item variant has no
    [getSortedRacksNames]: it prints the racks as [range] visits the map
    [racks]. On the repository of the specification's scenario, a run in
    which [range] yields rack B first prints the header of B above the
    header of A. (For the two variants that sort, see
    [MainFacts.main_headers_ascending] and
    [ByRackIDFacts.byid_headers_ascending].) *)
Theorem per_item_headers_follow_range_order :
  range_ok range_bwd
  /\ PerItem.solve range_bwd Examples.two_racks "1,2"
     = (lines [ "=+=+=+=";
                "===Стеллаж B"; "ink (id=20)"; "заказ 2, 1 шт"; "доп стеллаж: C"; "";
                "===Стеллаж A"; "pen (id=10)"; "заказ 1, 3 шт"; "" ],
        inl tt)
  /\ ~ String.le "B" "A".
Proof.
  split; [apply range_bwd_ok|]. split; [vm_compute; reflexivity|].
  intros H. exact H.
Qed.

(** C5. Secondary-rack completeness in [cmd/main.go]. Once [getOrders] and
    [initRacks] have returned without error, [secondaryRacks] holds for
    every product the names on its non-main rows of the racks query, in the
    order of the rows. The report [solve] prints is then the banner and the
    rack sections, in which every line item of the orders has exactly one
    entry, and the entry of a line item is its two lines, then, only if its
    product has such a name, the line listing exactly these names separated
    by commas, then an empty line. *)
Theorem secondary_racks_rendered_in_order :
  forall (ro : RangeOrder) (db : Main.DB) (arg : string)
         (orders : gmap Z (list Main.PartOrder)) (g1 g : Main.Globals)
         (rows : Rows Main.RacksRow),
    range_ok ro ->
    Main.getOrders db (Main.parseOrderIDs arg)
      {| Main.mainRacks := ∅; Main.secondaryRacks := ∅ |} = (Ok orders, g1) ->
    Main.QueryRacks db (range ro (Main.mainRacks g1)).*1 = Ok rows ->
    Main.initRacks ro db g1 = (None, g) ->
    let names := fun productID : Z =>
      Main.secondaryNames (scanned (rows_Next rows)) productID in
    let entry := fun partOrder : Main.PartOrder =>
      let product := Main.Prod partOrder in
      (Main.Name product ++ " (id=" ++ fmt_d (Main.ID product) ++ ")" ++ nl)
      ++ ("заказ " ++ fmt_d (Main.OrderID partOrder) ++ ", "
            ++ fmt_d (Main.Quantity partOrder) ++ " шт" ++ nl)
      ++ match names (Main.ID product) with
         | [] => ""
         | _ => "доп стеллаж: " ++ String.concat "," (names (Main.ID product)) ++ nl
         end
      ++ nl in
    (forall productID, map_index [] (Main.secondaryRacks g) productID = names productID)
    /\ (forall partOrder, Main.printPartOrder g partOrder = (entry partOrder, inl tt))
    /\ exists sections : list (string * list Main.PartOrder),
        mjoin sections.*2 ≡ₚ mjoin (map_to_list orders).*2
        /\ Main.solve ro db arg
           = ("=+=+=+=" ++ nl
                ++ String.concat ""
                     ((fun s => "===Стеллаж " ++ s.1 ++ nl
                                  ++ String.concat "" (entry <$> s.2))
                        <$> sections),
              inl tt).
Proof.
  intros ro db arg orders g1 g rows Hro Hg Hq Hi names entry.
  assert (Hnames : forall productID,
             map_index [] (Main.secondaryRacks g) productID = names productID).
  { intros productID.
    destruct (MainFacts.main_getOrders_inv _ _ _ _ _ Hg) as (orows & _ & Hg').
    apply MainFacts.main_getOrders_rows_secondaryRacks in Hg'. simpl in Hg'.
    destruct (MainFacts.main_initRacks_inv _ _ _ _ Hi) as (rows' & Hq' & Hi').
    assert (rows' = rows) as -> by congruence.
    rewrite (MainFacts.main_initRacks_rows_secondaryRacks _ _ _ _ Hi'), Hg'. done. }
  assert (Hentry : forall partOrder,
             Main.printPartOrder g partOrder = (entry partOrder, inl tt)).
  { intros partOrder. unfold Main.printPartOrder, entry. rewrite Hnames.
    rewrite MainFacts.main_printSecondary_out.
    unfold fmt_Print, fmt_Println, bind. by destruct (names _). }
  split; [exact Hnames|]. split; [exact Hentry|].
  destruct (RenderFacts.main_solve_sections ro db arg orders g1 g Hro Hg Hi)
    as (sections & Hperm & Hsolve).
  exists sections. split; [exact Hperm|]. rewrite Hsolve.
  erewrite list_fmap_ext; [reflexivity|].
  intros i s _. simpl. erewrite list_fmap_ext; [reflexivity|].
  intros j p _. simpl. by rewrite Hentry.
Qed.

Lemma secondary_racks_rendered_in_order_witness :
  let g0 := {| Main.mainRacks := ∅; Main.secondaryRacks := ∅ |} in
  let orders : gmap Z (list Main.PartOrder) :=
    match (Main.getOrders Examples.one_rack (Main.parseOrderIDs "1,2") g0).1 with
    | Ok orders => orders
    | Err _ => ∅
    end in
  let g1 := (Main.getOrders Examples.one_rack (Main.parseOrderIDs "1,2") g0).2 in
  let rows :=
    match Main.QueryRacks Examples.one_rack (range range_fwd (Main.mainRacks g1)).*1 with
    | Ok rows => rows
    | Err _ => {| rows_Next := []; rows_Err := None |}
    end in
  let g := (Main.initRacks range_fwd Examples.one_rack g1).2 in
  let names := fun productID : Z =>
    Main.secondaryNames (scanned (rows_Next rows)) productID in
  let entry := fun partOrder : Main.PartOrder =>
    let product := Main.Prod partOrder in
    (Main.Name product ++ " (id=" ++ fmt_d (Main.ID product) ++ ")" ++ nl)
    ++ ("заказ " ++ fmt_d (Main.OrderID partOrder) ++ ", "
          ++ fmt_d (Main.Quantity partOrder) ++ " шт" ++ nl)
    ++ match names (Main.ID product) with
       | [] => ""
       | _ => "доп стеллаж: " ++ String.concat "," (names (Main.ID product)) ++ nl
       end
    ++ nl in
  Main.getOrders Examples.one_rack (Main.parseOrderIDs "1,2") g0 = (Ok orders, g1)
  /\ Main.QueryRacks Examples.one_rack (range range_fwd (Main.mainRacks g1)).*1 = Ok rows
  /\ Main.initRacks range_fwd Examples.one_rack g1 = (None, g)
  /\ map_index [] (Main.secondaryRacks g) 20 = ["C"]
  /\ exists sections : list (string * list Main.PartOrder),
      mjoin sections.*2 ≡ₚ mjoin (map_to_list orders).*2
      /\ Main.solve range_fwd Examples.one_rack "1,2"
         = ("=+=+=+=" ++ nl
              ++ String.concat ""
                   ((fun s => "===Стеллаж " ++ s.1 ++ nl
                                ++ String.concat "" (entry <$> s.2))
                      <$> sections),
            inl tt).
Proof.
  intros g0 orders g1 rows g names entry.
  assert (Hg : Main.getOrders Examples.one_rack (Main.parseOrderIDs "1,2") g0
               = (Ok orders, g1))
    by (vm_compute; reflexivity).
  assert (Hq : Main.QueryRacks Examples.one_rack
                 (range range_fwd (Main.mainRacks g1)).*1 = Ok rows)
    by (vm_compute; reflexivity).
  assert (Hi : Main.initRacks range_fwd Examples.one_rack g1 = (None, g))
    by (vm_compute; reflexivity).
  destruct (secondary_racks_rendered_in_order range_fwd Examples.one_rack "1,2"
              orders g1 g rows range_fwd_ok Hg Hq Hi) as (Hs & _ & Hsolve).
  split; [exact Hg|]. split; [exact Hq|]. split; [exact Hi|]. split.
  - etrans; [exact (Hs 20)|]. vm_compute. reflexivity.
  - exact Hsolve.
Defined.

(** C6 at a failing input, in the variant keyed by rack ID. Product 10
    has no main rack, and its secondary rack has ID 0 and name Z. The
    lookup [mainRacks[10]] gives the zero ID, [racksNames[0]] gives Z, and
    the line item is filed and printed under rack Z instead of the empty
    name. ([cmd/main.go] does use the empty name:
    [MainFacts.main_no_main_rack_empty_key].) *)
Theorem rack_zero_names_the_bucket :
  let item := {| ByRackID.OrderID := 1; ByRackID.ProductID := 10;
                 ByRackID.Quantity := 3 |} in
  ByRackID.mainRacks Examples.rack_zero_loaded !! 10 = None
  /\ ByRackID.rackName Examples.rack_zero_loaded item = "Z"
  /\ ByRackID.solve range_fwd Examples.rack_zero "1"
     = (lines [ "=+=+=+="; "===Стеллаж Z"; "pen (id=10)"; "заказ 1, 3 шт";
                "доп стеллаж: Z"; "" ],
        inl tt).
Proof. repeat split; vm_compute; reflexivity. Qed.

(** C7. A requested order without rows is not an error. In [cmd/main.go],
    when the orders query answers with rows that all scan and none carries
    the order's ID, [getOrders] returns no error and the order has no entry:
    [orders[id]] is the empty list. In the per-item variant, when the store
    answers every lookup, [getOrders] returns no error and an order for which
    [GetOrder] answers with no rows is mapped to the empty list. *)
Theorem missing_order_yields_no_items :
  (forall (db : Main.DB) (orderIDs : list Z) (g : Main.Globals)
          (rows : Rows Main.OrdersRow) (rs : list Main.OrdersRow) (id : Z),
      id ∈ orderIDs ->
      Main.QueryOrders db orderIDs = Ok rows ->
      rows_Next rows = Scanned <$> rs -> rows_Err rows = None ->
      (forall r, r ∈ rs -> Main.o_id r <> id) ->
      exists orders g',
        Main.getOrders db orderIDs g = (Ok orders, g')
        /\ orders !! id = None /\ map_index [] orders id = [])
  /\
  (forall (store : PerItem.Store) (orderIDs : list Z) (st : PerItem.State),
      (forall oid, oid ∈ orderIDs ->
         exists rows, PerItem.GetOrder store oid = Ok rows
           /\ forall row, row ∈ rows ->
                exists p, PerItem.GetProduct store (PerItem.Order_ProductID row) = Ok p) ->
      exists orders st',
        PerItem.getOrders store orderIDs st = (Ok orders, st')
        /\ forall id, id ∈ orderIDs -> PerItem.GetOrder store id = Ok [] ->
                      orders !! id = Some []).
Proof.
  split.
  - intros db orderIDs g rows rs id _ Hq Hrows Herr Hno.
    destruct (MainFacts.main_getOrders_rows_ok rs ∅ g) as (m & g' & Hg & Hm).
    exists m, g'. unfold Main.getOrders. rewrite Hq, Hrows, Hg, Herr.
    split; [done|]. unfold map_index. by rewrite (Hm id Hno), lookup_empty.
  - intros store orderIDs st Hok.
    destruct (PerItemFacts.item_getOrders_ids_ok store orderIDs ∅ st Hok)
      as (m & st' & Hg).
    exists m, st'. split; [exact Hg|]. intros id Hid Hempty.
    apply PerItemFacts.item_getOrders_ids_spec in Hg as (_ & _ & Hin).
    destruct (Hin id Hid) as (rows & ps & Hrows & Hm & Hps).
    assert (rows = []) as -> by congruence.
    apply Forall2_nil_inv_r in Hps as ->. exact Hm.
Qed.

Lemma missing_order_yields_no_items_witness :
  let g0 := {| Main.mainRacks := ∅; Main.secondaryRacks := ∅ |} in
  let st0 := {| PerItem.heap := []; PerItem.productsName := ∅ |} in
  (3 ∈ [1; 3]
   /\ (exists orders g',
          Main.getOrders Examples.one_rack [1; 3] g0 = (Ok orders, g')
          /\ orders !! 3 = None /\ map_index [] orders 3 = []))
  /\ (PerItem.GetOrder Examples.two_racks 3 = Ok []
      /\ exists orders st',
          PerItem.getOrders Examples.two_racks [1; 3] st0 = (Ok orders, st')
          /\ orders !! 3 = Some []).
Proof.
  intros g0 st0. destruct missing_order_yields_no_items as [Hmain Hitem].
  assert (H3 : 3 ∈ [1; 3]) by (right; left).
  split.
  - split; [exact H3|].
    apply (Hmain Examples.one_rack [1; 3] g0
             {| rows_Next := Scanned <$> [List.hd (Main.Build_OrdersRow 0 0 0 "")
                                            Examples.pen_and_ink];
                rows_Err := None |}
             [List.hd (Main.Build_OrdersRow 0 0 0 "") Examples.pen_and_ink] 3 H3);
      [reflexivity|reflexivity|reflexivity|].
    intros r Hr. apply list_elem_of_singleton in Hr as ->. discriminate.
  - split; [reflexivity|].
    destruct (Hitem Examples.two_racks [1; 3] st0) as (orders & st' & Hg & Hin).
    + intros oid Ho. apply elem_of_cons in Ho as [->|Ho].
      * eexists. split; [reflexivity|]. intros row Hr.
        apply list_elem_of_singleton in Hr as ->. eexists. reflexivity.
      * apply list_elem_of_singleton in Ho as ->. eexists. split; [reflexivity|].
        intros row Hr. by apply elem_of_nil in Hr.
    + exists orders, st'. split; [exact Hg|]. apply Hin; [exact H3|reflexivity].
Defined.

(** C8, as the code has it. [parseOrderIDs] never fails and returns one
    integer per comma-separated token, the value [ParseInt] gives with its
    error dropped. A token that is not an optional sign followed by digits
    is mapped to 0, unless the digits before its first other byte already
    exceed [maxUint64]: then it is mapped to the bound of [int64] on the side
    of its sign. No token of at most 19 bytes gets that far. *)
Theorem parseOrderIDs_one_integer_per_token :
  forall (s : string),
    length (Main.parseOrderIDs s) = length (Split s ",")
    /\ length (Split s ",")
       = S (length (filter (fun c => c = ","%char) (list_ascii_of_string s)))
    /\ forall (i : nat) (tok : string),
        Split s "," !! i = Some tok ->
        Main.parseOrderIDs s !! i = Some (ParseInt tok).1
        /\ (numeric tok = false ->
            Main.parseOrderIDs s !! i
            = Some (if maxUint64 <? dec_value (unsigned_part tok) 0
                    then if is_negative tok then - 2 ^ 63 else 2 ^ 63 - 1
                    else 0))
        /\ (numeric tok = false -> (String.length tok <= 19)%nat ->
            Main.parseOrderIDs s !! i = Some 0).
Proof.
  intros s. rewrite ParseFacts.parseOrderIDs_map, length_fmap.
  split; [done|]. split; [apply ParseFacts.Split_length|].
  intros i tok Htok. rewrite list_lookup_fmap, Htok. simpl. split; [done|]. split.
  - intros Hn. rewrite (ParseFacts.ParseInt_not_numeric_value tok Hn).
    by destruct (maxUint64 <? dec_value (unsigned_part tok) 0).
  - intros Hn Hl. by rewrite (ParseFacts.ParseInt_not_numeric tok Hn Hl).
Qed.

Lemma parseOrderIDs_one_integer_per_token_witness :
  Split "7,x12," "," !! 1%nat = Some "x12"
  /\ numeric "x12" = false /\ (String.length "x12" <= 19)%nat
  /\ length (Main.parseOrderIDs "7,x12,") = 3%nat
  /\ Main.parseOrderIDs "7,x12," !! 1%nat = Some 0.
Proof.
  destruct (parseOrderIDs_one_integer_per_token "7,x12,") as (Hlen & Hcommas & Htok).
  destruct (Htok 1%nat "x12" eq_refl) as (_ & _ & Hzero).
  split; [reflexivity|]. split; [reflexivity|].
  split; [simpl; lia|]. split.
  - etrans; [exact Hlen|]. reflexivity.
  - apply Hzero; [reflexivity|simpl; lia].
Defined.

(** C8 as stated fails: a token whose leading digits overflow is not a
    valid integer, with or without a letter after the digits, and is mapped
    to the largest or the smallest [int64], not to 0. *)
Lemma out_of_range_token_is_not_mapped_to_zero :
  numeric "99999999999999999999x" = false
  /\ (ParseInt "99999999999999999999x").2 = Some ErrRange
  /\ (ParseInt "99999999999999999999").2 = Some ErrRange
  /\ Main.parseOrderIDs "7,99999999999999999999x,99999999999999999999,-99999999999999999999"
     = [7; 9223372036854775807; 9223372036854775807; -9223372036854775808].
Proof. repeat split; vm_compute; reflexivity. Qed.

(** C9. The slice that strips the trailing comma is in bounds. When the
    list of secondary racks is not empty, the accumulated string has at
    least one byte, [s[:len(s)-1]] is defined, and printing the line does
    not panic; in [cmd/main.go] and in the variant keyed by rack ID, where a
    rack ID without a name contributes the comma alone. *)
Theorem secondary_racks_slice_in_bounds :
  (forall (names : list string),
      (0 < length names)%nat ->
      (1 <= String.length (Main.joinRacks names))%nat
      /\ slice_to (Main.joinRacks names)
           (Z.of_nat (String.length (Main.joinRacks names)) - 1)
         = Some (String.concat "," names)
      /\ outcome (Main.printSecondary names) = inl tt)
  /\
  (forall (g : ByRackID.Globals) (ids : list Z),
      (0 < length ids)%nat ->
      (1 <= String.length (ByRackID.joinRacks g ids))%nat
      /\ slice_to (ByRackID.joinRacks g ids)
           (Z.of_nat (String.length (ByRackID.joinRacks g ids)) - 1)
         = Some (String.concat "," (map_index "" (ByRackID.racksNames g) <$> ids))
      /\ outcome (ByRackID.printSecondary g ids) = inl tt).
Proof.
  split.
  - intros names Hlen. assert (Hne : names <> []) by (destruct names; [simpl in Hlen; lia|done]).
    split; [|split].
    + rewrite (MainFacts.main_joinRacks_eq names Hne).
      rewrite string_length_app. simpl. lia.
    + by apply MainFacts.main_joinRacks_slice.
    + rewrite MainFacts.main_printSecondary_out. by destruct names.
  - intros g ids Hlen. assert (Hne : ids <> []) by (destruct ids; [simpl in Hlen; lia|done]).
    split; [|split].
    + unfold ByRackID.joinRacks.
      rewrite (join_loop (map_index "" (ByRackID.racksNames g)) ids Hne).
      rewrite string_length_app. simpl. lia.
    + by apply ByRackIDFacts.byid_joinRacks_slice.
    + rewrite ByRackIDFacts.byid_printSecondary_out. by destruct ids.
Qed.

Lemma secondary_racks_slice_in_bounds_witness :
  ((0 < length ["C"; "D"])%nat
   /\ slice_to (Main.joinRacks ["C"; "D"])
        (Z.of_nat (String.length (Main.joinRacks ["C"; "D"])) - 1) = Some "C,D")
  /\ ((0 < length [0; 5])%nat
      /\ slice_to (ByRackID.joinRacks Examples.rack_zero_loaded [0; 5])
           (Z.of_nat (String.length (ByRackID.joinRacks Examples.rack_zero_loaded [0; 5])) - 1)
         = Some "Z,").
Proof.
  destruct secondary_racks_slice_in_bounds as [Hmain Hbyid].
  split.
  - split; [simpl; lia|].
    destruct (Hmain ["C"; "D"]) as (_ & Hs & _); [simpl; lia|]. exact Hs.
  - split; [simpl; lia|].
    destruct (Hbyid Examples.rack_zero_loaded [0; 5]) as (_ & Hs & _); [simpl; lia|].
    etrans; [exact Hs|]. vm_compute. reflexivity.
Defined.

(** C10. In the two batch-loading variants [groupOrdersByRack] returns a
    nil error for every state of the package-level maps, every map of
    orders and every order of visiting it. *)
Theorem groupOrdersByRack_batch_never_fails :
  forall (ro : RangeOrder),
    (forall (g : Main.Globals) (orders : gmap Z (list Main.PartOrder)),
        (Main.groupOrdersByRack ro g orders).2 = None)
    /\ (forall (g : ByRackID.Globals) (orders : gmap Z (list ByRackID.PartOrder)),
           (ByRackID.groupOrdersByRack ro g orders).2 = None).
Proof. intros ro. split; reflexivity. Qed.

(** ** Further properties *)

(** X1. In [cmd/main.go] and in the variant keyed by rack ID,
    [printRacksAndOrders] never stops the run, and what it prints is the
    banner followed by one section per key of [racks], the keys in strictly
    increasing byte order whatever order [range] visits the map in; a
    section is the header of the rack followed by the entries of its line
    items in bucket order. *)
Theorem batch_report_sections_ascending :
  forall (ro : RangeOrder),
    range_ok ro ->
    (forall (g : Main.Globals) (racks : gmap string (list Main.PartOrder)),
        exists names,
          StronglySorted String.le names /\ NoDup names
          /\ (forall k, k ∈ names <-> is_Some (racks !! k))
          /\ Main.printRacksAndOrders ro g racks
             = ("=+=+=+=" ++ nl
                  ++ String.concat ""
                       ((fun k =>
                           "===Стеллаж " ++ k ++ nl
                             ++ String.concat ""
                                  ((fun p => stdout (Main.printPartOrder g p))
                                     <$> map_index [] racks k))
                          <$> names),
                inl tt))
    /\ (forall (g : ByRackID.Globals) (racks : gmap string (list ByRackID.PartOrder)),
           exists names,
             StronglySorted String.le names /\ NoDup names
             /\ (forall k, k ∈ names <-> is_Some (racks !! k))
             /\ ByRackID.printRacksAndOrders ro g racks
                = ("=+=+=+=" ++ nl
                     ++ String.concat ""
                          ((fun k =>
                              "===Стеллаж " ++ k ++ nl
                                ++ String.concat ""
                                     ((fun p => stdout (ByRackID.printPartOrder g p))
                                        <$> map_index [] racks k))
                             <$> names),
                   inl tt)).
Proof.
  intros ro Hro. split.
  - intros g racks. exists (Main.getSortedRacksNames ro racks).
    destruct (sorted_keys ro racks Hro) as (Hs & Hn & Hk).
    split; [exact Hs|]. split; [exact Hn|]. split; [exact Hk|].
    rewrite ReportFacts.main_print_out.
    erewrite list_fmap_ext; [reflexivity|].
    intros i k _. by rewrite ReportFacts.main_printRack_out.
  - intros g racks. exists (ByRackID.getSortedRacksNames ro racks).
    destruct (sorted_keys ro racks Hro) as (Hs & Hn & Hk).
    split; [exact Hs|]. split; [exact Hn|]. split; [exact Hk|].
    rewrite ReportFacts.byid_print_out.
    erewrite list_fmap_ext; [reflexivity|].
    intros i k _. by rewrite ReportFacts.byid_printRack_out.
Qed.

Lemma batch_report_sections_ascending_witness :
  range_ok range_bwd
  /\ exists names,
      StronglySorted String.le names
      /\ (forall k, k ∈ names <-> is_Some (({[ "B" := [] ; "A" := [] ]}
                                             : gmap string (list Main.PartOrder)) !! k))
      /\ stdout (Main.printRacksAndOrders range_bwd
                   {| Main.mainRacks := ∅; Main.secondaryRacks := ∅ |}
                   {[ "B" := [] ; "A" := [] ]})
         = "=+=+=+=" ++ nl
             ++ String.concat "" ((fun k => "===Стеллаж " ++ k ++ nl ++ "") <$> names).
Proof.
  split; [apply range_bwd_ok|].
  destruct (batch_report_sections_ascending range_bwd range_bwd_ok) as [Hmain _].
  destruct (Hmain {| Main.mainRacks := ∅; Main.secondaryRacks := ∅ |}
              {[ "B" := [] ; "A" := [] ]}) as (names & Hs & _ & Hk & Hp).
  exists names. split; [exact Hs|]. split; [exact Hk|].
  rewrite Hp. simpl stdout.
  erewrite list_fmap_ext; [reflexivity|]. intros i k Hi. simpl.
  replace (String.concat ""
             ((fun p => stdout (Main.printPartOrder
                                  {| Main.mainRacks := ∅; Main.secondaryRacks := ∅ |} p))
                <$> map_index [] {[ "B" := [] ; "A" := [] ]} k)) with ""; [done|].
  assert (Hin : k ∈ names) by (by eapply list_elem_of_lookup_2).
  apply Hk in Hin as [l Hl].
  unfold map_index. rewrite Hl.
  apply lookup_insert_Some in Hl as [[_ <-]|[_ Hl]]; [done|].
  by apply lookup_singleton_Some in Hl as [_ <-].
Defined.

(** X2. In the two variants that sort, the text [printRacksAndOrders]
    prints for a given map [racks] is the same whatever order [range]
    visits the map in. *)
Theorem batch_report_ignores_range_order :
  forall (ro1 ro2 : RangeOrder),
    range_ok ro1 -> range_ok ro2 ->
    (forall (g : Main.Globals) (racks : gmap string (list Main.PartOrder)),
        Main.printRacksAndOrders ro1 g racks = Main.printRacksAndOrders ro2 g racks)
    /\ (forall (g : ByRackID.Globals) (racks : gmap string (list ByRackID.PartOrder)),
           ByRackID.printRacksAndOrders ro1 g racks
           = ByRackID.printRacksAndOrders ro2 g racks).
Proof.
  intros ro1 ro2 H1 H2. split; intros g racks.
  - unfold Main.printRacksAndOrders, Main.getSortedRacksNames.
    by rewrite (sort_Strings_range ro1 ro2 racks H1 H2).
  - unfold ByRackID.printRacksAndOrders, ByRackID.getSortedRacksNames.
    by rewrite (sort_Strings_range ro1 ro2 racks H1 H2).
Qed.

Lemma batch_report_ignores_range_order_witness :
  range_ok range_fwd /\ range_ok range_bwd
  /\ range range_fwd ({[ "B" := [] ; "A" := [] ]} : gmap string (list Main.PartOrder))
     <> range range_bwd ({[ "B" := [] ; "A" := [] ]} : gmap string (list Main.PartOrder))
  /\ Main.printRacksAndOrders range_fwd
       {| Main.mainRacks := ∅; Main.secondaryRacks := ∅ |} {[ "B" := [] ; "A" := [] ]}
     = Main.printRacksAndOrders range_bwd
         {| Main.mainRacks := ∅; Main.secondaryRacks := ∅ |} {[ "B" := [] ; "A" := [] ]}.
Proof.
  split; [apply range_fwd_ok|]. split; [apply range_bwd_ok|].
  split; [vm_compute; discriminate|].
  apply (batch_report_ignores_range_order range_fwd range_bwd range_fwd_ok range_bwd_ok).
Defined.

(** X3. In [cmd/main.go], the keys of the map [groupOrdersByRack] returns
    are exactly the rack names of the line items of the orders, so no bucket
    is empty; and two runs that visit the orders in different orders build
    the same buckets up to the order of the line items inside a bucket. *)
Theorem main_buckets_nonempty_and_stable :
  forall (ro : RangeOrder) (g : Main.Globals) (orders : gmap Z (list Main.PartOrder)),
    range_ok ro ->
    (forall k, is_Some ((Main.groupOrdersByRack ro g orders).1 !! k)
               <-> exists oid l p, orders !! oid = Some l /\ p ∈ l
                                   /\ Main.rackName g p = k)
    /\ (forall k items, (Main.groupOrdersByRack ro g orders).1 !! k = Some items ->
                        items <> [])
    /\ (forall ro', range_ok ro' ->
          forall k, map_index [] (Main.groupOrdersByRack ro g orders).1 k
                    ≡ₚ map_index [] (Main.groupOrdersByRack ro' g orders).1 k).
Proof.
  intros ro g orders Hro. split; [|split].
  - intros k. rewrite GroupFacts.main_groupOrdersByRack_lookup.
    destruct (filter _ _) as [|p items] eqn:Ef.
    + split; [by intros [? ?]|]. intros (oid & l & p & Hl & Hp & Hk).
      pose proof (proj1 (GroupFacts.filter_nil_iff _ _) Ef) as Hnil.
      destruct (Hnil p); [|done].
      rewrite range_items by done. apply elem_of_items. eauto.
    + split; [|by eexists]. intros _.
      assert (Hp : p ∈ filter (fun p => Main.rackName g p = k)
                     (mjoin (range ro orders).*2)) by (rewrite Ef; left).
      apply list_elem_of_filter in Hp as [Hk Hp].
      rewrite range_items in Hp by done. apply elem_of_items in Hp as (oid & l & Hl & Hp).
      by exists oid, l, p.
  - intros k items. rewrite GroupFacts.main_groupOrdersByRack_lookup.
    destruct (filter _ _); [done|]. by intros [= <-].
  - intros ro' Hro' k. rewrite !MainFacts.main_groupOrdersByRack_bucket.
    by rewrite !range_items by done.
Qed.

Lemma main_buckets_nonempty_and_stable_witness :
  let pen := {| Main.OrderID := 1; Main.Prod := {| Main.ID := 10; Main.Name := "pen" |};
                Main.Quantity := 3 |} in
  let ink := {| Main.OrderID := 2; Main.Prod := {| Main.ID := 20; Main.Name := "ink" |};
                Main.Quantity := 1 |} in
  let g := {| Main.mainRacks := {[ 10 := "A"; 20 := "A" ]}; Main.secondaryRacks := ∅ |} in
  let orders : gmap Z (list Main.PartOrder) := {[ 1 := [pen]; 2 := [ink] ]} in
  range_ok range_fwd /\ range_ok range_bwd
  /\ is_Some ((Main.groupOrdersByRack range_fwd g orders).1 !! "A")
  /\ map_index [] (Main.groupOrdersByRack range_fwd g orders).1 "A"
     ≡ₚ map_index [] (Main.groupOrdersByRack range_bwd g orders).1 "A".
Proof.
  intros pen ink g orders.
  destruct (main_buckets_nonempty_and_stable range_fwd g orders range_fwd_ok)
    as (Hkeys & _ & Hperm).
  split; [apply range_fwd_ok|]. split; [apply range_bwd_ok|]. split.
  - apply Hkeys. exists 1, [pen], pen. split; [reflexivity|]. split; [left|reflexivity].
  - apply (Hperm range_bwd range_bwd_ok).
Defined.

(** X4. In the variant keyed by rack ID, every bucket [groupOrdersByRack]
    returns is the list of the visited line items [p] for which
    [racksNames[mainRacks[p.ProductID]]] is the bucket's key; the keys are
    exactly these names, and no bucket is empty. *)
Theorem byid_buckets_by_rack_name :
  forall (ro : RangeOrder) (g : ByRackID.Globals)
         (orders : gmap Z (list ByRackID.PartOrder)),
    range_ok ro ->
    exists items,
      items ≡ₚ mjoin (map_to_list orders).*2
      /\ (forall k, map_index [] (ByRackID.groupOrdersByRack ro g orders).1 k
                    = filter (fun p => map_index "" (ByRackID.racksNames g)
                                         (map_index 0 (ByRackID.mainRacks g)
                                            (ByRackID.ProductID p)) = k) items)
      /\ (forall k, is_Some ((ByRackID.groupOrdersByRack ro g orders).1 !! k)
                    <-> exists oid l p, orders !! oid = Some l /\ p ∈ l
                                        /\ ByRackID.rackName g p = k)
      /\ (forall k l, (ByRackID.groupOrdersByRack ro g orders).1 !! k = Some l ->
                      l <> []).
Proof.
  intros ro g orders Hro. exists (mjoin (range ro orders).*2).
  split; [by apply range_items|]. split; [|split].
  - intros k. unfold map_index at 1.
    rewrite GroupFacts.byid_groupOrdersByRack_lookup.
    unfold ByRackID.rackName. by destruct (filter _ _).
  - intros k. rewrite GroupFacts.byid_groupOrdersByRack_lookup.
    destruct (filter _ _) as [|p items] eqn:Ef.
    + split; [by intros [? ?]|]. intros (oid & l & p & Hl & Hp & Hk).
      pose proof (proj1 (GroupFacts.filter_nil_iff _ _) Ef) as Hnil.
      destruct (Hnil p); [|done].
      rewrite range_items by done. apply elem_of_items. eauto.
    + split; [|by eexists]. intros _.
      assert (Hp : p ∈ filter (fun p => ByRackID.rackName g p = k)
                     (mjoin (range ro orders).*2)) by (rewrite Ef; left).
      apply list_elem_of_filter in Hp as [Hk Hp].
      rewrite range_items in Hp by done. apply elem_of_items in Hp as (oid & l & Hl & Hp).
      by exists oid, l, p.
  - intros k l. rewrite GroupFacts.byid_groupOrdersByRack_lookup.
    destruct (filter _ _); [done|]. by intros [= <-].
Qed.

Lemma byid_buckets_by_rack_name_witness :
  let item := {| ByRackID.OrderID := 1; ByRackID.ProductID := 10;
                 ByRackID.Quantity := 3 |} in
  let g := {| ByRackID.productsNames := ∅; ByRackID.racksNames := {[ 7 := "A" ]};
              ByRackID.mainRacks := {[ 10 := 7 ]}; ByRackID.secondaryRacks := ∅ |} in
  let orders : gmap Z (list ByRackID.PartOrder) := {[ 1 := [item] ]} in
  range_ok range_fwd
  /\ is_Some ((ByRackID.groupOrdersByRack range_fwd g orders).1 !! "A").
Proof.
  intros item g orders. split; [apply range_fwd_ok|].
  destruct (byid_buckets_by_rack_name range_fwd g orders range_fwd_ok)
    as (items & _ & _ & Hkeys & _).
  apply Hkeys. exists 1, [item], item. split; [reflexivity|]. split; [left|reflexivity].
Defined.

(** X5. All or nothing. In each of the three variants a run of [solve]
    either ends normally, or stops before anything is written to standard
    output: with a fatal error, or, exactly when the program was started
    without an argument, with the run-time panic of [os.Args[1]]. Nothing
    else in [solve] panics. *)
Theorem solve_prints_all_or_nothing :
  forall (ro : RangeOrder) (os_Args : list string),
    (forall (db : Main.DB),
        ((length os_Args < 2)%nat
         /\ Main.solve_os_Args ro db os_Args = ("", inr Panic))
        \/ ((2 <= length os_Args)%nat
            /\ ((exists out, Main.solve_os_Args ro db os_Args = (out, inl tt))
                \/ (exists msg,
                       Main.solve_os_Args ro db os_Args = ("", inr (Fatal msg))))))
    /\ (forall (db : ByRackID.DB),
           ((length os_Args < 2)%nat
            /\ ByRackID.solve_os_Args ro db os_Args = ("", inr Panic))
           \/ ((2 <= length os_Args)%nat
               /\ ((exists out, ByRackID.solve_os_Args ro db os_Args = (out, inl tt))
                   \/ (exists msg,
                          ByRackID.solve_os_Args ro db os_Args
                          = ("", inr (Fatal msg))))))
    /\ (forall (store : PerItem.Store),
           ((length os_Args < 2)%nat
            /\ PerItem.solve_os_Args ro store os_Args = ("", inr Panic))
           \/ ((2 <= length os_Args)%nat
               /\ ((exists out, PerItem.solve_os_Args ro store os_Args = (out, inl tt))
                   \/ (exists msg,
                          PerItem.solve_os_Args ro store os_Args
                          = ("", inr (Fatal msg)))))).
Proof.
  intros ro os_Args.
  unfold Main.solve_os_Args, ByRackID.solve_os_Args, PerItem.solve_os_Args.
  destruct (os_Args !! 1%nat) as [arg|] eqn:Ea.
  2:{ apply lookup_ge_None in Ea.
      split; [|split]; intros ?; left; (split; [lia|done]). }
  apply lookup_lt_Some in Ea.
  split; [|split].
  - intros db. right. split; [lia|]. unfold Main.solve.
    destruct (Main.getOrders db _ _) as [[orders|e] g]; [|right; by eexists].
    destruct (Main.initRacks ro db g) as [[e|] g']; [right; by eexists|].
    simpl. left. rewrite ReportFacts.main_print_out. by eexists.
  - intros db. right. split; [lia|]. unfold ByRackID.solve.
    destruct (ByRackID.getOrders db _ _) as [[orders|e] g]; [|right; by eexists].
    destruct (ByRackID.initProductsNames db _ g) as [[e|] g1]; [right; by eexists|].
    destruct (ByRackID.initRacks db _ g1) as [[e|] g2]; [right; by eexists|].
    simpl. left. rewrite ReportFacts.byid_print_out. by eexists.
  - intros store. right. split; [lia|]. unfold PerItem.solve.
    destruct (PerItem.getOrders store _ _) as [[orders|e] st]; [|right; by eexists].
    destruct (PerItem.groupOrdersByRack ro store orders (PerItem.heap st))
      as [[racks|e] h]; [|right; by eexists].
    left. rewrite ReportFacts.item_print_out. by eexists.
Qed.

(** X6. When [getOrders] of [cmd/main.go] returns no error, the query has
    succeeded, every row has scanned and [rows.Err()] is nil; [orders] maps
    each order ID to the line items of its rows, in the order of the rows,
    and has no entry for any other ID; [mainRacks] has gained the product ID
    of every row, with the empty name, and [secondaryRacks] is untouched. *)
Theorem main_getOrders_groups_rows_by_order :
  forall (db : Main.DB) (orderIDs : list Z) (g g' : Main.Globals)
         (orders : gmap Z (list Main.PartOrder)),
    Main.getOrders db orderIDs g = (Ok orders, g') ->
    exists rows,
      Main.QueryOrders db orderIDs = Ok rows /\ rows_Err rows = None
      /\ rows_Next rows = Scanned <$> scanned (rows_Next rows)
      /\ (forall id,
             map_index [] orders id
             = (fun r => {| Main.OrderID := Main.o_id r;
                            Main.Prod := {| Main.ID := Main.o_product_id r;
                                            Main.Name := Main.p_name r |};
                            Main.Quantity := Main.o_quantity r |})
                 <$> filter (fun r => Main.o_id r = id) (scanned (rows_Next rows)))
      /\ (forall id, is_Some (orders !! id)
                     <-> exists r, r ∈ scanned (rows_Next rows) /\ Main.o_id r = id)
      /\ (forall pid,
             Main.mainRacks g' !! pid
             = if decide (pid ∈ Main.o_product_id <$> scanned (rows_Next rows))
               then Some "" else Main.mainRacks g !! pid)
      /\ Main.secondaryRacks g' = Main.secondaryRacks g.
Proof.
  intros db orderIDs g g' orders Hg. unfold Main.getOrders in Hg.
  destruct (Main.QueryOrders db orderIDs) as [rows|e]; [|done].
  destruct (Main.getOrders_rows (rows_Next rows) ∅ g) as [[m|e] g1] eqn:Er; [|done].
  destruct (rows_Err rows) eqn:Ee; [done|]. injection Hg as <- <-.
  exists rows. split; [done|]. split; [done|].
  pose proof (LoadFacts.main_getOrders_rows_all_scanned _ _ _ _ _ Er) as Hall.
  split; [exact Hall|]. rewrite Hall in Er.
  apply LoadFacts.main_getOrders_rows_content in Er as (Hm & Hr & Hs).
  split; [|split; [|split; [exact Hr|exact Hs]]].
  - intros id. unfold map_index. rewrite Hm, lookup_empty.
    by destruct (filter _ _).
  - intros id. rewrite Hm, lookup_empty.
    destruct (filter _ _) as [|r l] eqn:Ef.
    + split; [by intros [? ?]|]. intros (r & Hr' & Hid).
      pose proof (proj1 (GroupFacts.filter_nil_iff _ _) Ef) as Hnil.
      by destruct (Hnil r).
    + split; [|by eexists]. intros _. exists r.
      assert (Hin : r ∈ filter (fun r => Main.o_id r = id) (scanned (rows_Next rows)))
        by (rewrite Ef; left).
      apply list_elem_of_filter in Hin as [? ?]. done.
Qed.

Lemma main_getOrders_groups_rows_by_order_witness :
  let g0 := {| Main.mainRacks := ∅; Main.secondaryRacks := ∅ |} in
  let orders : gmap Z (list Main.PartOrder) :=
    match (Main.getOrders Examples.one_rack [1; 2] g0).1 with
    | Ok orders => orders
    | Err _ => ∅
    end in
  let g1 := (Main.getOrders Examples.one_rack [1; 2] g0).2 in
  Main.getOrders Examples.one_rack [1; 2] g0 = (Ok orders, g1)
  /\ length (map_index [] orders 2) = 1%nat
  /\ Main.mainRacks g1 !! 20 = Some "".
Proof.
  intros g0 orders g1.
  assert (Hg : Main.getOrders Examples.one_rack [1; 2] g0 = (Ok orders, g1))
    by (vm_compute; reflexivity).
  destruct (main_getOrders_groups_rows_by_order Examples.one_rack [1; 2] g0 g1 orders Hg)
    as (rows & Hq & _ & _ & Hm & _ & Hr & _).
  vm_compute in Hq. injection Hq as <-.
  split; [exact Hg|]. split.
  - rewrite (Hm 2). reflexivity.
  - rewrite (Hr 20). reflexivity.
Defined.

(** X7. [getOrders] of [cmd/main.go] returns an error exactly when the
    query fails, a row does not scan, or [rows.Err()] is not nil; a failed
    query leaves the package-level maps as they were. *)
Theorem main_getOrders_fails_exactly_when :
  forall (db : Main.DB) (orderIDs : list Z) (g : Main.Globals),
    ((exists e, (Main.getOrders db orderIDs g).1 = Err e)
     <-> (exists e, Main.QueryOrders db orderIDs = Err e)
         \/ (exists rows, Main.QueryOrders db orderIDs = Ok rows
                          /\ ((exists e, ScanErr e ∈ rows_Next rows)
                              \/ is_Some (rows_Err rows))))
    /\ (forall e, Main.QueryOrders db orderIDs = Err e ->
                  Main.getOrders db orderIDs g = (Err ("failed to query orders: " ++ e), g)).
Proof.
  intros db orderIDs g. split.
  - unfold Main.getOrders. destruct (Main.QueryOrders db orderIDs) as [rows|e].
    + pose proof (LoadFacts.main_getOrders_rows_scan_err (rows_Next rows) ∅ g) as Hs.
      destruct (Main.getOrders_rows (rows_Next rows) ∅ g) as [[m|e] g1]; simpl in *.
      * destruct (rows_Err rows) as [e|] eqn:Ee; simpl.
        -- split; [|by eexists]. intros _. right. exists rows. split; [done|].
           right. by rewrite Ee.
        -- split; [by intros [? ?]|]. intros [[e ?]|(rows' & [= <-] & [He|He])];
             [done| |].
           ++ by apply Hs in He as [? ?].
           ++ rewrite Ee in He. by destruct He.
      * split; [|by eexists]. intros _. right. exists rows. split; [done|].
        left. apply Hs. by eexists.
    + simpl. split; [|by eexists]. intros _. left. by eexists.
  - intros e He. unfold Main.getOrders. by rewrite He.
Qed.

Lemma main_getOrders_fails_exactly_when_witness :
  let db := {| Main.QueryOrders := fun _ => Err "connection refused";
               Main.QueryRacks := Main.QueryRacks Examples.one_rack |} in
  let g0 := {| Main.mainRacks := ∅; Main.secondaryRacks := ∅ |} in
  Main.QueryOrders db [1] = Err "connection refused"
  /\ Main.getOrders db [1] g0 = (Err "failed to query orders: connection refused", g0).
Proof.
  intros db g0. split; [reflexivity|].
  apply (proj2 (main_getOrders_fails_exactly_when db [1] g0) "connection refused").
  reflexivity.
Defined.

(** X8. When [initRacks] of [cmd/main.go] returns no error, every row of
    the racks query has scanned, and [mainRacks] maps a product to the name
    on the last of its rows marked main: a later main row replaces an
    earlier one, and a product without such a row keeps what it had. *)
Theorem main_initRacks_last_main_row_wins :
  forall (ro : RangeOrder) (db : Main.DB) (g g' : Main.Globals),
    Main.initRacks ro db g = (None, g') ->
    exists rows,
      Main.QueryRacks db (range ro (Main.mainRacks g)).*1 = Ok rows
      /\ rows_Err rows = None
      /\ rows_Next rows = Scanned <$> scanned (rows_Next rows)
      /\ forall pid,
          Main.mainRacks g' !! pid
          = match last (Main.mainRows (scanned (rows_Next rows)) pid) with
            | Some r => Some (Main.name r)
            | None => Main.mainRacks g !! pid
            end.
Proof.
  intros ro db g g' Hi. unfold Main.initRacks in Hi.
  destruct (Main.QueryRacks db _) as [rows|e]; [|done].
  destruct (Main.initRacks_rows (rows_Next rows) g) as [[e|] g1] eqn:Er; [done|].
  injection Hi as He <-. exists rows. split; [done|]. split; [done|].
  pose proof (LoadFacts.main_initRacks_rows_all_scanned _ _ _ Er) as Hall.
  split; [exact Hall|]. intros pid.
  pose proof (LoadFacts.main_initRacks_rows_last (scanned (rows_Next rows)) pid g) as Hl.
  rewrite <- Hall, Er in Hl. exact Hl.
Qed.

Lemma main_initRacks_last_main_row_wins_witness :
  let db := Examples.mainDB Examples.pen_and_ink
              [ {| Main.product_id := 10; Main.name := "A"; Main.is_main := true |};
                {| Main.product_id := 10; Main.name := "B"; Main.is_main := true |} ] in
  let g1 := {| Main.mainRacks := {[ 10 := "" ]}; Main.secondaryRacks := ∅ |} in
  let g := (Main.initRacks range_fwd db g1).2 in
  Main.initRacks range_fwd db g1 = (None, g)
  /\ Main.mainRacks g !! 10 = Some "B".
Proof.
  intros db g1 g.
  assert (Hi : Main.initRacks range_fwd db g1 = (None, g)) by (vm_compute; reflexivity).
  destruct (main_initRacks_last_main_row_wins range_fwd db g1 g Hi)
    as (rows & Hq & _ & _ & Hl).
  vm_compute in Hq. injection Hq as <-.
  split; [exact Hi|]. rewrite (Hl 10). reflexivity.
Defined.

(** X9. In the variant keyed by rack ID, [initRacks] drops the error of
    [initRacksNames]: when the rows of the product-rack query all scan, it
    returns nil whatever the rack-name query answers, having asked for the
    rack ID of every row; if that query fails, [racksNames] is left as it
    was, so with the empty map [solve] starts from every line item is filed
    under the empty rack name. *)
Theorem byid_initRacks_drops_rack_names_error :
  forall (db : ByRackID.DB) (productIDs : list Z) (g : ByRackID.Globals)
         (rows : Rows ByRackID.ProductRackRow) (rs : list ByRackID.ProductRackRow),
    ByRackID.QueryProductRacks db productIDs = Ok rows ->
    rows_Next rows = Scanned <$> rs -> rows_Err rows = None ->
    (ByRackID.initRacks db productIDs g).1 = None
    /\ forall e,
        ByRackID.QueryRacks db (ByRackID.pr_rack_id <$> rs) = Err e ->
        ByRackID.racksNames (ByRackID.initRacks db productIDs g).2
        = ByRackID.racksNames g
        /\ (ByRackID.racksNames g = ∅ ->
            forall p, ByRackID.rackName (ByRackID.initRacks db productIDs g).2 p = "").
Proof.
  intros db productIDs g rows rs Hq Hrows Herr. unfold ByRackID.initRacks.
  rewrite Hq, Hrows.
  destruct (LoadFacts.byid_initRacks_rows_ok rs [] g) as (g1 & -> & Hn & _).
  rewrite Herr. simpl. split; [done|]. intros e He.
  unfold ByRackID.initRacksNames. rewrite He. simpl.
  split; [exact Hn|]. intros Hempty p. unfold ByRackID.rackName, map_index.
  by rewrite Hn, Hempty, lookup_empty.
Qed.

Lemma byid_initRacks_drops_rack_names_error_witness :
  let db := {| ByRackID.QueryOrders := ByRackID.QueryOrders Examples.rack_zero;
               ByRackID.QueryProducts := ByRackID.QueryProducts Examples.rack_zero;
               ByRackID.QueryProductRacks :=
                 ByRackID.QueryProductRacks Examples.rack_zero;
               ByRackID.QueryRacks := fun _ => Err "connection lost" |} in
  let g0 := {| ByRackID.productsNames := ∅; ByRackID.racksNames := ∅;
               ByRackID.mainRacks := ∅; ByRackID.secondaryRacks := ∅ |} in
  let row := {| ByRackID.pr_product_id := 10; ByRackID.pr_rack_id := 0;
                ByRackID.is_main := false |} in
  ByRackID.QueryProductRacks db [10] = Ok {| rows_Next := Scanned <$> [row];
                                              rows_Err := None |}
  /\ ByRackID.QueryRacks db (ByRackID.pr_rack_id <$> [row]) = Err "connection lost"
  /\ (ByRackID.initRacks db [10] g0).1 = None
  /\ ByRackID.racksNames (ByRackID.initRacks db [10] g0).2 = ∅.
Proof.
  intros db g0 row.
  destruct (byid_initRacks_drops_rack_names_error db [10] g0
              {| rows_Next := Scanned <$> [row]; rows_Err := None |} [row]
              eq_refl eq_refl eq_refl) as [Hnil Hnames].
  destruct (Hnames "connection lost" eq_refl) as [Hsame _].
  split; [reflexivity|]. split; [reflexivity|]. split; [exact Hnil|exact Hsame].
Defined.

(** X10. [getProductName] memoizes: after a call that returned a name, the
    cache holds it, the other entries and the heap are as before, and a
    further call for the same ID returns the same name from the cache
    without asking the store, whatever the store would answer; a call that
    returns an error leaves the state as it was. *)
Theorem item_getProductName_memoizes :
  forall (store : PerItem.Store) (id : Z) (st : PerItem.State),
    (forall name st',
        PerItem.getProductName store id st = (Ok name, st') ->
        PerItem.productsName st' !! id = Some name
        /\ PerItem.heap st' = PerItem.heap st
        /\ (forall id', id' <> id ->
                        PerItem.productsName st' !! id' = PerItem.productsName st !! id')
        /\ forall store', PerItem.getProductName store' id st' = (Ok name, st'))
    /\ (forall e st',
           PerItem.getProductName store id st = (Err e, st') ->
           st' = st /\ PerItem.productsName st !! id = None
           /\ exists e', PerItem.GetProduct store id = Err e').
Proof.
  intros store id st. unfold PerItem.getProductName. split.
  - intros name st'. destruct (PerItem.productsName st !! id) as [n|] eqn:Ec.
    + intros [= <- <-]. rewrite Ec.
      split; [done|]. split; [done|]. split; [done|]. by intros store'.
    + destruct (PerItem.GetProduct store id) as [sp|e]; [|done].
      unfold map_index. rewrite lookup_insert_eq. simpl. intros [= <- <-]. simpl.
      rewrite lookup_insert_eq.
      split; [done|]. split; [done|]. split.
      * intros id' Hne. by rewrite lookup_insert_ne.
      * done.
  - intros e st'. destruct (PerItem.productsName st !! id) as [n|] eqn:Ec; [done|].
    destruct (PerItem.GetProduct store id) as [sp|e']; [done|].
    intros [= <- <-]. split; [done|]. split; [done|]. by eexists.
Qed.

Lemma item_getProductName_memoizes_witness :
  let st0 := {| PerItem.heap := []; PerItem.productsName := ∅ |} in
  let st1 := {| PerItem.heap := []; PerItem.productsName := {[ 10 := "pen" ]} |} in
  let down := PerItem.racksStore (fun _ => Err "down") (fun _ => Err "down") [] in
  PerItem.getProductName Examples.two_racks 10 st0 = (Ok "pen", st1)
  /\ PerItem.getProductName down 10 st1 = (Ok "pen", st1).
Proof.
  intros st0 st1 down.
  assert (H0 : PerItem.getProductName Examples.two_racks 10 st0 = (Ok "pen", st1))
    by reflexivity.
  split; [exact H0|].
  destruct (item_getProductName_memoizes Examples.two_racks 10 st0) as [Hok _].
  destruct (Hok "pen" st1 H0) as (_ & _ & _ & Hagain). apply Hagain.
Defined.

(** X11. [parseOrderIDs] reads a valid token exactly: a token that is an
    optional sign followed by digits is mapped to the number it spells, and
    to the largest or smallest [int64] when that number does not fit. *)
Theorem parseOrderIDs_reads_valid_ids :
  forall (s : string) (i : nat) (tok : string),
    Split s "," !! i = Some tok -> numeric tok = true ->
    Main.parseOrderIDs s !! i
    = Some (let v := dec_value (unsigned_part tok) 0 in
            if is_negative tok
            then (if 2 ^ 63 <? v then - 2 ^ 63 else - v)
            else (if 2 ^ 63 <=? v then 2 ^ 63 - 1 else v)).
Proof.
  intros s i tok Htok Hn.
  rewrite ParseFacts.parseOrderIDs_map, list_lookup_fmap, Htok. simpl.
  rewrite (AtoiFacts.ParseInt_numeric_value tok Hn). cbv zeta.
  destruct (is_negative tok).
  - by destruct (2 ^ 63 <? dec_value (unsigned_part tok) 0).
  - by destruct (2 ^ 63 <=? dec_value (unsigned_part tok) 0).
Qed.

Lemma parseOrderIDs_reads_valid_ids_witness :
  Split "101,-7,+9223372036854775808" "," !! 1%nat = Some "-7"
  /\ numeric "-7" = true
  /\ Main.parseOrderIDs "101,-7,+9223372036854775808" !! 1%nat = Some (-7)
  /\ Main.parseOrderIDs "101,-7,+9223372036854775808" !! 2%nat
     = Some 9223372036854775807.
Proof.
  split; [reflexivity|]. split; [reflexivity|]. split.
  - apply (parseOrderIDs_reads_valid_ids "101,-7,+9223372036854775808" 1 "-7");
      reflexivity.
  - apply (parseOrderIDs_reads_valid_ids "101,-7,+9223372036854775808" 2
             "+9223372036854775808"); reflexivity.
Defined.

(** X12. [parseOrderIDs] works token by token: the IDs of two strings
    joined by a comma are the IDs of the first followed by the IDs of the
    second, so the result is never empty, and an empty piece (empty
    argument, doubled or trailing comma) yields the ID 0. *)
Theorem parseOrderIDs_splits_at_commas :
  forall (s1 s2 : string),
    Main.parseOrderIDs (s1 ++ "," ++ s2)
    = (Main.parseOrderIDs s1 ++ Main.parseOrderIDs s2)%list
    /\ Main.parseOrderIDs s1 <> []
    /\ Main.parseOrderIDs (s1 ++ ",") = (Main.parseOrderIDs s1 ++ [0])%list.
Proof.
  intros s1 s2. rewrite !ParseFacts.parseOrderIDs_map. split; [|split].
  - by rewrite AtoiFacts.Split_app_comma, fmap_app.
  - pose proof (AtoiFacts.Split_nonempty s1). by destruct (Split s1 ",").
  - pose proof (AtoiFacts.Split_app_comma s1 "") as H.
    change (s1 ++ "," ++ "") with (s1 ++ ",") in H.
    by rewrite H, fmap_app.
Qed.

(** X13. The variant keyed by rack ID reads the IDs with [strconv.Atoi],
    the others with [strconv.ParseInt(s, 10, 64)]. Where [int] has 64 bits,
    the two return the same value on every string, and fail on the same
    strings in the same way, the errors differing in the field [Func] only;
    so the three variants read the same order IDs from the same argument.
    Where [int] has 32 bits they do not: [Atoi] stops at the largest
    [int32], and the variant keyed by rack ID reads 2147483647 for the ID
    2147483648. *)
Theorem parseOrderIDs_variants_agree_on_64_bits :
  (forall (s : string),
      (Atoi_int 64 s).1 = (ParseInt s).1
      /\ (Atoi_int 64 s).2
         = (fun nerr => {| NumError_Func := "Atoi";
                           NumError_Num := NumError_Num nerr;
                           NumError_Err := NumError_Err nerr |})
             <$> ParseInt_error s
      /\ Atoi s = ((Atoi_int 64 s).1, NumError_Err <$> (Atoi_int 64 s).2)
      /\ ByRackID.parseOrderIDs s = ByRackID.parseOrderIDs_int 64 s
      /\ ByRackID.parseOrderIDs_int 64 s = Main.parseOrderIDs s
      /\ PerItem.parseOrderIDs s = Main.parseOrderIDs s)
  /\ Atoi_int 32 "2147483648"
     = (2147483647, Some {| NumError_Func := "Atoi"; NumError_Num := "2147483648";
                            NumError_Err := ErrRange |})
  /\ ByRackID.parseOrderIDs_int 32 "2147483648" = [2147483647]
  /\ Main.parseOrderIDs "2147483648" = [2147483648].
Proof.
  split; [|by vm_compute].
  intros s.
  assert (Hval : forall tok, (Atoi_int 64 tok).1 = (ParseInt tok).1).
  { intros tok. by rewrite SizedFacts.Atoi_int_64, AtoiFacts.Atoi_ParseInt. }
  assert (Hatoi : forall tok, (Atoi tok).1 = (Atoi_int 64 tok).1).
  { intros tok. by rewrite SizedFacts.Atoi_int_64. }
  split; [apply Hval|]. split.
  { rewrite SizedFacts.Atoi_int_64, AtoiFacts.Atoi_ParseInt. unfold ParseInt_error.
    by destruct (ParseInt s).2. }
  split.
  { rewrite SizedFacts.Atoi_int_64. simpl. destruct (Atoi s) as [v [e|]]; done. }
  split; [|split; [|done]].
  - unfold ByRackID.parseOrderIDs, ByRackID.parseOrderIDs_int.
    rewrite !ParseFacts.foldl_snoc_map. f_equal.
    apply list_fmap_ext. intros i tok _. apply Hatoi.
  - unfold ByRackID.parseOrderIDs_int, Main.parseOrderIDs.
    rewrite !ParseFacts.foldl_snoc_map. f_equal.
    apply list_fmap_ext. intros i tok _. apply Hval.
Qed.

(** X14. part_001 [getOrders], started from the empty heap and cache and
    returning without error, maps exactly the requested order IDs; each
    order holds one freshly allocated product per row the store returns for
    it, in row order, with the row's product ID and quantity, the store's
    name for the product and no secondary rack; and no address is shared,
    within an order or between two orders. *)
Theorem item_getOrders_one_fresh_product_per_row
    (store : PerItem.Store) (ids : list Z)
    (orders : gmap Z (list nat)) (st' : PerItem.State) :
  PerItem.getOrders store ids {| PerItem.heap := []; PerItem.productsName := ∅ |}
    = (Ok orders, st') ->
  (forall oid, is_Some (orders !! oid) <-> oid ∈ ids)
  /\ PerItem.orders_loaded store orders (PerItem.heap st')
  /\ NoDup (mjoin (map_to_list orders).*2)
  /\ PerItem.cache_ok store (PerItem.productsName st').
Proof.
  intros Hg. apply HeapFacts.getOrders_loaded in Hg as (Hc & Hl & _ & Hout & Hin).
  split; [|split; [done|split; [by eapply HeapFacts.orders_loaded_NoDup|done]]].
  intros oid. split; [|apply Hin].
  intros Hs. destruct (decide (oid ∈ ids)) as [|Hn]; [done|].
  rewrite (Hout oid Hn) in Hs. by destruct Hs.
Qed.

Lemma item_getOrders_one_fresh_product_per_row_witness :
  exists orders st',
    PerItem.getOrders Examples.two_racks [1; 2]
      {| PerItem.heap := []; PerItem.productsName := ∅ |} = (Ok orders, st')
    /\ (forall oid, is_Some (orders !! oid) <-> oid ∈ [1; 2])
    /\ PerItem.orders_loaded Examples.two_racks orders (PerItem.heap st')
    /\ NoDup (mjoin (map_to_list orders).*2)
    /\ PerItem.cache_ok Examples.two_racks (PerItem.productsName st').
Proof.
  eexists _, _. split; [vm_compute; reflexivity|].
  apply (item_getOrders_one_fresh_product_per_row Examples.two_racks [1; 2]).
  vm_compute; reflexivity.
Defined.

(** X15. part_001, the two stages of [solve]: when [getOrders] and then
    [groupOrdersByRack] return without error, the grouping allocates
    nothing, and every line item of every order ends up with the row's
    product ID and quantity, the store's product name, and as
    [SecondaryRacks] exactly the names [GetSecondaryRacks] returns for its
    product, once and in the store's order, whatever order [range] visits
    the orders in. *)
Theorem item_line_items_carry_their_secondary_racks
    (ro : RangeOrder) (store : PerItem.Store) (ids : list Z)
    (orders : gmap Z (list nat)) (st : PerItem.State)
    (racks : gmap string (list PerItem.PartOrder)) (h' : list PerItem.Product) :
  range_ok ro ->
  PerItem.getOrders store ids {| PerItem.heap := []; PerItem.productsName := ∅ |}
    = (Ok orders, st) ->
  PerItem.groupOrdersByRack ro store orders (PerItem.heap st) = (Ok racks, h') ->
  length h' = length (PerItem.heap st)
  /\ forall oid ps, orders !! oid = Some ps ->
       exists rows, PerItem.GetOrder store oid = Ok rows
         /\ Forall2 (fun p row =>
              exists sp rs,
                PerItem.GetProduct store (PerItem.Order_ProductID row) = Ok sp
                /\ PerItem.GetSecondaryRacks store (PerItem.Order_ProductID row) = Ok rs
                /\ PerItem.deref h' p
                   = {| PerItem.ID := PerItem.Order_ProductID row;
                        PerItem.Name := PerItem.Product_Name sp;
                        PerItem.Quantity := PerItem.Order_Quantity row;
                        PerItem.SecondaryRacks := PerItem.Rack_Name <$> rs |})
              ps rows.
Proof.
  intros Hro Hg Hgr.
  apply HeapFacts.getOrders_loaded in Hg as (_ & Hl & Hv & _ & _).
  pose proof (HeapFacts.orders_loaded_NoDup _ _ _ Hl) as Hnd.
  unfold PerItem.groupOrdersByRack in Hgr.
  apply HeapFacts.groupOrders_heap in Hgr as (Hlen & _ & Hvis).
  - split; [done|]. intros oid ps Hps.
    destruct Hl as [Hcont _]. destruct (Hcont oid ps Hps) as (_ & rows & Hr & Hf).
    exists rows. split; [done|].
    apply Forall2_same_length_lookup_2; [by eapply Forall2_length|].
    intros i p row Hp Hrow.
    destruct (Forall2_lookup_lr _ _ _ _ _ _ Hf Hp Hrow)
      as (prod & Hprod & Hid & Hq & Hsec & sp & Hsp & Hname).
    destruct (Hvis p) as (rs & Hrs & Hd).
    { rewrite (range_items ro orders Hro). apply elem_of_items.
      exists oid, ps. split; [done|]. by eapply list_elem_of_lookup_2. }
    assert (Hdp : PerItem.deref (PerItem.heap st) p = prod)
      by (unfold PerItem.deref; by rewrite Hprod).
    rewrite Hdp in Hrs, Hd. rewrite Hid in Hrs.
    exists sp, rs. split; [done|]. split; [done|].
    rewrite Hd, Hid, Hq, Hsec, Hname. done.
  - by rewrite (range_items ro orders Hro).
  - intros p. rewrite (range_items ro orders Hro), elem_of_items.
    intros (oid & ps & Hps & Hp). by eapply Hv.
Qed.

Lemma item_line_items_carry_their_secondary_racks_witness :
  exists orders st racks h',
    PerItem.getOrders Examples.two_racks [1; 2]
      {| PerItem.heap := []; PerItem.productsName := ∅ |} = (Ok orders, st)
    /\ PerItem.groupOrdersByRack range_bwd Examples.two_racks orders (PerItem.heap st)
       = (Ok racks, h')
    /\ length h' = length (PerItem.heap st)
    /\ forall oid ps, orders !! oid = Some ps ->
       exists rows, PerItem.GetOrder Examples.two_racks oid = Ok rows
         /\ Forall2 (fun p row =>
              exists sp rs,
                PerItem.GetProduct Examples.two_racks (PerItem.Order_ProductID row) = Ok sp
                /\ PerItem.GetSecondaryRacks Examples.two_racks (PerItem.Order_ProductID row)
                   = Ok rs
                /\ PerItem.deref h' p
                   = {| PerItem.ID := PerItem.Order_ProductID row;
                        PerItem.Name := PerItem.Product_Name sp;
                        PerItem.Quantity := PerItem.Order_Quantity row;
                        PerItem.SecondaryRacks := PerItem.Rack_Name <$> rs |})
              ps rows.
Proof.
  eexists _, _, _, _. split; [vm_compute; reflexivity|].
  split; [vm_compute; reflexivity|].
  eapply (item_line_items_carry_their_secondary_racks
            range_bwd Examples.two_racks [1; 2]);
    [exact range_bwd_ok | vm_compute; reflexivity | vm_compute; reflexivity].
Defined.

(** X16. cmd/main.go [solve]: when the orders query answers with no row
    and no error, and [initRacks] returns without error, the run prints the
    banner line and nothing else and ends normally, whatever the racks
    query answered. *)
Theorem main_solve_no_rows_prints_banner_only
    (ro : RangeOrder) (db : Main.DB) (arg : string) (g' : Main.Globals) :
  range_ok ro ->
  Main.QueryOrders db (Main.parseOrderIDs arg)
    = Ok {| rows_Next := []; rows_Err := None |} ->
  Main.initRacks ro db {| Main.mainRacks := ∅; Main.secondaryRacks := ∅ |}
    = (None, g') ->
  Main.solve ro db arg = ("=+=+=+=" ++ nl, inl tt).
Proof.
  intros Hro Hq Hi. unfold Main.solve, Main.getOrders. rewrite Hq. simpl.
  rewrite Hi. unfold Main.groupOrdersByRack, Main.printRacksAndOrders,
    Main.getSortedRacksNames.
  assert (He : forall (K : Type) (EqK : EqDecision K) (CK : Countable K) (V : Type),
             range ro (∅ : gmap K V) = []).
  { intros K EqK CK V. apply Permutation_nil_r. rewrite (Hro K EqK CK V ∅).
    by rewrite map_to_list_empty. }
  rewrite He. simpl. rewrite He. reflexivity.
Qed.

Lemma main_solve_no_rows_prints_banner_only_witness :
  Main.solve range_bwd Examples.one_rack "7" = ("=+=+=+=" ++ nl, inl tt).
Proof.
  apply (main_solve_no_rows_prints_banner_only range_bwd Examples.one_rack "7"
           {| Main.mainRacks := ∅; Main.secondaryRacks := ∅ |});
    [exact range_bwd_ok | vm_compute; reflexivity | vm_compute; reflexivity].
Defined.
